(** * psbench: the stream-scaling benchmark driver, the ProxyStore backend
      dispatch, the conditional command-line flags and the CSV results logger.

    Python code is embedded shallowly: a function that can raise returns an
    [outcome]; a method that mutates locals and calls into the executor, the
    store or the stream runs in a small state-and-exception monad whose state
    carries the locals and a chronological trace of what was done. *)

From Stdlib Require Import ZArith List Bool Lia Floats Ascii String.
From stdpp Require Import base list strings gmap sorting.

(** ** Python exceptions and outcomes *)

Inductive exn : Type :=
| KeyboardInterrupt
| ZeroDivisionError
| OverflowError
| ValueError (msg : string)
| AssertionError
| IndexError
| RuntimeError (msg : string).

Inductive outcome (A : Type) : Type :=
| Returns (a : A)
| Raises (e : exn).
Arguments Returns {A} a.
Arguments Raises {A} e.

Definition obind {A B : Type} (m : outcome A) (k : A -> outcome B) : outcome B :=
  match m with
  | Returns a => k a
  | Raises e => Raises e
  end.

(** ** Python floats (binary64) *)

Module PyFloat.

Local Open Scope Z_scope.

(** [float(z)] for a Python int: the nearest binary64 value (ties to even),
    OverflowError when the int is beyond the binary64 range. *)
Definition float_of_int (z : Z) : outcome float :=
  let f := SF2Prim (binary_normalize prec emax z 0 false) in
  if PrimFloat.is_infinity f then Raises OverflowError else Returns f.

(** [a / b] on two floats: ZeroDivisionError when the divisor compares equal
    to zero, the IEEE quotient otherwise. *)
Definition float_div (a b : float) : outcome float :=
  if PrimFloat.eqb b 0%float then Raises ZeroDivisionError
  else Returns (PrimFloat.div a b).

(** [a / b] with an int numerator and a float denominator. *)
Definition truediv_int_float (a : Z) (b : float) : outcome float :=
  obind (float_of_int a) (fun fa => float_div fa b).

(** [a / b] with a float numerator and an int denominator. The divisor is
    converted first; 0 is the only int whose float is zero, so the zero test
    is made on the int. *)
Definition truediv_float_int (a : float) (b : Z) : outcome float :=
  if b =? 0 then Raises ZeroDivisionError
  else obind (float_of_int b) (fun fb => Returns (PrimFloat.div a fb)).

(** [a > b] on floats. *)
Definition gt (a b : float) : bool := PrimFloat.ltb b a.

Example float_of_int_zero : float_of_int 0 = Returns 0%float.
Proof. reflexivity. Qed.

Example float_of_int_rounds_to_even :
  float_of_int (2 ^ 53 + 1) = Returns 9007199254740992%float.
Proof. vm_compute. reflexivity. Qed.

Example float_of_int_overflows : float_of_int (2 ^ 1024) = Raises OverflowError.
Proof. vm_compute. reflexivity. Qed.

Example truediv_by_zero : truediv_float_int 1%float 0 = Raises ZeroDivisionError.
Proof. reflexivity. Qed.

End PyFloat.

(** ** psbench/benchmarks/stream_scaling/main.py *)

Module StreamScaling.

Import PyFloat.
Local Open Scope Z_scope.

Definition example_size_default : Z := 100000000.
Definition example_time_default : float := 0.250%float.

(** [pregenerate(size, interval, example_size, example_time)]. *)
Definition pregenerate (size : Z) (interval : float)
    (example_size : Z) (example_time : float) : outcome bool :=
  obind (truediv_int_float example_size example_time) (fun example_rate =>
  obind (truediv_int_float size example_rate) (fun expected_time =>
  Returns (gt expected_time interval))).

Example pregenerate_100MB_every_125ms :
  pregenerate 100000000 0.125%float example_size_default example_time_default =
  Returns true.
Proof. vm_compute. reflexivity. Qed.

Example pregenerate_1MB_every_second :
  pregenerate 1000000 1%float example_size_default example_time_default =
  Returns false.
Proof. vm_compute. reflexivity. Qed.

(** *** The objects the benchmark is built from *)

(** What the stream delivers: plain bytes, or a proxy with its cached target. *)
Inductive Item : Type :=
| BytesItem (data : string)
| ProxyItem (key : string) (wrapped : option string).

Record Executor : Type := mkExecutor {
  executor_class : string;
  executor_max_workers : option Z;
}.

Record Store : Type := mkStore {
  connector_class : string;
  store_config : string;
}.

Record StreamConfig : Type := mkStreamConfig {
  kind : option string;
  topic : string;
}.

Record RunConfig : Type := mkRunConfig {
  data_size_bytes : Z;
  task_count : Z;
  task_sleep : float;
}.

Record RunResult : Type := mkRunResult {
  res_executor : string;
  res_connector : string;
  res_stream : string;
  res_data_size_bytes : Z;
  res_task_count : Z;
  res_task_sleep : float;
  res_workers : Z;
  res_completed_tasks : Z;
  res_start_submit_tasks_timestamp : float;
  res_end_tasks_done_timestamp : float;
}.

Record Benchmark : Type := mkBenchmark {
  consumer : list Item;
  executor : Executor;
  store : Store;
  stream_config : StreamConfig;
  max_workers : Z;
}.

(** [Benchmark.__init__]: an executor without a worker count is refused. *)
Definition init (consumer : list Item) (executor : Executor) (store : Store)
    (stream_config : StreamConfig) : outcome Benchmark :=
  match executor_max_workers executor with
  | None =>
      Raises (ValueError "Executor max_workers is None but this benchmark requires the executor to define the maximum number of workers.")
  | Some n => Returns (mkBenchmark consumer executor store stream_config n)
  end.

(** Keyword arguments of the generator task submitted by [run]. *)
Record GeneratorKwargs : Type := mkGeneratorKwargs {
  gen_store_config : string;
  gen_stream_config : StreamConfig;
  gen_item_size_bytes : Z;
  gen_max_items : Z;
  gen_pregenerate : bool;
  gen_interval : float;
  gen_topic : string;
}.

(** *** Program points, events and the state of [run] *)

(** The statements of the loop body and of the final drain at which the
    outside world is involved or a local changes. *)
Inductive stage : Type :=
  Next | ClearWrapped | Submit | Append | Popleft | Result | Increment.

Inductive location : Type :=
| AtStoreFuture
| AtSubmitGenerator
| AtStartTime
| InLoop (i : nat) (st : stage)
| AtWarning
| AtSetResult
| AtFinallyResult
| AtGeneratorResult
| InDrain (j : nat) (st : stage)
| AtEndTime.

(** Compute futures are named by their submission index. *)
Definition future : Type := nat.

Inductive event : Type :=
| StoreFuture
| SubmittedGenerator (kw : GeneratorKwargs)
| TimeRead
| Yielded (i : nat) (item : Item)
| Exhausted (i : nat)
| SubmittedCompute (f : future) (item : Item) (sleep : float)
| Appended (f : future)
| Popped (f : future)
| Awaited (f : future)
| Counted
| Warned
| StopSet (value : bool)
| AwaitedGenerator
| Raised (l : location) (e : exn).

(** A trace entry: what happened, and the locals right after it. *)
Record entry : Type := mkEntry {
  what : event;
  deque_then : list future;
  completed_then : Z;
}.

Record state : Type := mkState {
  completed_tasks : Z;
  running_tasks : list future;
  trace : list entry;
}.

Definition initial_state : state := mkState 0 [] [].

Definition record (ev : event) (s : state) : state :=
  mkState (completed_tasks s) (running_tasks s)
          (trace s ++ [mkEntry ev (running_tasks s) (completed_tasks s)]).

Definition M (A : Type) : Type := state -> outcome A * state.

Definition ret {A : Type} (a : A) : M A := fun s => (Returns a, s).

Definition bind {A B : Type} (m : M A) (k : A -> M B) : M B :=
  fun s =>
    match m s with
    | (Returns a, s') => k a s'
    | (Raises e, s') => (Raises e, s')
    end.

Definition lift {A : Type} (o : outcome A) : M A := fun s => (o, s).

Declare Scope py_scope.
Delimit Scope py_scope with py.
Notation "'let*' x ':=' m 'in' k" := (bind m (fun x => k))
  (at level 10, x name, m at level 100, k at level 200) : py_scope.
Notation "m >> k" := (bind m (fun _ => k))
  (at level 90, right associativity) : py_scope.

(** [try: body / except KeyboardInterrupt: handler / finally: final]. *)
Definition try_except_finally (body handler final : M unit) : M unit :=
  fun s =>
    let after (pending : option exn) (s' : state) :=
      match final s' with
      | (Returns _, s'') =>
          match pending with
          | None => (Returns tt, s'')
          | Some e => (Raises e, s'')
          end
      | (Raises e', s'') => (Raises e', s'')
      end in
    match body s with
    | (Returns _, s1) => after None s1
    | (Raises KeyboardInterrupt, s1) =>
        match handler s1 with
        | (Returns _, s2) => after None s2
        | (Raises e, s2) => after (Some e) s2
        end
    | (Raises e, s1) => after (Some e) s1
    end.

Section Run.

(** The outside world: which program point, if any, raises when reached, and
    what the clock reads. *)
Variable fault : location -> option exn.
Variable clock : location -> float.

(** A statement at program point [l]: it raises what the world raises there,
    and otherwise takes effect. *)
Definition stmt {A : Type} (l : location) (effect : M A) : M A :=
  fun s =>
    match fault l with
    | Some e => (Raises e, record (Raised l e) s)
    | None => effect s
    end.

Definition note {A : Type} (ev : event) (a : A) : M A :=
  fun s => (Returns a, record ev s).

Definition store_future : M unit := stmt AtStoreFuture (note StoreFuture tt).

Definition submit_generator (kw : GeneratorKwargs) : M unit :=
  stmt AtSubmitGenerator (note (SubmittedGenerator kw) tt).

Definition time_time (l : location) : M float := stmt l (note TimeRead (clock l)).

Definition init_locals : M unit :=
  fun s => (Returns tt, mkState 0 [] (trace s)).

Definition next_item (i : nat) (item : Item) : M Item :=
  stmt (InLoop i Next) (note (Yielded i item) item).

Definition stop_iteration (i : nat) : M unit :=
  stmt (InLoop i Next) (note (Exhausted i) tt).

(** What [item.__wrapped__ = None] makes of a proxy. *)
Definition clear_wrapped (item : Item) : Item :=
  match item with
  | BytesItem data => BytesItem data
  | ProxyItem key _ => ProxyItem key None
  end.

(** [if isinstance(item, Proxy): item.__wrapped__ = None]: the assignment is
    made on proxies only, and goes through the proxy's own attribute
    handling, which may raise. *)
Definition unwrap (i : nat) (item : Item) : M Item :=
  match item with
  | BytesItem _ => ret item
  | ProxyItem _ _ => stmt (InLoop i ClearWrapped) (ret (clear_wrapped item))
  end.

Definition submit_compute (i : nat) (item : Item) (sleep : float) : M future :=
  stmt (InLoop i Submit) (note (SubmittedCompute i item sleep) i).

(** [running_tasks.append(f)]. *)
Definition push (f : future) : M unit :=
  fun s =>
    (Returns tt,
     record (Appended f)
       (mkState (completed_tasks s) (running_tasks s ++ [f]) (trace s))).

Definition append (l : location) (f : future) : M unit := stmt l (push f).

Definition len_running_tasks : M Z :=
  fun s => (Returns (Z.of_nat (length (running_tasks s))), s).

(** [running_tasks.popleft()]: IndexError on an empty deque. *)
Definition pop (l : location) : M future :=
  fun s =>
    match running_tasks s with
    | [] => (Raises IndexError, record (Raised l IndexError) s)
    | f :: rest =>
        (Returns f, record (Popped f) (mkState (completed_tasks s) rest (trace s)))
    end.

Definition popleft (l : location) : M future := stmt l (pop l).

Definition future_result (l : location) (f : future) : M unit :=
  stmt l (note (Awaited f) tt).

(** [completed_tasks += 1]. *)
Definition count : M unit :=
  fun s =>
    (Returns tt,
     record Counted (mkState (completed_tasks s + 1) (running_tasks s) (trace s))).

Definition incr_completed (l : location) : M unit := stmt l count.

Definition logger_warning : M unit := stmt AtWarning (note Warned tt).

Definition set_result (value : bool) : M unit :=
  stmt AtSetResult (note (StopSet value) tt).

Definition generator_result (l : location) : M unit :=
  stmt l (note AwaitedGenerator tt).

Definition get_completed : M Z := fun s => (Returns (completed_tasks s), s).

Local Open Scope py_scope.

(** The body of [for i, item in enumerate(self.consumer)], over what the
    consumer still holds. *)
Fixpoint consume (sleep : float) (compute_workers : Z) (i : nat)
    (items : list Item) : M unit :=
  match items with
  | [] => stop_iteration i
  | item :: rest =>
      let* item := next_item i item in
      let* item := unwrap i item in
      let* task_future := submit_compute i item sleep in
      append (InLoop i Append) task_future >>
      let* n := len_running_tasks in
      (if compute_workers <=? n then
         let* oldest_task_future := popleft (InLoop i Popleft) in
         future_result (InLoop i Result) oldest_task_future >>
         incr_completed (InLoop i Increment)
       else ret tt) >>
      consume sleep compute_workers (S i) rest
  end.

(** [while len(running_tasks) > 0: ...], with [fuel] bounding the number of
    iterations; [drain] gives it one more than the deque holds. *)
Fixpoint drain_loop (fuel : nat) (j : nat) : M unit :=
  let* n := len_running_tasks in
  if 0 <? n then
    match fuel with
    | O => lift (Raises (RuntimeError "out of fuel"))
    | S fuel' =>
        let* task := popleft (InDrain j Popleft) in
        future_result (InDrain j Result) task >>
        incr_completed (InDrain j Increment) >>
        drain_loop fuel' (S j)
    end
  else ret tt.

Definition drain : M unit :=
  fun s => drain_loop (S (length (running_tasks s))) 0 s.

Definition assert_not_none {A : Type} (o : option A) : M A :=
  match o with
  | Some a => ret a
  | None => lift (Raises AssertionError)
  end.

(** [Benchmark.run]. The calls to [logger.log] touch neither the locals nor
    the executor, the store or the stream, and are left out; an interrupt
    that arrives during one of them finds the state of the next statement. *)
Definition run (self : Benchmark) (config : RunConfig) : M RunResult :=
  let compute_workers := max_workers self - 1 in
  let* producer_interval := lift (truediv_float_int (task_sleep config) compute_workers) in
  let* pregen_data :=
    lift (pregenerate (data_size_bytes config) producer_interval
            example_size_default example_time_default) in
  let* stop_generator := store_future in
  let* generator_task_future :=
    submit_generator
      (mkGeneratorKwargs (store_config (store self)) (stream_config self)
         (data_size_bytes config) (task_count config) pregen_data
         producer_interval (topic (stream_config self))) in
  init_locals >>
  let* start := time_time AtStartTime in
  try_except_finally
    (consume (task_sleep config) compute_workers 0 (consumer self))
    (logger_warning >> set_result true)
    (generator_result AtFinallyResult) >>
  generator_result AtGeneratorResult >>
  drain >>
  let* end_ := time_time AtEndTime in
  let* stream_kind := assert_not_none (kind (stream_config self)) in
  let* completed := get_completed in
  ret (mkRunResult (executor_class (executor self))
         (connector_class (store self)) stream_kind
         (data_size_bytes config) (task_count config) (task_sleep config)
         (max_workers self) completed start end_).

End Run.

(** *** Entering and leaving the benchmark *)

(** The context managers [__enter__] enters: [self.consumer],
    [self.executor] and [self.store]. *)
Inductive resource : Type := TheConsumer | TheExecutor | TheStore.

Inductive lifecycle_event : Type :=
| Entered (r : resource)
| EnterFailed (r : resource) (e : exn)
| Exited (r : resource) (exc : option exn).

(** What an [ExitStack] is unwinding with: no exception, the exception it
    was handed, or an exception one of its callbacks raised. *)
Inductive unwinding : Type :=
| Clean
| Received (e : exn)
| Pending (e : exn).

Definition exc_details (u : unwinding) : option exn :=
  match u with
  | Clean => None
  | Received e | Pending e => Some e
  end.

Record lifecycle : Type := mkLifecycle {
  exit_callbacks : list resource;
  _stack : option (list resource);
  events : list lifecycle_event;
}.

Definition LM (A : Type) : Type := lifecycle -> outcome A * lifecycle.

Definition lm_ret {A : Type} (a : A) : LM A := fun s => (Returns a, s).

Definition lm_bind {A B : Type} (m : LM A) (k : A -> LM B) : LM B :=
  fun s =>
    match m s with
    | (Returns a, s') => k a s'
    | (Raises e, s') => (Raises e, s')
    end.

Section Lifecycle.

(** The context managers: what [__enter__] raises, if anything, and what
    [__exit__] does when called with the exception details [exc]: it
    returns, truthy to suppress the exception, or raises. *)
Variable enter_fault : resource -> option exn.
Variable exit_result : resource -> option exn -> outcome bool.

(** [ExitStack.__exit__]: the callbacks run last in, first out; a truthy
    result suppresses the exception for the callbacks below, an exception
    replaces it. *)
Fixpoint unwind (callbacks : list resource) (u : unwinding) (suppressed : bool)
    (tr : list lifecycle_event) : unwinding * bool * list lifecycle_event :=
  match callbacks with
  | [] => (u, suppressed, tr)
  | cb :: below =>
      let tr := tr ++ [Exited cb (exc_details u)] in
      match exit_result cb (exc_details u) with
      | Returns true => unwind below Clean true tr
      | Returns false => unwind below u suppressed tr
      | Raises new_exc => unwind below (Pending new_exc) suppressed tr
      end
  end.

Definition exit_stack_exit (callbacks : list resource) (exc : option exn)
    (tr : list lifecycle_event) : outcome bool * list lifecycle_event :=
  let received := match exc with Some e => Received e | None => Clean end in
  match unwind callbacks received false tr with
  | (Pending e, _, tr') => (Raises e, tr')
  | (_, suppressed, tr') =>
      (Returns (match exc with Some _ => suppressed | None => false end), tr')
  end.

(** [stack.enter_context(cm)]. *)
Definition enter_context (r : resource) : LM unit :=
  fun s =>
    match enter_fault r with
    | Some e =>
        (Raises e,
         mkLifecycle (exit_callbacks s) (_stack s) (events s ++ [EnterFailed r e]))
    | None =>
        (Returns tt,
         mkLifecycle (r :: exit_callbacks s) (_stack s) (events s ++ [Entered r]))
    end.

(** [self._stack = stack.pop_all()]. *)
Definition pop_all_into_stack : LM unit :=
  fun s => (Returns tt, mkLifecycle [] (Some (exit_callbacks s)) (events s)).

(** [with contextlib.ExitStack() as stack: body]. *)
Definition with_exit_stack (body : LM unit) : LM unit :=
  fun s =>
    match body (mkLifecycle [] (_stack s) (events s)) with
    | (Returns _, s1) =>
        match exit_stack_exit (exit_callbacks s1) None (events s1) with
        | (Returns _, tr) => (Returns tt, mkLifecycle [] (_stack s1) tr)
        | (Raises e', tr) => (Raises e', mkLifecycle [] (_stack s1) tr)
        end
    | (Raises e, s1) =>
        match exit_stack_exit (exit_callbacks s1) (Some e) (events s1) with
        | (Returns true, tr) => (Returns tt, mkLifecycle [] (_stack s1) tr)
        | (Returns false, tr) => (Raises e, mkLifecycle [] (_stack s1) tr)
        | (Raises e', tr) => (Raises e', mkLifecycle [] (_stack s1) tr)
        end
    end.

(** [Benchmark.__enter__]. *)
Definition __enter__ : LM unit :=
  with_exit_stack
    (lm_bind (enter_context TheConsumer) (fun _ =>
     lm_bind (enter_context TheExecutor) (fun _ =>
     lm_bind (enter_context TheStore) (fun _ =>
     pop_all_into_stack)))).

(** [Benchmark.__exit__(exc_type, exc_value, exc_traceback)] on a benchmark
    whose [_stack] holds [stack]: what the stack returns is dropped. *)
Definition __exit__ (stack : list resource) (exc : option exn)
    (tr : list lifecycle_event) : outcome unit * list lifecycle_event :=
  match exit_stack_exit stack exc tr with
  | (Returns _, tr') => (Returns tt, tr')
  | (Raises e, tr') => (Raises e, tr')
  end.

End Lifecycle.

(** *** What a trace says *)

Definition awaited (tr : list entry) : list future :=
  flat_map (fun en => match what en with Awaited f => [f] | _ => [] end) tr.

Definition submitted (tr : list entry) : list future :=
  flat_map (fun en => match what en with SubmittedCompute f _ _ => [f] | _ => [] end) tr.

Definition yielded (tr : list entry) : list nat :=
  flat_map (fun en => match what en with Yielded i _ => [i] | _ => [] end) tr.

Definition is_submission (ev : event) : bool :=
  match ev with SubmittedCompute _ _ _ => true | _ => false end.

(** An entry respects the cap [cw]: the deque holds at most [cw] futures, and
    fewer than [cw] at the moment a compute task is submitted. *)
Definition entry_within (cw : Z) (en : entry) : Prop :=
  Z.of_nat (length (deque_then en)) <= cw /\
  (is_submission (what en) = true -> Z.of_nat (length (deque_then en)) < cw).

(** *** Invariants of [run] and what the claims speak of *)

Definition wp {A : Type} (m : M A) (Q : A -> state -> Prop)
    (E : exn -> state -> Prop) (s : state) : Prop :=
  match m s with
  | (Returns a, s') => Q a s'
  | (Raises e, s') => E e s'
  end.

(** Events of [run] outside the loop body and the drain. *)
Definition outer (ev : event) : bool :=
  match ev with
  | StoreFuture | TimeRead | Warned | StopSet _ | AwaitedGenerator => true
  | _ => false
  end.

(** Program points inside the consume/submit loop. *)
Definition in_loop (l : location) : bool :=
  match l with InLoop _ _ => true | _ => false end.

(** The keyword arguments [run] passes to the generator task. *)
Definition generator_kwargs (self : Benchmark) (config : RunConfig)
    (interval : float) (pregen : bool) : GeneratorKwargs :=
  mkGeneratorKwargs (store_config (store self)) (stream_config self)
    (data_size_bytes config) (task_count config) pregen interval
    (topic (stream_config self)).

(** The result [run] builds once everything is drained. *)
Definition result_of (clock : location -> float) (self : Benchmark)
    (config : RunConfig) (stream_kind : string) (s : state) : RunResult :=
  mkRunResult (executor_class (executor self)) (connector_class (store self))
    stream_kind (data_size_bytes config) (task_count config) (task_sleep config)
    (max_workers self) (completed_tasks s) (clock AtStartTime) (clock AtEndTime).

(** The cap [cw] was respected so far and the deque is within it; [room]:
    and the deque can take one more future. *)
Definition within (cw : Z) (s : state) : Prop :=
  Forall (entry_within cw) (trace s) /\ Z.of_nat (length (running_tasks s)) <= cw.

Definition room (cw : Z) (s : state) : Prop :=
  Forall (entry_within cw) (trace s) /\ Z.of_nat (length (running_tasks s)) < cw.

(** The deque is in submission order, and a pop takes a future older than
    all that stay. *)
Definition pop_oldest (en : entry) : Prop :=
  StronglySorted lt (deque_then en) /\
  (forall f, what en = Popped f -> Forall (lt f) (deque_then en)).

(** [i] futures were appended so far, [n] submitted; [pend] is the future
    just popped and not yet awaited, if any. *)
Definition in_order (i n : nat) (pend : list future) (s : state) : Prop :=
  sublist (awaited (trace s) ++ pend ++ running_tasks s) (seq 0 i) /\
  submitted (trace s) = seq 0 n /\
  Forall pop_oldest (trace s).

(** Events that neither await nor submit nor pop a future. *)
Definition plain (ev : event) : bool :=
  match ev with
  | Awaited _ | SubmittedCompute _ _ _ | Popped _ => false
  | _ => true
  end.

(** What holds of the locals and the trace whatever way [run] ends. *)
Definition ordered (s : state) : Prop := exists i n, in_order i n [] s.

(** [y] items were yielded, [n] tasks submitted and [i] futures appended;
    every appended future is awaited, pending or still in the deque, and
    [completed_tasks] lags the awaited futures by [uncounted]. *)
Definition tally (y n i : nat) (pend : list future) (uncounted : Z)
    (s : state) : Prop :=
  awaited (trace s) ++ pend ++ running_tasks s = seq 0 i /\
  submitted (trace s) = seq 0 n /\
  yielded (trace s) = seq 0 y /\
  completed_tasks s + uncounted = Z.of_nat (length (awaited (trace s))).

(** Events that neither await, submit nor yield. *)
Definition quiet (ev : event) : bool :=
  match ev with
  | Awaited _ | SubmittedCompute _ _ _ | Yielded _ _ => false
  | _ => true
  end.

(** The exception came from the outside world. *)
Definition from_world (fault : location -> option exn) (e : exn) (s : state) : Prop :=
  exists l, fault l = Some e.

(** Why [run] can raise [e]: the outside world raised it, the arithmetic that
    opens [run] did, or the stream kind is missing. *)
Definition explained (fault : location -> option exn) (self : Benchmark)
    (config : RunConfig) (e : exn) (s : state) : Prop :=
  (exists l, fault l = Some e) \/
  truediv_float_int (task_sleep config) (max_workers self - 1) = Raises e \/
  (exists interval,
     truediv_float_int (task_sleep config) (max_workers self - 1) = Returns interval /\
     pregenerate (data_size_bytes config) interval
       example_size_default example_time_default = Raises e) \/
  (kind (stream_config self) = None /\ e = AssertionError).

(** A KeyboardInterrupt raised inside the consume/submit loop. *)
Definition is_interrupt (ev : event) : bool :=
  match ev with
  | Raised (InLoop _ _) KeyboardInterrupt => true
  | _ => false
  end.

(** No interrupt was raised in the loop so far. *)
Definition calm (s : state) : Prop :=
  Forall (fun en => is_interrupt (what en) = false) (trace s).

(** The loop has just been left by an interrupt. *)
Definition interrupted_now (s : state) : Prop :=
  exists pre en,
    trace s = pre ++ [en] /\
    Forall (fun en => is_interrupt (what en) = false) pre /\
    is_interrupt (what en) = true /\
    deque_then en = running_tasks s /\
    completed_then en = completed_tasks s.

(** After the interrupt [en]: the generator was told to stop and was joined,
    and the futures the deque held at the interrupt are awaited, pending or
    still in the deque. *)
Definition settling (pre : list entry) (en : entry) (pend : list future)
    (uncounted : Z) (s : state) : Prop :=
  exists post,
    trace s = pre ++ en :: post /\
    Forall (fun en => is_interrupt (what en) = false) post /\
    In (StopSet true) (map what post) /\
    In AwaitedGenerator (map what post) /\
    awaited post ++ pend ++ running_tasks s = deque_then en /\
    completed_tasks s + uncounted =
      completed_then en + Z.of_nat (length (awaited post)).

(** How the loop can be left by [e]. *)
Definition loop_exit (e : exn) (s : state) : Prop :=
  match e with
  | KeyboardInterrupt => interrupted_now s
  | _ => calm s
  end.

(** Events that neither await a future nor raise. *)
Definition silent (ev : event) : bool :=
  match ev with
  | Awaited _ | Raised _ _ => false
  | _ => true
  end.

(** How [run] ends when it returns [r] after an interrupt in the loop. *)
Definition stopped_and_drained (clock : location -> float) (self : Benchmark)
    (config : RunConfig) (r : RunResult) (s : state) : Prop :=
  exists pre en post,
    trace s = pre ++ en :: post /\
    Forall (fun en => is_interrupt (what en) = false) pre /\
    is_interrupt (what en) = true /\
    Forall (fun en => is_interrupt (what en) = false) post /\
    In (StopSet true) (map what post) /\
    In AwaitedGenerator (map what post) /\
    awaited post = deque_then en /\
    res_completed_tasks r =
      completed_then en + Z.of_nat (length (deque_then en)).

(** What [run] asks of the generator task: the producer interval it computed,
    and the pre-generation flag [pregenerate] gave for it. *)
Definition generator_request (self : Benchmark) (config : RunConfig)
    (ev : event) : Prop :=
  match ev with
  | SubmittedGenerator kw =>
      exists interval pregen,
        truediv_float_int (task_sleep config) (max_workers self - 1) = Returns interval /\
        pregenerate (data_size_bytes config) interval
          example_size_default example_time_default = Returns pregen /\
        kw = generator_kwargs self config interval pregen
  | _ => True
  end.

(** Every event of the trace satisfies [P]. *)
Definition all_events (P : event -> Prop) (s : state) : Prop :=
  Forall (fun en => P (what en)) (trace s).

Definition demo_benchmark : Benchmark :=
  mkBenchmark
    [BytesItem "a"; BytesItem "b"; ProxyItem "k" (Some "x"); BytesItem "d"]
    (mkExecutor "ThreadPoolExecutor" (Some 3))
    (mkStore "FileConnector" "file-store") (mkStreamConfig (Some "redis") "topic") 3.

Definition demo_config : RunConfig := mkRunConfig 1000 4 1%float.

Definition demo_clock (l : location) : float :=
  match l with AtEndTime => 5%float | _ => 0%float end.

(** Nothing fails and nobody interrupts. *)
Definition quiet_world (l : location) : option exn := None.

(** Ctrl-C while the third iteration waits on the oldest future. *)
Definition interrupting_world (l : location) : option exn :=
  match l with
  | InLoop 2 Result => Some KeyboardInterrupt
  | _ => None
  end.

(** What was raised so far, and where. *)
Definition raised (tr : list entry) : list (location * exn) :=
  flat_map (fun en => match what en with Raised l e => [(l, e)] | _ => [] end) tr.

(** The events of [run] outside the loop body and the drain, in order. *)
Definition skeleton (tr : list entry) : list event :=
  flat_map (fun en => if outer (what en) then [what en] else []) tr.

(** The futures in flight at the head of iteration [i] under the cap [cap]:
    the last [min i cap] that were submitted. *)
Definition in_flight (cap i : nat) : list future := seq (i - min i cap) (min i cap).

(** An entry made when the loop asks the stream for item [i] shows the deque
    of the head of iteration [i]. *)
Definition entry_steady (cap : nat) (en : entry) : Prop :=
  match what en with
  | Yielded i _ | Exhausted i => deque_then en = in_flight cap i
  | _ => True
  end.

(** What the compute tasks were given. *)
Definition submissions (tr : list entry) : list (Item * float) :=
  flat_map (fun en => match what en with
                      | SubmittedCompute _ item sleep => [(item, sleep)]
                      | _ => []
                      end) tr.

(** The items the stream delivered. *)
Definition taken (tr : list entry) : list Item :=
  flat_map (fun en => match what en with Yielded _ item => [item] | _ => [] end) tr.

(** A compute task is given the stream's [item]: the same bytes, or the same
    proxy without a cached target. *)
Definition handed (item given : Item) : Prop :=
  match item, given with
  | BytesItem data, BytesItem data' => data' = data
  | ProxyItem key _, ProxyItem key' wrapped' => key' = key /\ wrapped' = None
  | _, _ => False
  end.

(** Every item taken from [items], but possibly the last, went to a compute
    task, in order, with [config.task_sleep] as the task's sleep. *)
Definition handed_over (config : RunConfig) (items : list Item) (tr : list entry) : Prop :=
  exists done,
    Forall2 (fun item given => handed item (fst given) /\ snd given = task_sleep config)
      done (submissions tr) /\
    (taken tr = done \/ exists item, taken tr = done ++ [item]) /\
    taken tr `prefix_of` items.

(** Events of the final drain, and what any statement can leave behind. *)
Definition drain_event (ev : event) : bool :=
  match ev with
  | Popped _ | Awaited _ | Counted | Raised _ _ => true
  | _ => false
  end.

(** [y] items were yielded, [n] tasks submitted and [i] futures appended;
    [p] futures were popped and not awaited, and [completed_tasks] lags the
    awaited futures by [u]. *)
Definition ledger (y n i p : nat) (u : Z) (s : state) : Prop :=
  (length (awaited (trace s)) + p + length (running_tasks s) = i)%nat /\
  length (submitted (trace s)) = n /\
  length (yielded (trace s)) = y /\
  completed_tasks s + u = Z.of_nat (length (awaited (trace s))).

(** Of the items taken from the stream at most one is missing from
    [completed_tasks], and none unless something was raised. *)
Definition settled (total : nat) (s : state) : Prop :=
  exists y n i p u,
    ledger y n i p u s /\
    (i <= n)%nat /\ (n <= y)%nat /\ (y <= total)%nat /\ 0 <= u /\
    Z.of_nat y - Z.of_nat i + Z.of_nat p + u <= 1 /\
    (raised (trace s) = [] -> i = total /\ p = 0%nat /\ u = 0).

(** What was raised, and the events outside the loop and the drain. *)
Definition outline (R : list (location * exn)) (K : list event) (s : state) : Prop :=
  raised (trace s) = R /\ skeleton (trace s) = K.

(** The loop has just been left by [e], which the world raised at one of the
    loop's statements; nothing was raised before. *)
Definition left_by (fault : location -> option exn) (K : list event)
    (e : exn) (s : state) : Prop :=
  exists i st pre,
    fault (InLoop i st) = Some e /\
    trace s = pre ++ [mkEntry (Raised (InLoop i st) e) (running_tasks s) (completed_tasks s)] /\
    raised pre = [] /\ skeleton pre = K.

(** Events of the loop body and the drain. *)
Definition inner (ev : event) : bool :=
  match ev with
  | Yielded _ _ | Exhausted _ | SubmittedCompute _ _ _ | Appended _ | Popped _
  | Awaited _ | Counted => true
  | _ => false
  end.

(** Events of the loop body, and what any of its statements can leave
    behind. *)
Definition loop_event (ev : event) : bool :=
  match ev with
  | Raised _ _ => true
  | _ => inner ev
  end.

Definition is_clock_read (ev : event) : bool :=
  match ev with
  | TimeRead => true
  | _ => false
  end.

(** The trace opens with the stop future, the generator task and a reading
    of the clock, and the clock was not read since. *)
Definition started (tr : list entry) : Prop :=
  exists e1 e2 t1 work,
    tr = e1 :: e2 :: t1 :: work /\
    what e1 = StoreFuture /\
    (exists kw, what e2 = SubmittedGenerator kw) /\
    what t1 = TimeRead /\
    Forall (fun en => is_clock_read (what en) = false) work.

(** The clock was read right after the generator task was submitted and
    again at the very end, and not in between. *)
Definition bracketed (tr : list entry) : Prop :=
  exists e1 e2 t1 work t2,
    tr = e1 :: e2 :: t1 :: work ++ [t2] /\
    what e1 = StoreFuture /\
    (exists kw, what e2 = SubmittedGenerator kw) /\
    what t1 = TimeRead /\
    Forall (fun en => is_clock_read (what en) = false) work /\
    what t2 = TimeRead.

(** The futures in flight after [tr]: submitted and not awaited. *)
Definition outstanding (tr : list entry) : Z :=
  Z.of_nat (length (submitted tr)) - Z.of_nat (length (awaited tr)).

(** At every point of the trace at most [cw] futures are in flight, and
    fewer than [cw] when the next thing done is to submit a compute task. *)
Definition capped (cw : Z) (tr : list entry) : Prop :=
  forall pre post,
    tr = pre ++ post ->
    outstanding pre <= cw /\
    (forall en post',
       post = en :: post' -> is_submission (what en) = true ->
       outstanding pre < cw).

(** An executor that reports no workers. *)
Definition workerless_benchmark : Benchmark :=
  mkBenchmark [BytesItem "a"]
    (mkExecutor "Executor" (Some 0))
    (mkStore "FileConnector" "file-store") (mkStreamConfig (Some "redis") "topic") 0.

(** The float Python converts the int [z] to; it is infinite when [z] is
    beyond the binary64 range, and Python then raises instead. *)
Definition python_float (z : Z) : float :=
  SF2Prim (binary_normalize prec emax z 0 false).

Definition fits_float (z : Z) : Prop :=
  PrimFloat.is_infinity (python_float z) = false.

(** The example rate [example_size / example_time] and the expected
    generation time [size / (example_size / example_time)], as IEEE 754
    quotients. *)
Definition example_rate (example_size : Z) (example_time : float) : spec_float :=
  SF64div (Prim2SF (python_float example_size)) (Prim2SF example_time).

Definition expected_generation_time (size example_size : Z) (example_time : float) :
    spec_float :=
  SF64div (Prim2SF (python_float size)) (example_rate example_size example_time).

(** Both quotients exist: the ints fit a float and no divisor is zero. *)
Definition generation_time_defined (size example_size : Z) (example_time : float) : Prop :=
  fits_float size /\ fits_float example_size /\
  SFeqb (Prim2SF example_time) (S754_zero false) = false /\
  SFeqb (example_rate example_size example_time) (S754_zero false) = false.

(** The expected generation time is strictly greater than [interval]. *)
Definition generation_outlasts_interval (size : Z) (interval : float)
    (example_size : Z) (example_time : float) : Prop :=
  generation_time_defined size example_size example_time /\
  SFltb (Prim2SF interval)
        (expected_generation_time size example_size example_time) = true.

(** The interval at which the generator is to produce items,
    [task_sleep / (max_workers - 1)]. *)
Definition producer_interval (self : Benchmark) (config : RunConfig) : float :=
  PrimFloat.div (task_sleep config) (python_float (max_workers self - 1)).

(** [event] is a request to the generator task. *)
Definition generator_requests (tr : list entry) : list GeneratorKwargs :=
  flat_map (fun en => match what en with SubmittedGenerator kw => [kw] | _ => [] end) tr.

(** A payload of a gigabyte. *)
Definition bulky_config : RunConfig := mkRunConfig 1000000000 4 1%float.

(** [e] is the last thing raised, by the world, at a statement that was
    reached. *)
Definition raised_by_world (fault : location -> option exn) (e : exn) (s : state) : Prop :=
  exists l R, raised (trace s) = R ++ [(l, e)] /\ fault l = Some e.

(** A benchmark that was not entered yet. *)
Definition unentered : lifecycle := mkLifecycle [] None [].

Definition entered (tr : list lifecycle_event) : list resource :=
  flat_map (fun ev => match ev with Entered r => [r] | _ => [] end) tr.

Definition exited (tr : list lifecycle_event) : list resource :=
  flat_map (fun ev => match ev with Exited r _ => [r] | _ => [] end) tr.

(** The second compute task fails while the loop waits on it. *)
Definition failing_world (l : location) : option exn :=
  match l with
  | InLoop 2 Result => Some (RuntimeError "task failed")
  | _ => None
  end.

(** The demo benchmark on a stream whose configuration names no kind. *)
Definition kindless_benchmark : Benchmark :=
  mkBenchmark
    [BytesItem "a"; BytesItem "b"; ProxyItem "k" (Some "x"); BytesItem "d"]
    (mkExecutor "ThreadPoolExecutor" (Some 3))
    (mkStore "FileConnector" "file-store") (mkStreamConfig None "topic") 3.

(** *** Weakest preconditions for [M] *)

Lemma wp_ret {A : Type} (a : A) Q E s : Q a s -> wp (ret a) Q E s.
Proof. intros H. exact H. Qed.

Lemma wp_lift {A : Type} (o : outcome A) Q E s :
  match o with Returns a => Q a s | Raises e => E e s end -> wp (lift o) Q E s.
Proof. unfold wp, lift. destruct o; auto. Qed.

Lemma wp_bind {A B : Type} (m : M A) (k : A -> M B) Q E s :
  wp m (fun a s' => wp (k a) Q E s') E s -> wp (bind m k) Q E s.
Proof.
  unfold wp, bind. destruct (m s) as [[a|e] s']; auto.
Qed.

Lemma wp_mono {A : Type} (m : M A) (Q Q' : A -> state -> Prop)
    (E E' : exn -> state -> Prop) s :
  wp m Q E s ->
  (forall a s', Q a s' -> Q' a s') ->
  (forall e s', E e s' -> E' e s') ->
  wp m Q' E' s.
Proof.
  unfold wp. destruct (m s) as [[a|e] s']; auto.
Qed.

Lemma wp_stmt {A : Type} fault l (effect : M A) Q E s :
  (forall e, fault l = Some e -> E e (record (Raised l e) s)) ->
  (fault l = None -> wp effect Q E s) ->
  wp (stmt fault l effect) Q E s.
Proof.
  intros Hraise Heffect. unfold wp, stmt in *.
  destruct (fault l) as [e|]; [apply Hraise | apply Heffect]; reflexivity.
Qed.

Lemma wp_note {A : Type} ev (a : A) Q E s :
  Q a (record ev s) -> wp (note ev a) Q E s.
Proof. intros H. exact H. Qed.

Lemma wp_try (body handler final : M unit) Q E s :
  wp body
     (fun _ s1 => wp final (fun _ s2 => Q tt s2) E s1)
     (fun e s1 =>
        match e with
        | KeyboardInterrupt =>
            wp handler
               (fun _ s2 => wp final (fun _ s3 => Q tt s3) E s2)
               (fun e2 s2 => wp final (fun _ s3 => E e2 s3) E s2) s1
        | _ => wp final (fun _ s3 => E e s3) E s1
        end) s ->
  wp (try_except_finally body handler final) Q E s.
Proof.
  unfold wp, try_except_finally.
  destruct (body s) as [[[]|e] s1].
  - destruct (final s1) as [[[]|e'] s2]; auto.
  - destruct e;
      try solve [destruct (final s1) as [[[]|e'] s2]; auto].
    destruct (handler s1) as [[[]|e2] s2];
      destruct (final s2) as [[[]|e'] s3]; auto.
Qed.

(** *** A concrete benchmark: three workers, four items *)

Lemma demo_benchmark_init :
  init [BytesItem "a"; BytesItem "b"; ProxyItem "k" (Some "x"); BytesItem "d"]
       (mkExecutor "ThreadPoolExecutor" (Some 3))
       (mkStore "FileConnector" "file-store")
       (mkStreamConfig (Some "redis") "topic") = Returns demo_benchmark.
Proof. reflexivity. Qed.

Lemma wp_push f Q E s :
  Q tt (record (Appended f)
          (mkState (completed_tasks s) (running_tasks s ++ [f]) (trace s))) ->
  wp (push f) Q E s.
Proof. intros H. exact H. Qed.

Lemma wp_pop l Q E s :
  (running_tasks s = [] -> E IndexError (record (Raised l IndexError) s)) ->
  (forall f rest, running_tasks s = f :: rest ->
     Q f (record (Popped f) (mkState (completed_tasks s) rest (trace s)))) ->
  wp (pop l) Q E s.
Proof.
  intros Hempty Hcons. unfold wp, pop.
  destruct (running_tasks s) as [|f rest]; auto.
Qed.

Lemma wp_count Q E s :
  Q tt (record Counted
          (mkState (completed_tasks s + 1) (running_tasks s) (trace s))) ->
  wp count Q E s.
Proof. intros H. exact H. Qed.

Lemma wp_len Q E s :
  Q (Z.of_nat (length (running_tasks s))) s -> wp len_running_tasks Q E s.
Proof. intros H. exact H. Qed.

Lemma wp_unwrap fault i item Q E s :
  (forall e, fault (InLoop i ClearWrapped) = Some e ->
     E e (record (Raised (InLoop i ClearWrapped) e) s)) ->
  Q (clear_wrapped item) s ->
  wp (unwrap fault i item) Q E s.
Proof.
  intros Hraise Hq. destruct item; simpl.
  - exact Hq.
  - apply wp_stmt; [exact Hraise | intros _; exact Hq].
Qed.

Ltac wp_step :=
  lazymatch goal with
  | |- wp (bind _ _) _ _ _ => apply wp_bind
  | |- wp (stmt _ _ _) _ _ _ => apply wp_stmt; [intros ? ? | intros ?]
  | |- wp (note _ _) _ _ _ => apply wp_note
  | |- wp (ret _) _ _ _ => apply wp_ret
  | |- wp (push _) _ _ _ => apply wp_push
  | |- wp count _ _ _ => apply wp_count
  | |- wp len_running_tasks _ _ _ => apply wp_len
  | |- wp (pop _) _ _ _ => apply wp_pop; [intros ? | intros ? ? ?]
  | |- wp (unwrap _ _ _) _ _ _ => apply wp_unwrap; [intros ? ? | ]
  end.

Ltac wp_unfold :=
  unfold stop_iteration, next_item, submit_compute, append, popleft,
    future_result, incr_completed, store_future, submit_generator, time_time,
    logger_warning, set_result, generator_result.

(** Replace the state of the goal by a fresh one known to satisfy [I]. *)
Ltac wp_forget I tac :=
  lazymatch goal with
  | |- wp _ _ _ ?s' =>
      let H := fresh "Hs" in
      assert (H : I s') by tac;
      revert H; generalize s'; intros ? H
  end.

Lemma wp_snd {A : Type} (m : M A) (I : state -> Prop) s :
  wp m (fun _ => I) (fun _ => I) s -> I (snd (m s)).
Proof. unfold wp. destruct (m s) as [[a|e] s']; auto. Qed.

Lemma wp_init_locals Q E s :
  Q tt (mkState 0 [] (trace s)) -> wp init_locals Q E s.
Proof. intros H. exact H. Qed.

Lemma wp_drain fault Q E s :
  wp (drain_loop fault (S (length (running_tasks s))) 0) Q E s -> wp (drain fault) Q E s.
Proof. intros H. exact H. Qed.

Lemma wp_assert_not_none {A : Type} (o : option A) Q E s :
  match o with Some a => Q a s | None => E AssertionError s end ->
  wp (assert_not_none o) Q E s.
Proof. destruct o; intros H; exact H. Qed.

Section RunInvariant.

Variable fault : location -> option exn.
Variable clock : location -> float.
Variable self : Benchmark.
Variable config : RunConfig.

(** [Pre] holds up to the initialisation of the locals, [L] at the head of
    the loop, [I] from the end of the [try] statement, [F] once the deque is
    drained, and [J e] when [e] is propagating. *)
Variables Pre L I F : state -> Prop.
Variable J : exn -> state -> Prop.

Let cw : Z := max_workers self - 1.

Hypothesis Pre_initial : Pre initial_state.
Hypothesis J_interval : forall e,
  truediv_float_int (task_sleep config) cw = Raises e -> J e initial_state.
Hypothesis J_pregenerate : forall interval e,
  truediv_float_int (task_sleep config) cw = Returns interval ->
  pregenerate (data_size_bytes config) interval
    example_size_default example_time_default = Raises e ->
  J e initial_state.
Hypothesis Pre_outer : forall ev s, outer ev = true -> Pre s -> Pre (record ev s).
Hypothesis Pre_generator : forall interval pregen s,
  truediv_float_int (task_sleep config) cw = Returns interval ->
  pregenerate (data_size_bytes config) interval
    example_size_default example_time_default = Returns pregen ->
  Pre s ->
  Pre (record (SubmittedGenerator (generator_kwargs self config interval pregen)) s).
Hypothesis Pre_raise : forall l e s,
  in_loop l = false -> fault l = Some e -> Pre s -> J e (record (Raised l e) s).
Hypothesis L_locals : forall s, Pre s -> L (mkState 0 [] (trace s)).
Hypothesis L_outer : forall ev s, outer ev = true -> L s -> L (record ev s).
Hypothesis L_raise : forall l e s,
  in_loop l = false -> fault l = Some e -> L s -> J e (record (Raised l e) s).
Hypothesis I_loop : forall s, L s ->
  wp (consume fault (task_sleep config) cw 0 (consumer self)) (fun _ => I) J s.
Hypothesis I_outer : forall ev s, outer ev = true -> I s -> I (record ev s).
Hypothesis I_raise : forall l e s,
  in_loop l = false -> fault l = Some e -> I s -> J e (record (Raised l e) s).
Hypothesis I_interrupted : forall s, J KeyboardInterrupt s -> I s.
Hypothesis J_outer : forall e ev s, outer ev = true -> J e s -> J e (record ev s).
Hypothesis J_raise : forall e0 l e s,
  in_loop l = false -> fault l = Some e -> J e0 s -> J e (record (Raised l e) s).
Hypothesis F_drain : forall s, I s -> wp (drain fault) (fun _ => F) J s.
Hypothesis F_outer : forall ev s, outer ev = true -> F s -> F (record ev s).
Hypothesis F_raise : forall l e s,
  in_loop l = false -> fault l = Some e -> F s -> J e (record (Raised l e) s).
Hypothesis J_assert : forall s,
  kind (stream_config self) = None -> F s -> J AssertionError s.

Lemma try_invariant s :
  L s ->
  wp (try_except_finally
        (consume fault (task_sleep config) cw 0 (consumer self))
        (bind (logger_warning fault) (fun _ => set_result fault true))
        (generator_result fault AtFinallyResult))
     (fun _ => I) J s.
Proof using I_loop I_outer I_raise I_interrupted J_outer J_raise.
  intros Hs.
  assert (Hfin : forall s0, I s0 ->
            wp (generator_result fault AtFinallyResult) (fun _ => I) J s0).
  { intros s0 Hs0. wp_unfold. wp_step; [eauto|]. wp_step. auto. }
  assert (Hpend : forall e0 s0, J e0 s0 ->
            wp (generator_result fault AtFinallyResult) (fun _ => J e0) J s0).
  { intros e0 s0 Hs0. wp_unfold. wp_step; [eauto|]. wp_step. auto. }
  apply wp_try.
  eapply wp_mono; [apply I_loop, Hs | |].
  - intros [] s1 Hs1. apply Hfin, Hs1.
  - intros e s1 Hs1. cbv beta in Hs1.
    destruct e; try (apply Hpend, Hs1).
    apply I_interrupted in Hs1.
    wp_unfold. wp_step. wp_step.
    + apply Hpend. eauto.
    + wp_step. wp_forget I ltac:(auto).
      wp_step.
      * apply Hpend. eauto.
      * wp_step. apply Hfin. auto.
Qed.

Lemma run_invariant :
  wp (run fault clock self config)
     (fun r s =>
        F s /\ exists stream_kind,
          kind (stream_config self) = Some stream_kind /\
          r = result_of clock self config stream_kind s)
     J initial_state.
Proof using All.
  unfold run. fold cw.
  wp_step. apply wp_lift.
  destruct (truediv_float_int (task_sleep config) cw) as [interval|e] eqn:Hdiv;
    [|auto].
  wp_step. apply wp_lift.
  destruct (pregenerate _ _ _ _) as [pregen|e] eqn:Hpregen; [|eauto].
  wp_unfold.
  wp_step. wp_step; [eauto|]. wp_step.
  wp_forget Pre ltac:(auto).
  wp_step. wp_step; [eauto|]. wp_step.
  wp_forget Pre ltac:(apply Pre_generator; first [assumption | reflexivity]).
  wp_step. apply wp_init_locals.
  wp_forget L ltac:(auto).
  wp_step. wp_step; [eauto|]. wp_step.
  wp_forget L ltac:(auto).
  wp_step. eapply wp_mono; [apply try_invariant; assumption | | auto].
  intros [] s3 Hs3. cbv beta.
  wp_step. wp_step; [eauto|]. wp_step.
  wp_forget I ltac:(auto).
  wp_step.
  eapply wp_mono; [apply F_drain; assumption | | auto].
  intros [] s5 Hs5. cbv beta.
  wp_step. wp_step; [eauto|]. wp_step.
  wp_forget F ltac:(auto).
  wp_step. apply wp_assert_not_none.
  destruct (kind (stream_config self)) as [stream_kind|] eqn:Hkind; [|auto].
  wp_step. unfold get_completed, wp, ret. split; [assumption|].
  exists stream_kind. split; reflexivity.
Qed.

End RunInvariant.

Lemma room_within cw s : room cw s -> within cw s.
Proof. intros [H1 H2]. split; [exact H1 | lia]. Qed.

Lemma room_record cw ev s : room cw s -> room cw (record ev s).
Proof.
  intros [H1 H2]. split; simpl; [|exact H2].
  apply Forall_app. split; [exact H1|].
  constructor; [|constructor]. split; simpl; lia.
Qed.

Lemma within_record cw ev s :
  within cw s -> is_submission ev = false -> within cw (record ev s).
Proof.
  intros [H1 H2] Hev. split; simpl; [|exact H2].
  apply Forall_app. split; [exact H1|].
  constructor; [|constructor]. split; simpl; [lia|]. rewrite Hev. discriminate.
Qed.

Lemma within_push cw f s :
  room cw s ->
  within cw (record (Appended f)
               (mkState (completed_tasks s) (running_tasks s ++ [f]) (trace s))).
Proof.
  intros [H1 H2]. apply within_record; [|reflexivity].
  split; simpl; [exact H1|]. rewrite length_app. simpl. lia.
Qed.

Lemma room_pop cw f rest s :
  within cw s -> running_tasks s = f :: rest ->
  room cw (record (Popped f) (mkState (completed_tasks s) rest (trace s))).
Proof.
  intros [H1 H2] Hd. rewrite Hd in H2. simpl in H2.
  apply room_record. split; simpl; [exact H1 | lia].
Qed.

Lemma within_pop cw f rest s :
  within cw s -> running_tasks s = f :: rest ->
  within cw (record (Popped f) (mkState (completed_tasks s) rest (trace s))).
Proof. intros. apply room_within. eapply room_pop; eauto. Qed.

Lemma room_count cw s :
  room cw s ->
  room cw (record Counted
             (mkState (completed_tasks s + 1) (running_tasks s) (trace s))).
Proof. intros [H1 H2]. apply room_record. split; simpl; assumption. Qed.

Lemma within_count cw s :
  within cw s ->
  within cw (record Counted
             (mkState (completed_tasks s + 1) (running_tasks s) (trace s))).
Proof. intros [H1 H2]. apply within_record; [|reflexivity]. split; simpl; assumption. Qed.

Create HintDb cap.
#[local] Hint Resolve room_within room_record within_push room_pop within_pop room_count within_count : cap.
#[local] Hint Extern 1 (within _ (record _ _)) => apply within_record; [|reflexivity] : cap.

Lemma consume_within fault sleep cw items : forall i s,
  room cw s ->
  wp (consume fault sleep cw i items) (fun _ => within cw) (fun _ => within cw) s.
Proof.
  induction items as [|item rest IH]; intros i s Hs; simpl; wp_unfold.
  - repeat wp_step; auto with cap.
  - wp_step. wp_step; [auto with cap|]. wp_step.
    wp_forget (room cw) ltac:(auto with cap).
    wp_step. wp_step; [auto with cap|].
    wp_step. wp_step; [auto with cap|]. wp_step.
    wp_forget (room cw) ltac:(auto with cap).
    wp_step. wp_step; [auto with cap|]. wp_step.
    wp_forget (within cw) ltac:(auto with cap).
    wp_step. wp_step. wp_step.
    destruct (Z.leb_spec cw (Z.of_nat (length (running_tasks s2)))) as [Hle|Hlt].
    + wp_step. wp_step; [auto with cap|]. wp_step; [auto with cap|].
      wp_forget (room cw) ltac:(eauto with cap).
      wp_step. wp_step; [auto with cap|]. wp_step.
      wp_forget (room cw) ltac:(auto with cap).
      wp_step; [auto with cap|]. wp_step.
      apply IH. auto with cap.
    + wp_step. apply IH.
      match goal with H : within cw ?s |- room cw ?s => destruct H; split; assumption end.
Qed.

Lemma drain_loop_within fault cw fuel : forall j s,
  within cw s ->
  wp (drain_loop fault fuel j) (fun _ => within cw) (fun _ => within cw) s.
Proof.
  induction fuel as [|fuel IH]; intros j s Hs; simpl; wp_unfold.
  - wp_step. wp_step. destruct (0 <? _); [apply wp_lift | wp_step]; exact Hs.
  - wp_step. wp_step. destruct (0 <? _); [|wp_step; exact Hs].
    wp_step. wp_step; [auto with cap|]. wp_step; [auto with cap|].
    wp_forget (within cw) ltac:(eauto with cap).
    wp_step. wp_step; [auto with cap|]. wp_step.
    wp_forget (within cw) ltac:(eauto with cap).
    wp_step. wp_step; [auto with cap|]. wp_step.
    apply IH. auto with cap.
Qed.

Lemma room_init_locals cw s :
  1 <= cw -> within cw s -> room cw (mkState 0 [] (trace s)).
Proof. intros Hcw [H1 _]. split; simpl; [exact H1 | lia]. Qed.

Lemma StronglySorted_sublist {A : Type} (R : relation A) (l k : list A) :
  sublist l k -> StronglySorted R k -> StronglySorted R l.
Proof.
  induction 1 as [|x l k Hsub IH|x l k Hsub IH]; intros Hk.
  - constructor.
  - apply StronglySorted_inv in Hk as [Hk Hx]. constructor; [auto|].
    rewrite Forall_forall in *. intros y Hy. apply Hx.
    apply (sublist_subseteq _ _ Hsub). exact Hy.
  - apply StronglySorted_inv in Hk as [Hk _]. auto.
Qed.

Lemma StronglySorted_seq (a n : nat) : StronglySorted lt (seq a n).
Proof.
  revert a. induction n as [|n IH]; intros a; simpl; constructor; [apply IH|].
  apply Forall_forall. intros x Hx. apply elem_of_seq in Hx. lia.
Qed.

Lemma awaited_record ev s :
  awaited (trace (record ev s)) =
  awaited (trace s) ++ match ev with Awaited f => [f] | _ => [] end.
Proof. unfold awaited. simpl. rewrite flat_map_app. simpl. rewrite app_nil_r. reflexivity. Qed.

Lemma submitted_record ev s :
  submitted (trace (record ev s)) =
  submitted (trace s) ++ match ev with SubmittedCompute f _ _ => [f] | _ => [] end.
Proof. unfold submitted. simpl. rewrite flat_map_app. simpl. rewrite app_nil_r. reflexivity. Qed.

Lemma in_order_deque_sorted i n pend s :
  in_order i n pend s -> StronglySorted lt (running_tasks s).
Proof.
  intros [Hsub _].
  pose proof (StronglySorted_sublist lt _ _ Hsub (StronglySorted_seq 0 i)) as Hsorted.
  rewrite app_assoc in Hsorted. eapply StronglySorted_app_1_r, Hsorted.
Qed.

Lemma in_order_record i n pend ev s :
  in_order i n pend s -> plain ev = true -> in_order i n pend (record ev s).
Proof.
  intros Hs Hev. pose proof (in_order_deque_sorted _ _ _ _ Hs) as Hd.
  destruct Hs as (Hsub & Hn & Hpop). split; [|split].
  - rewrite awaited_record. destruct ev; try discriminate; rewrite app_nil_r; exact Hsub.
  - rewrite submitted_record. destruct ev; try discriminate; rewrite app_nil_r; exact Hn.
  - simpl. apply Forall_app. split; [exact Hpop|]. constructor; [|constructor].
    split; simpl; [exact Hd|]. intros f Hf. subst ev. discriminate.
Qed.

Lemma in_order_submit i item sleep s :
  in_order i i [] s -> in_order i (S i) [] (record (SubmittedCompute i item sleep) s).
Proof.
  intros Hs. pose proof (in_order_deque_sorted _ _ _ _ Hs) as Hd.
  destruct Hs as (Hsub & Hn & Hpop). split; [|split].
  - rewrite awaited_record, app_nil_r. exact Hsub.
  - rewrite submitted_record, Hn, seq_S. reflexivity.
  - simpl. apply Forall_app. split; [exact Hpop|]. constructor; [|constructor].
    split; simpl; [exact Hd|]. discriminate.
Qed.

Lemma in_order_push i s :
  in_order i (S i) [] s ->
  in_order (S i) (S i) []
    (record (Appended i)
       (mkState (completed_tasks s) (running_tasks s ++ [i]) (trace s))).
Proof.
  intros (Hsub & Hn & Hpop).
  assert (Hs' : in_order (S i) (S i) []
            (mkState (completed_tasks s) (running_tasks s ++ [i]) (trace s))).
  { split; [|split]; cbn [trace running_tasks]; [|exact Hn|exact Hpop].
    cbn [app] in *. rewrite seq_S, app_assoc.
    apply sublist_app; [exact Hsub|reflexivity]. }
  apply in_order_record; [exact Hs' | reflexivity].
Qed.

Lemma in_order_pop i n f rest s :
  in_order i n [] s -> running_tasks s = f :: rest ->
  in_order i n [f] (record (Popped f) (mkState (completed_tasks s) rest (trace s))).
Proof.
  intros Hs Hd. pose proof (in_order_deque_sorted _ _ _ _ Hs) as Hsorted.
  destruct Hs as (Hsub & Hn & Hpop). rewrite Hd in Hsub, Hsorted.
  apply StronglySorted_inv in Hsorted as [Hrest Hf].
  split; [|split].
  - rewrite awaited_record, app_nil_r. exact Hsub.
  - rewrite submitted_record, app_nil_r. exact Hn.
  - simpl. apply Forall_app. split; [exact Hpop|]. constructor; [|constructor].
    split; simpl; [exact Hrest|]. intros f' Hf'. injection Hf' as <-. exact Hf.
Qed.

Lemma in_order_await i n f s :
  in_order i n [f] s -> in_order i n [] (record (Awaited f) s).
Proof.
  intros Hs. pose proof (in_order_deque_sorted _ _ _ _ Hs) as Hd.
  destruct Hs as (Hsub & Hn & Hpop). split; [|split].
  - rewrite awaited_record. simpl. rewrite <- app_assoc. exact Hsub.
  - rewrite submitted_record, app_nil_r. exact Hn.
  - simpl. apply Forall_app. split; [exact Hpop|]. constructor; [|constructor].
    split; simpl; [exact Hd|]. discriminate.
Qed.

Lemma in_order_drop i n f s : in_order i n [f] s -> in_order i n [] s.
Proof.
  intros (Hsub & Hn & Hpop). split; [|split]; [|exact Hn|exact Hpop].
  etransitivity; [|exact Hsub]. apply sublist_app; [reflexivity|].
  simpl. apply sublist_cons. reflexivity.
Qed.

Lemma in_order_count i n pend s :
  in_order i n pend s ->
  in_order i n pend
    (record Counted (mkState (completed_tasks s + 1) (running_tasks s) (trace s))).
Proof.
  intros Hs. apply in_order_record; [|reflexivity].
  destruct Hs as (Hsub & Hn & Hpop). split; [|split]; assumption.
Qed.

Lemma in_order_init_locals s :
  in_order 0 0 [] s -> in_order 0 0 [] (mkState 0 [] (trace s)).
Proof.
  intros (Hsub & Hn & Hpop). split; [|split]; simpl; [|exact Hn|exact Hpop].
  simpl in Hsub. apply sublist_nil_r in Hsub. apply app_eq_nil in Hsub as [-> _].
  constructor.
Qed.

Lemma in_order_weaken i n s :
  in_order i n [] s -> in_order (S i) n [] s.
Proof.
  intros (Hsub & Hn & Hpop). split; [|split]; [|exact Hn|exact Hpop].
  rewrite seq_S. apply sublist_inserts_r. exact Hsub.
Qed.

Create HintDb ord.
#[local] Hint Resolve in_order_submit in_order_push in_order_pop in_order_await
  in_order_drop in_order_count in_order_init_locals : ord.
#[local] Hint Extern 1 (in_order _ _ _ (record _ _)) =>
  apply in_order_record; [|reflexivity] : ord.
#[local] Hint Extern 2 (ordered _) => eexists _, _ : ord.

Lemma consume_ordered fault sleep cw items : forall i s,
  in_order i i [] s ->
  wp (consume fault sleep cw i items) (fun _ => ordered) (fun _ => ordered) s.
Proof.
  induction items as [|item rest IH]; intros i s Hs; simpl; wp_unfold.
  - repeat wp_step; eauto with ord.
  - wp_step. wp_step; [eauto with ord|]. wp_step.
    wp_forget (in_order i i []) ltac:(auto with ord).
    wp_step. wp_step; [eauto with ord|].
    wp_step. wp_step; [eauto with ord|]. wp_step.
    wp_forget (in_order i (S i) []) ltac:(auto with ord).
    wp_step. wp_step; [eauto with ord|]. wp_step.
    wp_forget (in_order (S i) (S i) []) ltac:(auto with ord).
    wp_step. wp_step. wp_step.
    destruct (cw <=? _).
    + wp_step. wp_step; [eauto with ord|]. wp_step; [eauto with ord|].
      wp_forget (in_order (S i) (S i) [f]) ltac:(eauto with ord).
      wp_step. wp_step; [eauto 6 with ord|]. wp_step.
      wp_forget (in_order (S i) (S i) []) ltac:(auto with ord).
      wp_step; [eauto with ord|]. wp_step.
      apply IH. auto with ord.
    + wp_step. apply IH. assumption.
Qed.

Lemma drain_loop_ordered fault fuel : forall j s,
  ordered s ->
  wp (drain_loop fault fuel j) (fun _ => ordered) (fun _ => ordered) s.
Proof.
  induction fuel as [|fuel IH]; intros j s Hs; simpl; wp_unfold.
  - wp_step. wp_step. destruct (0 <? _); [apply wp_lift | wp_step]; exact Hs.
  - wp_step. wp_step. destruct (0 <? _); [|wp_step; exact Hs].
    destruct Hs as (i & n & Hs).
    wp_step. wp_step; [eauto with ord|]. wp_step; [eauto with ord|].
    wp_forget (in_order i n [f]) ltac:(eauto with ord).
    wp_step. wp_step; [eauto 6 with ord|]. wp_step.
    wp_forget (in_order i n []) ltac:(eauto with ord).
    wp_step. wp_step; [eauto with ord|]. wp_step.
    apply IH. eauto with ord.
Qed.

Lemma within_outer cw ev s :
  outer ev = true -> within cw s -> within cw (record ev s).
Proof. intros Hev Hs. apply within_record; [exact Hs|]. destruct ev; try discriminate; reflexivity. Qed.

Lemma within_generator cw kw s :
  within cw s -> within cw (record (SubmittedGenerator kw) s).
Proof. intros Hs. apply within_record; [exact Hs | reflexivity]. Qed.

Lemma within_raised cw l e s : within cw s -> within cw (record (Raised l e) s).
Proof. intros Hs. apply within_record; [exact Hs | reflexivity]. Qed.

Lemma run_within fault clock self config :
  2 <= max_workers self ->
  wp (run fault clock self config)
     (fun _ => within (max_workers self - 1))
     (fun _ => within (max_workers self - 1)) initial_state.
Proof.
  intros Hmw. set (cw := max_workers self - 1).
  assert (H0 : within cw initial_state) by (split; [constructor | simpl; lia]).
  eapply wp_mono;
    [apply (run_invariant fault clock self config
              (within cw) (room cw) (within cw) (within cw) (fun _ => within cw))
    | intros r s [Hs _]; exact Hs | auto]; fold cw;
    auto using within_outer, within_raised, within_generator with cap.
  - intros s Hs. apply room_init_locals; [unfold cw; lia | exact Hs].
  - intros s Hs. apply consume_within, Hs.
  - intros s Hs. apply wp_drain, drain_loop_within, Hs.
Qed.

Lemma run_single_worker fault clock self config :
  max_workers self = 1 ->
  run fault clock self config initial_state = (Raises ZeroDivisionError, initial_state).
Proof. intros Hmw. unfold run. rewrite Hmw. reflexivity. Qed.

Lemma in_order_outer i n pend ev s :
  outer ev = true -> in_order i n pend s -> in_order i n pend (record ev s).
Proof.
  intros Hev Hs. apply in_order_record; [exact Hs|].
  destruct ev; try discriminate; reflexivity.
Qed.

Lemma in_order_generator i n pend kw s :
  in_order i n pend s -> in_order i n pend (record (SubmittedGenerator kw) s).
Proof. intros Hs. apply in_order_record; [exact Hs | reflexivity]. Qed.

Lemma in_order_raised i n l e s :
  in_order i n [] s -> ordered (record (Raised l e) s).
Proof. intros Hs. exists i, n. apply in_order_record; [exact Hs | reflexivity]. Qed.

Lemma ordered_outer ev s : outer ev = true -> ordered s -> ordered (record ev s).
Proof.
  intros Hev (i & n & Hs). exists i, n. apply in_order_record; [exact Hs|].
  destruct ev; try discriminate; reflexivity.
Qed.

Lemma ordered_raised l e s : ordered s -> ordered (record (Raised l e) s).
Proof.
  intros (i & n & Hs). exists i, n. apply in_order_record; [exact Hs | reflexivity].
Qed.

Lemma run_ordered fault clock self config :
  wp (run fault clock self config) (fun _ => ordered) (fun _ => ordered) initial_state.
Proof.
  assert (H0 : in_order 0 0 [] initial_state).
  { split; [|split]; simpl; constructor. }
  eapply wp_mono;
    [apply (run_invariant fault clock self config
              (in_order 0 0 []) (in_order 0 0 []) ordered ordered (fun _ => ordered))
    | intros r s [Hs _]; exact Hs | auto];
    eauto using in_order_outer, in_order_generator, in_order_raised, ordered_outer, ordered_raised with ord.
  - intros s Hs. apply consume_ordered, Hs.
  - intros s Hs. apply wp_drain, drain_loop_ordered, Hs.
Qed.

(** C2: in every execution of [run] the compute futures are awaited in the
    order of their submission: the futures are numbered as they are
    submitted, the awaited ones form an increasing sequence, the deque is
    always in submission order, and each pop, in the loop or in the final
    drain, takes a future older than all that stay. *)
Theorem awaited_in_submission_order fault clock self config :
  let tr := trace (snd (run fault clock self config initial_state)) in
  StronglySorted lt (awaited tr) /\
  submitted tr = seq 0 (length (submitted tr)) /\
  Forall pop_oldest tr.
Proof.
  intros tr.
  destruct (wp_snd (run fault clock self config) ordered initial_state
              (run_ordered fault clock self config)) as (i & n & Hsub & Hn & Hpop).
  fold tr in Hsub, Hn, Hpop. split; [|split].
  - eapply StronglySorted_sublist; [|apply (StronglySorted_seq 0 i)].
    etransitivity; [|exact Hsub]. apply sublist_inserts_r. reflexivity.
  - rewrite Hn at 1. rewrite Hn, length_seq. reflexivity.
  - exact Hpop.
Qed.

Lemma yielded_record ev s :
  yielded (trace (record ev s)) =
  yielded (trace s) ++ match ev with Yielded i _ => [i] | _ => [] end.
Proof. unfold yielded. simpl. rewrite flat_map_app. simpl. rewrite app_nil_r. reflexivity. Qed.

Lemma tally_record y n i pend u ev s :
  quiet ev = true -> tally y n i pend u s -> tally y n i pend u (record ev s).
Proof.
  intros Hev (Ha & Hn & Hy & Hc). unfold tally.
  rewrite awaited_record, submitted_record, yielded_record.
  destruct ev; try discriminate; rewrite ?app_nil_r; auto.
Qed.

Lemma tally_yield i item s :
  tally i i i [] 0 s -> tally (S i) i i [] 0 (record (Yielded i item) s).
Proof.
  intros (Ha & Hn & Hy & Hc). unfold tally.
  rewrite awaited_record, submitted_record, yielded_record, ?app_nil_r.
  repeat split; auto. rewrite Hy, seq_S. reflexivity.
Qed.

Lemma tally_submit i item sleep s :
  tally (S i) i i [] 0 s ->
  tally (S i) (S i) i [] 0 (record (SubmittedCompute i item sleep) s).
Proof.
  intros (Ha & Hn & Hy & Hc). unfold tally.
  rewrite awaited_record, submitted_record, yielded_record, ?app_nil_r.
  repeat split; auto. rewrite Hn, seq_S. reflexivity.
Qed.

Lemma tally_push i s :
  tally (S i) (S i) i [] 0 s ->
  tally (S i) (S i) (S i) [] 0
    (record (Appended i)
       (mkState (completed_tasks s) (running_tasks s ++ [i]) (trace s))).
Proof.
  intros (Ha & Hn & Hy & Hc). apply tally_record; [reflexivity|].
  unfold tally. cbn [trace running_tasks completed_tasks app] in *.
  repeat split; auto. rewrite seq_S, app_assoc, Ha. reflexivity.
Qed.

Lemma tally_pop y n i f rest s :
  tally y n i [] 0 s -> running_tasks s = f :: rest ->
  tally y n i [f] 0 (record (Popped f) (mkState (completed_tasks s) rest (trace s))).
Proof.
  intros (Ha & Hn & Hy & Hc) Hd. apply tally_record; [reflexivity|].
  unfold tally. cbn [trace running_tasks completed_tasks app] in *.
  rewrite Hd in Ha. auto.
Qed.

Lemma tally_await y n i f s :
  tally y n i [f] 0 s -> tally y n i [] 1 (record (Awaited f) s).
Proof.
  intros (Ha & Hn & Hy & Hc). unfold tally.
  rewrite awaited_record, submitted_record, yielded_record, ?app_nil_r.
  cbn [trace running_tasks completed_tasks app] in *.
  rewrite <- app_assoc, length_app. simpl. repeat split; auto. lia.
Qed.

Lemma tally_count y n i s :
  tally y n i [] 1 s ->
  tally y n i [] 0
    (record Counted (mkState (completed_tasks s + 1) (running_tasks s) (trace s))).
Proof.
  intros (Ha & Hn & Hy & Hc). apply tally_record; [reflexivity|].
  unfold tally. cbn [trace running_tasks completed_tasks app] in *.
  repeat split; auto. lia.
Qed.

Lemma tally_init_locals s :
  tally 0 0 0 [] 0 s -> tally 0 0 0 [] 0 (mkState 0 [] (trace s)).
Proof.
  intros (Ha & Hn & Hy & Hc). unfold tally.
  cbn [trace running_tasks completed_tasks app seq] in *.
  apply app_eq_nil in Ha as [Ha _]. rewrite Ha in *. auto.
Qed.

Lemma tally_outer y n i pend u ev s :
  outer ev = true -> tally y n i pend u s -> tally y n i pend u (record ev s).
Proof.
  intros Hev. apply tally_record. destruct ev; try discriminate; reflexivity.
Qed.

Create HintDb tally.
#[local] Hint Resolve tally_yield tally_submit tally_push tally_pop tally_await
  tally_count tally_init_locals tally_outer : tally.

Lemma consume_tally fault sleep cw items : forall i s,
  tally i i i [] 0 s ->
  wp (consume fault sleep cw i items)
     (fun _ => tally (i + length items) (i + length items) (i + length items) [] 0)
     (from_world fault) s.
Proof.
  induction items as [|item rest IH]; intros i s Hs; simpl; wp_unfold.
  - wp_step; [eexists; eauto|]. wp_step.
    rewrite Nat.add_0_r. apply tally_record; [reflexivity | exact Hs].
  - replace (i + S (length rest))%nat with (S i + length rest)%nat by lia.
    wp_step. wp_step; [eexists; eauto|]. wp_step.
    wp_forget (tally (S i) i i [] 0) ltac:(auto with tally).
    wp_step. wp_step; [eexists; eauto|].
    wp_step. wp_step; [eexists; eauto|]. wp_step.
    wp_forget (tally (S i) (S i) i [] 0) ltac:(auto with tally).
    wp_step. wp_step; [eexists; eauto|]. wp_step.
    wp_forget (fun s => tally (S i) (S i) (S i) [] 0 s /\ running_tasks s <> [])
      ltac:(split; [auto with tally | simpl; intros Hnil; apply app_eq_nil in Hnil as [_ Hnil]; discriminate]).
    match goal with H : _ /\ _ |- _ => destruct H as [Hs' Hne] end.
    wp_step. wp_step. wp_step.
    destruct (cw <=? _).
    + wp_step. wp_step; [eexists; eauto|]. wp_step; [contradiction|].
      wp_forget (tally (S i) (S i) (S i) [f] 0) ltac:(eauto with tally).
      wp_step. wp_step; [eexists; eauto|]. wp_step.
      wp_forget (tally (S i) (S i) (S i) [] 1) ltac:(auto with tally).
      wp_step; [eexists; eauto|]. wp_step.
      apply IH. auto with tally.
    + wp_step. apply IH. assumption.
Qed.

Lemma drain_loop_tally fault y n i fuel : forall j s,
  (length (running_tasks s) < fuel)%nat ->
  tally y n i [] 0 s ->
  wp (drain_loop fault fuel j)
     (fun _ s' => tally y n i [] 0 s' /\ running_tasks s' = [])
     (from_world fault) s.
Proof.
  induction fuel as [|fuel IH]; intros j s Hfuel Hs; [lia|].
  simpl; wp_unfold. wp_step. wp_step.
  destruct (running_tasks s) as [|f0 rest0] eqn:Hd.
  - simpl. wp_step. auto.
  - replace (0 <? _) with true by (symmetry; apply Z.ltb_lt; simpl length; lia).
    wp_step. wp_step; [eexists; eauto|]. wp_step; [congruence|].
    wp_forget (fun s' => tally y n i [f] 0 s' /\ (length (running_tasks s') < fuel)%nat)
      ltac:(split; [eauto with tally | simpl in *; rewrite Hd in *; simpl in *;
                    match goal with H : _ :: _ = _ :: _ |- _ => injection H as _ <- end; lia]).
    match goal with H : _ /\ _ |- _ => destruct H as [Hs' Hfuel'] end.
    wp_step. wp_step; [eexists; eauto|]. wp_step.
    wp_forget (fun s' => tally y n i [] 1 s' /\ (length (running_tasks s') < fuel)%nat)
      ltac:(split; [auto with tally | exact Hfuel']).
    match goal with H : _ /\ _ |- _ => destruct H as [Hs'' Hfuel''] end.
    wp_step. wp_step; [eexists; eauto|]. wp_step.
    apply IH; [exact Hfuel'' | auto with tally].
Qed.

Lemma float_of_int_raises z e :
  float_of_int z = Raises e -> e = OverflowError.
Proof.
  unfold float_of_int. destruct (PrimFloat.is_infinity _); congruence.
Qed.

Lemma float_div_raises a b e :
  float_div a b = Raises e -> e = ZeroDivisionError.
Proof. unfold float_div. destruct (PrimFloat.eqb _ _); congruence. Qed.

Lemma truediv_float_int_raises a b e :
  truediv_float_int a b = Raises e -> e = ZeroDivisionError \/ e = OverflowError.
Proof.
  unfold truediv_float_int. destruct (b =? 0); [left; congruence|].
  destruct (float_of_int b) as [fb|e'] eqn:Hfb; simpl; [discriminate|].
  intros [= <-]. right. eapply float_of_int_raises, Hfb.
Qed.

Lemma truediv_int_float_raises a b e :
  truediv_int_float a b = Raises e -> e = ZeroDivisionError \/ e = OverflowError.
Proof.
  unfold truediv_int_float.
  destruct (float_of_int a) as [fa|e'] eqn:Hfa; simpl.
  - intros H. left. eapply float_div_raises, H.
  - intros [= <-]. right. eapply float_of_int_raises, Hfa.
Qed.

Lemma pregenerate_raises size interval example_size example_time e :
  pregenerate size interval example_size example_time = Raises e ->
  e = ZeroDivisionError \/ e = OverflowError.
Proof.
  unfold pregenerate.
  destruct (truediv_int_float example_size example_time) as [rate|e1] eqn:H1; simpl.
  - destruct (truediv_int_float size rate) as [t|e2] eqn:H2; simpl; [discriminate|].
    intros [= <-]. eapply truediv_int_float_raises, H2.
  - intros [= <-]. eapply truediv_int_float_raises, H1.
Qed.

Lemma explained_not_interrupt fault self config s :
  (forall l, fault l <> Some KeyboardInterrupt) ->
  ~ explained fault self config KeyboardInterrupt s.
Proof.
  intros Hcalm [[l Hl] | [H | [(interval & _ & H) | [_ H]]]].
  - exact (Hcalm l Hl).
  - apply truediv_float_int_raises in H as [H|H]; discriminate.
  - apply pregenerate_raises in H as [H|H]; discriminate.
  - discriminate.
Qed.

Lemma run_tally fault clock self config :
  (forall l, fault l <> Some KeyboardInterrupt) ->
  let n := length (consumer self) in
  wp (run fault clock self config)
     (fun r s =>
        (tally n n n [] 0 s /\ running_tasks s = []) /\
        exists stream_kind,
          kind (stream_config self) = Some stream_kind /\
          r = result_of clock self config stream_kind s)
     (explained fault self config) initial_state.
Proof.
  intros Hcalm n.
  assert (H0 : tally 0 0 0 [] 0 initial_state) by (repeat split).
  apply (run_invariant fault clock self config
           (tally 0 0 0 [] 0) (tally 0 0 0 [] 0) (tally n n n [] 0)
           (fun s => tally n n n [] 0 s /\ running_tasks s = []));
    auto with tally.
  - intros e H. right. left. exact H.
  - intros interval e H1 H2. right. right. left. eauto.
  - intros interval pregen s _ _ Hs. apply tally_record; [reflexivity | exact Hs].
  - intros l e s _ Hl _. left. eauto.
  - intros l e s _ Hl _. left. eauto.
  - intros s Hs. eapply wp_mono; [apply (consume_tally _ _ _ _ 0%nat), Hs | auto |].
    intros e s' [l Hl]. left. eauto.
  - intros l e s _ Hl _. left. eauto.
  - intros s Hs. exfalso. eapply explained_not_interrupt; eauto.
  - intros _ l e s _ Hl _. left. eauto.
  - intros s Hs. apply wp_drain.
    eapply wp_mono; [apply drain_loop_tally; [lia | exact Hs] | auto |].
    intros e s' [l Hl]. left. eauto.
  - intros ev s Hev [Hs Hd]. split; [auto with tally | exact Hd].
  - intros l e s _ Hl _. left. eauto.
  - intros s Hkind _. right. right. right. auto.
Qed.

Lemma wp_returns {A : Type} (m : M A) Q E s0 a s :
  wp m Q E s0 -> m s0 = (Returns a, s) -> Q a s.
Proof. unfold wp. intros H Hrun. rewrite Hrun in H. exact H. Qed.

Lemma wp_raises {A : Type} (m : M A) Q E s0 e s :
  wp m Q E s0 -> m s0 = (Raises e, s) -> E e s.
Proof. unfold wp. intros H Hrun. rewrite Hrun in H. exact H. Qed.

(** C4: on a run that returns without any KeyboardInterrupt, every item of
    the stream was consumed, a compute task was submitted for each, each
    future was awaited exactly once, and [completed_tasks] in the result is
    the number of items. *)
Theorem every_future_awaited_once fault clock self config r s :
  (forall l, fault l <> Some KeyboardInterrupt) ->
  run fault clock self config initial_state = (Returns r, s) ->
  yielded (trace s) = seq 0 (length (consumer self)) /\
  submitted (trace s) = seq 0 (length (consumer self)) /\
  awaited (trace s) = seq 0 (length (consumer self)) /\
  res_completed_tasks r = Z.of_nat (length (consumer self)).
Proof.
  intros Hcalm Hrun.
  destruct (wp_returns _ _ _ _ _ _ (run_tally fault clock self config Hcalm) Hrun)
    as ([(Ha & Hn & Hy & Hc) Hd] & stream_kind & _ & ->).
  rewrite Hd in Ha. simpl in Ha. rewrite app_nil_r in Ha.
  repeat split; auto.
  simpl. rewrite Ha, length_seq in Hc. lia.
Qed.

Lemma every_future_awaited_once_witness :
  exists r s,
    run quiet_world demo_clock demo_benchmark demo_config initial_state =
      (Returns r, s) /\
    yielded (trace s) = seq 0 4 /\
    submitted (trace s) = seq 0 4 /\
    awaited (trace s) = seq 0 4 /\
    res_completed_tasks r = 4.
Proof.
  eexists _, _. split; [vm_compute; reflexivity|].
  apply (every_future_awaited_once quiet_world demo_clock demo_benchmark demo_config).
  - discriminate.
  - vm_compute. reflexivity.
Defined.

(** With a quiet world, sound arithmetic and a stream kind, [run] returns. *)
Lemma run_returns fault clock self config interval pregen stream_kind :
  (forall l, fault l = None) ->
  truediv_float_int (task_sleep config) (max_workers self - 1) = Returns interval ->
  pregenerate (data_size_bytes config) interval
    example_size_default example_time_default = Returns pregen ->
  kind (stream_config self) = Some stream_kind ->
  exists s, run fault clock self config initial_state =
            (Returns (result_of clock self config stream_kind s), s).
Proof.
  intros Hquiet Hdiv Hpre Hkind.
  assert (Hcalm : forall l, fault l <> Some KeyboardInterrupt).
  { intros l. rewrite Hquiet. discriminate. }
  pose proof (run_tally fault clock self config Hcalm) as Hwp. cbv zeta in Hwp.
  destruct (run fault clock self config initial_state) as [[r|e] s] eqn:Hrun.
  - apply (wp_returns _ _ _ _ _ _ Hwp) in Hrun as Hq.
    destruct Hq as (_ & k & Hk & ->). exists s. congruence.
  - apply (wp_raises _ _ _ _ _ _ Hwp) in Hrun as [[l Hl] | [H | [(iv & H1 & H2) | [H _]]]].
    + rewrite Hquiet in Hl. discriminate.
    + congruence.
    + congruence.
    + congruence.
Qed.

Lemma wp_trivial {A : Type} (m : M A) s :
  wp m (fun _ _ => True) (fun _ _ => True) s.
Proof. unfold wp. destruct (m s) as [[a|e] s']; exact I. Qed.

Lemma run_result fault clock self config :
  wp (run fault clock self config)
     (fun r s => exists stream_kind,
        kind (stream_config self) = Some stream_kind /\
        r = result_of clock self config stream_kind s)
     (fun _ _ => True) initial_state.
Proof.
  eapply wp_mono;
    [apply (run_invariant fault clock self config
              (fun _ => True) (fun _ => True) (fun _ => True) (fun _ => True)
              (fun _ _ => True)); auto using wp_trivial
    | intros r s [_ H]; exact H | auto].
Qed.

(** C10: whatever happened during the run, the result [run] returns carries
    the data size, task count and task sleep of its configuration and the
    worker count of the executor the benchmark was built on. *)
Theorem run_result_echoes_inputs fault clock items pool backing stream self config r s :
  init items pool backing stream = Returns self ->
  run fault clock self config initial_state = (Returns r, s) ->
  res_data_size_bytes r = data_size_bytes config /\
  res_task_count r = task_count config /\
  res_task_sleep r = task_sleep config /\
  executor_max_workers pool = Some (res_workers r).
Proof.
  intros Hinit Hrun.
  destruct (wp_returns _ _ _ _ _ _ (run_result fault clock self config) Hrun)
    as (stream_kind & _ & ->).
  unfold init in Hinit.
  destruct (executor_max_workers pool) as [n|]; [|discriminate].
  injection Hinit as <-. repeat split.
Qed.

Lemma run_result_echoes_inputs_witness :
  exists r s,
    run interrupting_world demo_clock demo_benchmark demo_config initial_state =
      (Returns r, s) /\
    res_completed_tasks r = 2 /\
    res_data_size_bytes r = 1000 /\
    res_task_count r = 4 /\
    res_task_sleep r = 1%float /\
    executor_max_workers (mkExecutor "ThreadPoolExecutor" (Some 3)) =
      Some (res_workers r).
Proof.
  eexists _, _. split; [vm_compute; reflexivity|]. split; [reflexivity|].
  eapply (run_result_echoes_inputs interrupting_world demo_clock _ _ _ _
            demo_benchmark demo_config);
    [exact demo_benchmark_init | vm_compute; reflexivity].
Defined.

Lemma calm_record ev s :
  is_interrupt ev = false -> calm s -> calm (record ev s).
Proof.
  intros Hev Hs. unfold calm. simpl. apply Forall_app. split; [exact Hs|].
  constructor; [exact Hev | constructor].
Qed.

Lemma calm_locals c d s : calm s -> calm (mkState c d (trace s)).
Proof. intros Hs. exact Hs. Qed.

Lemma raised_in_loop i st e s :
  calm s -> loop_exit e (record (Raised (InLoop i st) e) s).
Proof.
  intros Hs. unfold loop_exit. destruct e; try (apply calm_record; [reflexivity | exact Hs]).
  eexists (trace s), _. repeat split. exact Hs.
Qed.

Create HintDb calm.
#[local] Hint Resolve calm_locals raised_in_loop : calm.
#[local] Hint Extern 1 (calm (record _ _)) => apply calm_record; [reflexivity|] : calm.

Lemma consume_calm fault sleep cw items : forall i s,
  calm s ->
  wp (consume fault sleep cw i items)
     (fun _ => calm) loop_exit s.
Proof.
  induction items as [|item rest IH]; intros i s Hs; simpl; wp_unfold.
  - wp_step; [auto with calm|]. wp_step. auto with calm.
  - wp_step. wp_step; [auto with calm|]. wp_step.
    wp_forget calm ltac:(auto with calm).
    wp_step. wp_step; [auto with calm|].
    wp_step. wp_step; [auto with calm|]. wp_step.
    wp_forget calm ltac:(auto with calm).
    wp_step. wp_step; [auto with calm|]. wp_step.
    wp_forget calm ltac:(auto with calm).
    wp_step. wp_step. wp_step.
    destruct (cw <=? _).
    + wp_step. wp_step; [auto with calm|]. wp_step; [auto with calm|].
      wp_forget calm ltac:(auto with calm).
      wp_step. wp_step; [auto with calm|]. wp_step.
      wp_forget calm ltac:(auto with calm).
      wp_step; [auto with calm|]. wp_step.
      apply IH. auto with calm.
    + wp_step. apply IH. assumption.
Qed.

Lemma drain_loop_calm fault fuel : forall j s,
  calm s -> wp (drain_loop fault fuel j) (fun _ => calm) (fun _ => calm) s.
Proof.
  induction fuel as [|fuel IH]; intros j s Hs; simpl; wp_unfold.
  - wp_step. wp_step. destruct (0 <? _); [apply wp_lift | wp_step]; exact Hs.
  - wp_step. wp_step. destruct (0 <? _); [|wp_step; exact Hs].
    wp_step. wp_step; [auto with calm|]. wp_step; [auto with calm|].
    wp_forget calm ltac:(auto with calm).
    wp_step. wp_step; [auto with calm|]. wp_step.
    wp_forget calm ltac:(auto with calm).
    wp_step. wp_step; [auto with calm|]. wp_step.
    apply IH. auto with calm.
Qed.

Lemma settling_record pre en pend u ev s :
  silent ev = true -> settling pre en pend u s ->
  settling pre en pend u (record ev s).
Proof.
  intros Hev (post & Htr & Hcalm & Hstop & Hjoin & Ha & Hc).
  exists (post ++ [mkEntry ev (running_tasks s) (completed_tasks s)]).
  simpl. rewrite Htr, map_app, !in_app_iff.
  unfold awaited in *. rewrite flat_map_app, length_app. simpl.
  repeat split; auto.
  - rewrite <- app_assoc. reflexivity.
  - apply Forall_app. split; [exact Hcalm|]. constructor; [|constructor].
    destruct ev; try discriminate; reflexivity.
  - destruct ev; try discriminate; simpl; rewrite ?app_nil_r; exact Ha.
  - destruct ev; try discriminate; simpl; lia.
Qed.

Lemma settling_pop pre en f rest s :
  settling pre en [] 0 s -> running_tasks s = f :: rest ->
  settling pre en [f] 0
    (record (Popped f) (mkState (completed_tasks s) rest (trace s))).
Proof.
  intros (post & Htr & Hcalm & Hstop & Hjoin & Ha & Hc) Hd.
  apply settling_record; [reflexivity|].
  exists post. cbn [trace running_tasks completed_tasks app] in *.
  rewrite Hd in Ha. repeat split; auto.
Qed.

Lemma settling_await pre en f s :
  settling pre en [f] 0 s -> settling pre en [] 1 (record (Awaited f) s).
Proof.
  intros (post & Htr & Hcalm & Hstop & Hjoin & Ha & Hc).
  exists (post ++ [mkEntry (Awaited f) (running_tasks s) (completed_tasks s)]).
  simpl. rewrite Htr, map_app, !in_app_iff.
  unfold awaited in *. rewrite flat_map_app, length_app. simpl.
  repeat split; auto.
  - rewrite <- app_assoc. reflexivity.
  - apply Forall_app. split; [exact Hcalm|]. constructor; [reflexivity|constructor].
  - rewrite <- app_assoc. exact Ha.
  - lia.
Qed.

Lemma settling_count pre en s :
  settling pre en [] 1 s ->
  settling pre en [] 0
    (record Counted (mkState (completed_tasks s + 1) (running_tasks s) (trace s))).
Proof.
  intros (post & Htr & Hcalm & Hstop & Hjoin & Ha & Hc).
  apply settling_record; [reflexivity|].
  exists post. cbn [trace running_tasks completed_tasks app] in *.
  repeat split; auto. lia.
Qed.

(** The handler and the [finally] clause, run from the interrupt. *)
Lemma settling_start s :
  interrupted_now s ->
  exists pre en,
    Forall (fun en => is_interrupt (what en) = false) pre /\
    is_interrupt (what en) = true /\
    settling pre en [] 0
      (record AwaitedGenerator (record (StopSet true) (record Warned s))).
Proof.
  intros (pre & en & Htr & Hpre & Hen & Hd & Hc).
  exists pre, en. split; [exact Hpre|]. split; [exact Hen|].
  eexists. simpl. rewrite Htr, <- !app_assoc. simpl.
  split; [reflexivity|]. simpl.
  repeat split; auto; try lia.
Qed.

Create HintDb settle.
#[local] Hint Resolve settling_pop settling_await settling_count : settle.
#[local] Hint Extern 1 (settling _ _ _ _ (record _ _)) =>
  apply settling_record; [reflexivity|] : settle.

Section Quiet.

Variable fault : location -> option exn.
Hypothesis quiet_outside : forall l, in_loop l = false -> fault l = None.

Lemma wp_stmt_quiet {A : Type} l (effect : M A) Q E s :
  in_loop l = false -> wp effect Q E s -> wp (stmt fault l effect) Q E s.
Proof using quiet_outside.
  intros Hl H. apply wp_stmt; [|intros _; exact H].
  intros e He. rewrite quiet_outside in He by exact Hl. discriminate.
Qed.

Lemma drain_loop_settling pre en fuel : forall j s,
  (length (running_tasks s) < fuel)%nat ->
  settling pre en [] 0 s ->
  wp (drain_loop fault fuel j)
     (fun _ s' => settling pre en [] 0 s' /\ running_tasks s' = [])
     (fun _ _ => False) s.
Proof using quiet_outside.
  induction fuel as [|fuel IH]; intros j s Hfuel Hs; [lia|].
  simpl; wp_unfold. wp_step. wp_step.
  destruct (running_tasks s) as [|f0 rest0] eqn:Hd.
  - simpl. wp_step. auto.
  - replace (0 <? _) with true by (symmetry; apply Z.ltb_lt; simpl length; lia).
    wp_step. apply wp_stmt_quiet; [reflexivity|]. wp_step; [congruence|].
    wp_forget (fun s' => settling pre en [f] 0 s' /\ (length (running_tasks s') < fuel)%nat)
      ltac:(split; [eauto with settle | simpl in *; rewrite Hd in *; simpl in *;
                    match goal with H : _ :: _ = _ :: _ |- _ => injection H as _ <- end; lia]).
    match goal with H : _ /\ _ |- _ => destruct H as [Hs' Hfuel'] end.
    wp_step. apply wp_stmt_quiet; [reflexivity|]. wp_step.
    wp_forget (fun s' => settling pre en [] 1 s' /\ (length (running_tasks s') < fuel)%nat)
      ltac:(split; [auto with settle | exact Hfuel']).
    match goal with H : _ /\ _ |- _ => destruct H as [Hs'' Hfuel''] end.
    wp_step. apply wp_stmt_quiet; [reflexivity|]. wp_step.
    apply IH; [exact Hfuel'' | auto with settle].
Qed.

End Quiet.

Section Interrupt.

Variable fault : location -> option exn.
Variable clock : location -> float.
Variable self : Benchmark.
Variable config : RunConfig.
Hypothesis quiet_outside : forall l, in_loop l = false -> fault l = None.
Hypothesis has_kind : kind (stream_config self) <> None.

Let finish : M RunResult :=
  bind (generator_result fault AtGeneratorResult) (fun _ =>
  bind (drain fault) (fun _ =>
  bind (time_time fault clock AtEndTime) (fun end_ =>
  bind (assert_not_none (kind (stream_config self))) (fun stream_kind =>
  bind get_completed (fun completed =>
  ret (mkRunResult (executor_class (executor self))
         (connector_class (store self)) stream_kind
         (data_size_bytes config) (task_count config) (task_sleep config)
         (max_workers self) completed (clock AtStartTime) end_)))))).

Lemma finish_calm s :
  calm s ->
  wp finish (fun _ => calm) (fun _ => calm) s.
Proof using All.
  intros Hs. unfold finish. wp_unfold.
  wp_step. wp_step; [auto with calm|]. wp_step.
  wp_forget calm ltac:(auto with calm).
  wp_step. apply wp_drain.
  eapply wp_mono; [apply drain_loop_calm; assumption | | auto].
  intros [] s2 Hs2. cbv beta.
  wp_step. wp_step; [auto with calm|]. wp_step.
  wp_forget calm ltac:(auto with calm).
  wp_step. apply wp_assert_not_none.
  destruct (kind (stream_config self)); [|assumption].
  wp_step. unfold get_completed, wp, ret. assumption.
Qed.

Lemma finish_settling pre en s :
  Forall (fun en => is_interrupt (what en) = false) pre ->
  is_interrupt (what en) = true ->
  settling pre en [] 0 s ->
  wp finish (fun r s' => stopped_and_drained clock self config r s')
     (fun _ _ => False) s.
Proof using All.
  intros Hpre Hen Hs. unfold finish. wp_unfold.
  wp_step. apply wp_stmt_quiet; [assumption|reflexivity|]. wp_step.
  wp_forget (settling pre en [] 0) ltac:(auto with settle).
  wp_step. apply wp_drain.
  eapply wp_mono;
    [apply (drain_loop_settling fault quiet_outside pre en); [lia | assumption] | | auto].
  intros [] s2 [Hs2 Hd]. cbv beta.
  wp_step. apply wp_stmt_quiet; [assumption|reflexivity|]. wp_step.
  wp_forget (fun s' => settling pre en [] 0 s' /\ running_tasks s' = [])
    ltac:(split; [auto with settle | exact Hd]).
  wp_step. apply wp_assert_not_none.
  destruct (kind (stream_config self)) as [stream_kind|]; [|contradiction].
  wp_step. unfold get_completed, wp, ret.
  match goal with H : _ /\ _ |- _ => destruct H as [(post & Htr & Hcalm & Hstop & Hjoin & Ha & Hc) Hd'] end.
  rewrite Hd' in Ha. simpl in Ha. rewrite app_nil_r in Ha.
  exists pre, en, post. simpl. rewrite Ha in Hc.
  repeat split; auto. lia.
Qed.

Lemma run_interrupted :
  wp (run fault clock self config)
     (fun r s => calm s \/ stopped_and_drained clock self config r s)
     (fun _ => calm) initial_state.
Proof using All.
  assert (H0 : calm initial_state) by constructor.
  unfold run.
  wp_step. apply wp_lift.
  destruct (truediv_float_int _ _) as [interval|e]; [|exact H0].
  wp_step. apply wp_lift.
  destruct (pregenerate _ _ _ _) as [pregen|e]; [|exact H0].
  wp_unfold.
  wp_step. wp_step; [auto with calm|]. wp_step.
  wp_forget calm ltac:(auto with calm).
  wp_step. wp_step; [auto with calm|]. wp_step.
  wp_forget calm ltac:(auto with calm).
  wp_step. apply wp_init_locals.
  wp_forget calm ltac:(auto with calm).
  wp_step. wp_step; [auto with calm|]. wp_step.
  wp_forget calm ltac:(auto with calm).
  change (wp (bind (try_except_finally
                      (consume fault (task_sleep config) (max_workers self - 1) 0 (consumer self))
                      (bind (logger_warning fault) (fun _ => set_result fault true))
                      (generator_result fault AtFinallyResult))
                   (fun _ => finish))
             (fun r s => calm s \/ stopped_and_drained clock self config r s)
             (fun _ => calm) s2).
  wp_step. apply wp_try.
  eapply wp_mono; [apply consume_calm; assumption | |].
  - intros [] s3 Hs3. cbv beta. wp_unfold.
    wp_step; [auto with calm|]. wp_step.
    eapply wp_mono; [apply finish_calm; auto with calm | auto | auto].
  - intros e s3 Hs3. unfold loop_exit in Hs3.
    assert (Hother : calm s3 ->
              wp (generator_result fault AtFinallyResult)
                 (fun _ s4 => calm s4) (fun _ => calm) s3).
    { intros Hcalm3. wp_unfold. wp_step; [auto with calm|]. wp_step. auto with calm. }
    destruct e; try (apply Hother, Hs3).
    wp_unfold. wp_step. apply wp_stmt_quiet; [assumption|reflexivity|]. wp_step.
    apply wp_stmt_quiet; [assumption|reflexivity|]. wp_step.
    apply wp_stmt_quiet; [assumption|reflexivity|]. wp_step.
    destruct (settling_start _ Hs3) as (pre & en & Hpre & Hen & Hsettling).
    eapply wp_mono; [apply (finish_settling pre en); eassumption | auto | contradiction].
Qed.

End Interrupt.

Section Events.

Variable P : event -> Prop.
Hypothesis P_other : forall ev,
  match ev with SubmittedGenerator _ => False | _ => True end -> P ev.

Lemma all_events_record ev s :
  match ev with SubmittedGenerator _ => False | _ => True end ->
  all_events P s -> all_events P (record ev s).
Proof using P_other.
  intros Hev Hs. unfold all_events. simpl. apply Forall_app. split; [exact Hs|].
  constructor; [apply P_other, Hev | constructor].
Qed.

Lemma all_events_locals c d s : all_events P s -> all_events P (mkState c d (trace s)).
Proof using Type. intros Hs. exact Hs. Qed.

#[local] Hint Resolve all_events_locals : core.
#[local] Hint Extern 1 (all_events _ (record _ _)) => apply all_events_record; [exact I|] : core.

Lemma consume_events fault sleep cw items : forall i s,
  all_events P s ->
  wp (consume fault sleep cw i items) (fun _ => all_events P) (fun _ => all_events P) s.
Proof using P_other.
  induction items as [|item rest IH]; intros i s Hs; simpl; wp_unfold.
  - wp_step; [auto|]. wp_step. auto.
  - wp_step. wp_step; [auto|]. wp_step.
    wp_forget (all_events P) ltac:(auto).
    wp_step. wp_step; [auto|].
    wp_step. wp_step; [auto|]. wp_step.
    wp_forget (all_events P) ltac:(auto).
    wp_step. wp_step; [auto|]. wp_step.
    wp_forget (all_events P) ltac:(auto).
    wp_step. wp_step. wp_step.
    destruct (cw <=? _).
    + wp_step. wp_step; [auto|]. wp_step; [auto|].
      wp_forget (all_events P) ltac:(auto).
      wp_step. wp_step; [auto|]. wp_step.
      wp_forget (all_events P) ltac:(auto).
      wp_step; [auto|]. wp_step.
      apply IH. auto.
    + wp_step. apply IH. assumption.
Qed.

Lemma drain_loop_events fault fuel : forall j s,
  all_events P s ->
  wp (drain_loop fault fuel j) (fun _ => all_events P) (fun _ => all_events P) s.
Proof using P_other.
  induction fuel as [|fuel IH]; intros j s Hs; simpl; wp_unfold.
  - wp_step. wp_step. destruct (0 <? _); [apply wp_lift | wp_step]; exact Hs.
  - wp_step. wp_step. destruct (0 <? _); [|wp_step; exact Hs].
    wp_step. wp_step; [auto|]. wp_step; [auto|].
    wp_forget (all_events P) ltac:(auto).
    wp_step. wp_step; [auto|]. wp_step.
    wp_forget (all_events P) ltac:(auto).
    wp_step. wp_step; [auto|]. wp_step.
    apply IH. auto.
Qed.

End Events.

Lemma run_generator_request fault clock self config :
  wp (run fault clock self config)
     (fun _ => all_events (generator_request self config))
     (fun _ => all_events (generator_request self config)) initial_state.
Proof.
  assert (Hother : forall ev,
            match ev with SubmittedGenerator _ => False | _ => True end ->
            generator_request self config ev).
  { intros ev Hev. destruct ev; try exact I. contradiction. }
  assert (Houter : forall ev s, outer ev = true ->
            all_events (generator_request self config) s ->
            all_events (generator_request self config) (record ev s)).
  { intros ev s Hev. apply all_events_record; [exact Hother|].
    destruct ev; try discriminate; exact I. }
  assert (Hraise : forall l e s,
            all_events (generator_request self config) s ->
            all_events (generator_request self config) (record (Raised l e) s)).
  { intros l e s. apply all_events_record; [exact Hother | exact I]. }
  set (Q := all_events (generator_request self config)) in *.
  eapply wp_mono;
    [apply (run_invariant fault clock self config Q Q Q Q (fun _ => Q))
    | intros r s [Hs _]; exact Hs | auto]; auto.
  - constructor.
  - constructor.
  - constructor.
  - intros interval pregen s Hdiv Hpre Hs. unfold Q, all_events. simpl.
    apply Forall_app. split; [exact Hs|]. constructor; [|constructor].
    simpl. eauto.
  - intros s Hs. apply consume_events; assumption.
  - intros s Hs. apply wp_drain, drain_loop_events; assumption.
Qed.

Lemma default_example_rate :
  truediv_int_float example_size_default example_time_default =
  Returns 400000000%float.
Proof. vm_compute. reflexivity. Qed.

Lemma pregenerate_default_raises size interval e :
  pregenerate size interval example_size_default example_time_default = Raises e ->
  e = OverflowError.
Proof.
  unfold pregenerate. rewrite default_example_rate. simpl.
  unfold truediv_int_float.
  destruct (float_of_int size) as [fs|e'] eqn:Hfs; simpl.
  - unfold float_div.
    replace (PrimFloat.eqb 400000000 0) with false by (vm_compute; reflexivity).
    discriminate.
  - intros [= <-]. eapply float_of_int_raises, Hfs.
Qed.

Lemma truediv_float_int_nonzero a b :
  b <> 0 -> truediv_float_int a b <> Raises ZeroDivisionError.
Proof.
  intros Hb. unfold truediv_float_int.
  destruct (Z.eqb_spec b 0) as [|_]; [contradiction|].
  destruct (float_of_int b) as [fb|e] eqn:Hfb; simpl; [discriminate|].
  apply float_of_int_raises in Hfb as ->. discriminate.
Qed.

Lemma consume_world fault sleep cw items : forall i s,
  wp (consume fault sleep cw i items) (fun _ _ => True) (from_world fault) s.
Proof.
  induction items as [|item rest IH]; intros i s; simpl; wp_unfold.
  - wp_step; [eexists; eauto|]. wp_step. exact I.
  - wp_step. wp_step; [eexists; eauto|]. wp_step.
    wp_step. wp_step; [eexists; eauto|].
    wp_step. wp_step; [eexists; eauto|]. wp_step.
    wp_step. wp_step; [eexists; eauto|]. wp_step.
    wp_forget (fun s => running_tasks s <> [])
      ltac:(simpl; intros Hnil; apply app_eq_nil in Hnil as [_ Hnil]; discriminate).
    wp_step. wp_step. wp_step.
    destruct (cw <=? _).
    + wp_step. wp_step; [eexists; eauto|]. wp_step; [contradiction|].
      wp_step. wp_step; [eexists; eauto|]. wp_step.
      wp_step; [eexists; eauto|]. wp_step.
      apply IH.
    + wp_step. apply IH.
Qed.

Lemma drain_loop_world fault fuel : forall j s,
  (length (running_tasks s) < fuel)%nat ->
  wp (drain_loop fault fuel j) (fun _ _ => True) (from_world fault) s.
Proof.
  induction fuel as [|fuel IH]; intros j s Hfuel; [lia|].
  simpl; wp_unfold. wp_step. wp_step.
  destruct (running_tasks s) as [|f0 rest0] eqn:Hd.
  - simpl. wp_step. exact I.
  - replace (0 <? _) with true by (symmetry; apply Z.ltb_lt; simpl length; lia).
    wp_step. wp_step; [eexists; eauto|]. wp_step; [congruence|].
    wp_forget (fun s' => (length (running_tasks s') < fuel)%nat)
      ltac:(simpl in *; rewrite Hd in *; simpl in *;
            match goal with H : _ :: _ = _ :: _ |- _ => injection H as _ <- end; lia).
    wp_step. wp_step; [eexists; eauto|]. wp_step.
    wp_step. wp_step; [eexists; eauto|]. wp_step.
    apply IH. simpl. assumption.
Qed.

(** Whatever the world does, an exception of [run] has a cause outside the
    loop's own bookkeeping. *)
Lemma run_explained fault clock self config :
  wp (run fault clock self config) (fun _ _ => True)
     (explained fault self config) initial_state.
Proof.
  eapply wp_mono;
    [apply (run_invariant fault clock self config
              (fun _ => True) (fun _ => True) (fun _ => True) (fun _ => True)
              (explained fault self config))
    | auto | auto]; auto.
  - intros e H. right. left. exact H.
  - intros interval e H1 H2. right. right. left. eauto.
  - intros l e s _ Hl _. left. eauto.
  - intros l e s _ Hl _. left. eauto.
  - intros s _. eapply wp_mono; [apply consume_world | auto |].
    intros e s' [l Hl]. left. eauto.
  - intros l e s _ Hl _. left. eauto.
  - intros _ l e s _ Hl _. left. eauto.
  - intros s _. apply wp_drain.
    eapply wp_mono; [apply drain_loop_world; lia | auto |].
    intros e s' [l Hl]. left. eauto.
  - intros l e s _ Hl _. left. eauto.
  - intros s Hkind _. right. right. right. auto.
Qed.

(** C9: with two workers or more [run] never ends in a ZeroDivisionError of
    its own; with exactly one worker it fails with ZeroDivisionError before
    anything is done; and [Benchmark] cannot be built on an executor whose
    [max_workers] is [None]: the constructor raises ValueError. *)
Theorem run_needs_two_workers :
  (forall fault clock self config s,
     2 <= max_workers self ->
     (forall l, fault l <> Some ZeroDivisionError) ->
     run fault clock self config initial_state <> (Raises ZeroDivisionError, s)) /\
  (forall fault clock self config,
     max_workers self = 1 ->
     run fault clock self config initial_state =
       (Raises ZeroDivisionError, initial_state)) /\
  (forall consumer executor store stream_config,
     executor_max_workers executor = None ->
     exists msg,
       init consumer executor store stream_config = Raises (ValueError msg)).
Proof.
  split; [|split].
  - intros fault clock self config s Hmw Hworld Hrun.
    apply (wp_raises _ _ _ _ _ _ (run_explained fault clock self config)) in Hrun
      as [[l Hl] | [H | [(interval & _ & H) | [_ H]]]].
    + exact (Hworld l Hl).
    + revert H. apply truediv_float_int_nonzero. lia.
    + apply pregenerate_default_raises in H. discriminate.
    + discriminate.
  - intros fault clock self config Hmw. unfold run. rewrite Hmw. reflexivity.
  - intros consumer executor store stream_config Hnone.
    unfold init. rewrite Hnone. eauto.
Qed.

(** C3: when nothing fails outside the loop and a KeyboardInterrupt is
    raised inside it, [run] still returns a result: after the interrupt
    [stop_generator] is set to [True], the generator task is awaited, every
    future the deque held at the interrupt is awaited, and
    [completed_tasks] grows by one for each of them. *)
Theorem interrupt_stops_generator_and_drains fault clock self config :
  (forall l, in_loop l = false -> fault l = None) ->
  kind (stream_config self) <> None ->
  Exists (fun en => is_interrupt (what en) = true)
         (trace (snd (run fault clock self config initial_state))) ->
  exists r,
    fst (run fault clock self config initial_state) = Returns r /\
    stopped_and_drained clock self config r
      (snd (run fault clock self config initial_state)).
Proof.
  intros Hquiet Hkind Hint.
  pose proof (run_interrupted fault clock self config Hquiet Hkind) as Hwp.
  unfold wp in Hwp.
  destruct (run fault clock self config initial_state) as [[r|e] s]; simpl in *.
  - destruct Hwp as [Hcalm | Hdone]; [|eauto].
    exfalso. apply Exists_exists in Hint as (en & Hen & Hi).
    unfold calm in Hcalm. rewrite Forall_forall in Hcalm.
    rewrite (Hcalm en Hen) in Hi. discriminate.
  - exfalso. apply Exists_exists in Hint as (en & Hen & Hi).
    unfold calm in Hwp. rewrite Forall_forall in Hwp.
    rewrite (Hwp en Hen) in Hi. discriminate.
Qed.

Lemma interrupt_stops_generator_and_drains_witness :
  exists r,
    fst (run interrupting_world demo_clock demo_benchmark demo_config
           initial_state) = Returns r /\
    stopped_and_drained demo_clock demo_benchmark demo_config r
      (snd (run interrupting_world demo_clock demo_benchmark demo_config
              initial_state)).
Proof.
  apply (interrupt_stops_generator_and_drains
           interrupting_world demo_clock demo_benchmark demo_config).
  - intros l Hl. destruct l; try reflexivity. discriminate.
  - discriminate.
  - vm_compute. repeat first [apply Exists_cons_hd; reflexivity | apply Exists_cons_tl].
Defined.

Lemma raised_record ev s :
  raised (trace (record ev s)) =
  raised (trace s) ++ match ev with Raised l e => [(l, e)] | _ => [] end.
Proof. unfold raised. simpl. rewrite flat_map_app. simpl. rewrite app_nil_r. reflexivity. Qed.

Lemma skeleton_record ev s :
  skeleton (trace (record ev s)) =
  skeleton (trace s) ++ if outer ev then [ev] else [].
Proof. unfold skeleton. simpl. rewrite flat_map_app. simpl. rewrite app_nil_r. reflexivity. Qed.

(** *** A second proof outline: the loop is left under a condition of its own *)

Section RunExit.

Variable fault : location -> option exn.
Variable clock : location -> float.
Variable self : Benchmark.
Variable config : RunConfig.

(** As in [RunInvariant], with [JL e] for the state in which [e] leaves the
    loop; only a KeyboardInterrupt is caught there. *)
Variables Pre L I F : state -> Prop.
Variables JL J : exn -> state -> Prop.

Let cw : Z := max_workers self - 1.

Hypothesis Pre_initial : Pre initial_state.
Hypothesis J_interval : forall e,
  truediv_float_int (task_sleep config) cw = Raises e -> J e initial_state.
Hypothesis J_pregenerate : forall interval e,
  truediv_float_int (task_sleep config) cw = Returns interval ->
  pregenerate (data_size_bytes config) interval
    example_size_default example_time_default = Raises e ->
  J e initial_state.
Hypothesis Pre_outer : forall ev s, outer ev = true -> Pre s -> Pre (record ev s).
Hypothesis Pre_generator : forall kw s, Pre s -> Pre (record (SubmittedGenerator kw) s).
Hypothesis Pre_raise : forall l e s,
  in_loop l = false -> fault l = Some e -> Pre s -> J e (record (Raised l e) s).
Hypothesis L_locals : forall s, Pre s -> L (mkState 0 [] (trace s)).
Hypothesis L_outer : forall ev s, outer ev = true -> L s -> L (record ev s).
Hypothesis L_raise : forall l e s,
  in_loop l = false -> fault l = Some e -> L s -> J e (record (Raised l e) s).
Hypothesis I_loop : forall s, L s ->
  wp (consume fault (task_sleep config) cw 0 (consumer self)) (fun _ => I) JL s.
Hypothesis I_outer : forall ev s, outer ev = true -> I s -> I (record ev s).
Hypothesis I_raise : forall l e s,
  in_loop l = false -> fault l = Some e -> I s -> J e (record (Raised l e) s).
Hypothesis I_interrupted : forall s, JL KeyboardInterrupt s -> I s.
Hypothesis J_left : forall e s, e <> KeyboardInterrupt -> JL e s -> J e s.
Hypothesis J_outer : forall e ev s, outer ev = true -> J e s -> J e (record ev s).
Hypothesis J_raise : forall e0 l e s,
  in_loop l = false -> fault l = Some e -> J e0 s -> J e (record (Raised l e) s).
Hypothesis F_drain : forall s, I s -> wp (drain fault) (fun _ => F) J s.
Hypothesis F_outer : forall ev s, outer ev = true -> F s -> F (record ev s).
Hypothesis F_raise : forall l e s,
  in_loop l = false -> fault l = Some e -> F s -> J e (record (Raised l e) s).
Hypothesis J_assert : forall s,
  kind (stream_config self) = None -> F s -> J AssertionError s.

Lemma try_exit s :
  L s ->
  wp (try_except_finally
        (consume fault (task_sleep config) cw 0 (consumer self))
        (bind (logger_warning fault) (fun _ => set_result fault true))
        (generator_result fault AtFinallyResult))
     (fun _ => I) J s.
Proof using I_loop I_outer I_raise I_interrupted J_left J_outer J_raise.
  intros Hs.
  assert (Hfin : forall s0, I s0 ->
            wp (generator_result fault AtFinallyResult) (fun _ => I) J s0).
  { intros s0 Hs0. wp_unfold. wp_step; [eauto|]. wp_step. auto. }
  assert (Hpend : forall e0 s0, J e0 s0 ->
            wp (generator_result fault AtFinallyResult) (fun _ => J e0) J s0).
  { intros e0 s0 Hs0. wp_unfold. wp_step; [eauto|]. wp_step. auto. }
  apply wp_try.
  eapply wp_mono; [apply I_loop, Hs | |].
  - intros [] s1 Hs1. apply Hfin, Hs1.
  - intros e s1 Hs1. cbv beta in Hs1.
    destruct e; try (apply Hpend, J_left; [discriminate | exact Hs1]).
    apply I_interrupted in Hs1.
    wp_unfold. wp_step. wp_step.
    + apply Hpend. eauto.
    + wp_step. wp_forget I ltac:(auto).
      wp_step.
      * apply Hpend. eauto.
      * wp_step. apply Hfin. auto.
Qed.

Lemma run_exit :
  wp (run fault clock self config)
     (fun r s =>
        F s /\ exists stream_kind,
          kind (stream_config self) = Some stream_kind /\
          r = result_of clock self config stream_kind s)
     J initial_state.
Proof using All.
  unfold run. fold cw.
  wp_step. apply wp_lift.
  destruct (truediv_float_int (task_sleep config) cw) as [interval|e] eqn:Hdiv;
    [|auto].
  wp_step. apply wp_lift.
  destruct (pregenerate _ _ _ _) as [pregen|e] eqn:Hpregen; [|eauto].
  wp_unfold.
  wp_step. wp_step; [eauto|]. wp_step.
  wp_forget Pre ltac:(auto).
  wp_step. wp_step; [eauto|]. wp_step.
  wp_forget Pre ltac:(auto).
  wp_step. apply wp_init_locals.
  wp_forget L ltac:(auto).
  wp_step. wp_step; [eauto|]. wp_step.
  wp_forget L ltac:(auto).
  wp_step. eapply wp_mono; [apply try_exit; assumption | | auto].
  intros [] s3 Hs3. cbv beta.
  wp_step. wp_step; [eauto|]. wp_step.
  wp_forget I ltac:(auto).
  wp_step.
  eapply wp_mono; [apply F_drain; assumption | | auto].
  intros [] s5 Hs5. cbv beta.
  wp_step. wp_step; [eauto|]. wp_step.
  wp_forget F ltac:(auto).
  wp_step. apply wp_assert_not_none.
  destruct (kind (stream_config self)) as [stream_kind|] eqn:Hkind; [|auto].
  wp_step. unfold get_completed, wp, ret. split; [assumption|].
  exists stream_kind. split; reflexivity.
Qed.

End RunExit.

Lemma drain_loop_stable fault (P : list entry -> Prop) :
  (forall tr en, drain_event (what en) = true -> P tr -> P (tr ++ [en])) ->
  forall fuel j s,
    P (trace s) ->
    wp (drain_loop fault fuel j) (fun _ s' => P (trace s')) (fun _ s' => P (trace s')) s.
Proof.
  intros HP. induction fuel as [|fuel IH]; intros j s Hs; simpl; wp_unfold.
  - wp_step. wp_step. destruct (0 <? _); [apply wp_lift; exact Hs | wp_step; exact Hs].
  - wp_step. wp_step. destruct (0 <? _); [|wp_step; exact Hs].
    wp_step. wp_step; [apply HP; [reflexivity | exact Hs]|].
    wp_step; [apply HP; [reflexivity | exact Hs]|].
    wp_forget (fun s' => P (trace s')) ltac:(apply HP; [reflexivity | exact Hs]).
    wp_step. wp_step; [apply HP; [reflexivity | assumption]|]. wp_step.
    wp_forget (fun s' => P (trace s')) ltac:(apply HP; [reflexivity | assumption]).
    wp_step. wp_step; [apply HP; [reflexivity | assumption]|]. wp_step.
    apply IH. apply HP; [reflexivity | assumption].
Qed.

Lemma in_flight_keep cap i :
  (i < cap)%nat -> in_flight cap i ++ [i] = in_flight cap (S i).
Proof.
  intros Hi. unfold in_flight.
  rewrite (Nat.min_l i cap), (Nat.min_l (S i) cap) by lia.
  rewrite !Nat.sub_diag, seq_S. reflexivity.
Qed.

Lemma in_flight_pop cap i f rest :
  (cap <= i)%nat -> in_flight cap i ++ [i] = f :: rest -> rest = in_flight cap (S i).
Proof.
  intros Hi. unfold in_flight.
  rewrite (Nat.min_r i cap), (Nat.min_r (S i) cap) by lia.
  replace [i] with [(i - cap + cap)%nat] by (f_equal; lia).
  rewrite <- seq_S. simpl. intros [= _ <-].
  replace (S i - cap)%nat with (S (i - cap)) by lia. reflexivity.
Qed.

Lemma steady_record cap ev s :
  match ev with
  | Yielded i _ | Exhausted i => running_tasks s = in_flight cap i
  | _ => True
  end ->
  Forall (entry_steady cap) (trace s) ->
  Forall (entry_steady cap) (trace (record ev s)).
Proof.
  intros Hev Hs. simpl. apply Forall_app. split; [exact Hs|].
  constructor; [|constructor]. unfold entry_steady. simpl.
  destruct ev; auto.
Qed.

Lemma consume_steady fault sleep cw items : forall i s,
  Forall (entry_steady (Z.to_nat (cw - 1))) (trace s) ->
  running_tasks s = in_flight (Z.to_nat (cw - 1)) i ->
  wp (consume fault sleep cw i items)
     (fun _ s' => Forall (entry_steady (Z.to_nat (cw - 1))) (trace s'))
     (fun _ s' => Forall (entry_steady (Z.to_nat (cw - 1))) (trace s')) s.
Proof.
  set (cap := Z.to_nat (cw - 1)).
  induction items as [|item rest IH]; intros i s Hs Hd; simpl; wp_unfold.
  - wp_step; [apply steady_record; [exact I | exact Hs]|]. wp_step.
    apply steady_record; assumption.
  - wp_step. wp_step; [apply steady_record; [exact I | exact Hs]|]. wp_step.
    wp_forget (fun s' => Forall (entry_steady cap) (trace s') /\
                         running_tasks s' = in_flight cap i)
      ltac:(split; [apply steady_record; assumption | exact Hd]).
    clear Hs Hd. destruct Hs0 as [Hs Hd].
    wp_step. wp_step; [apply steady_record; [exact I | exact Hs]|].
    wp_step. wp_step; [apply steady_record; [exact I | exact Hs]|]. wp_step.
    wp_forget (fun s' => Forall (entry_steady cap) (trace s') /\
                         running_tasks s' = in_flight cap i)
      ltac:(split; [apply steady_record; [exact I | exact Hs] | exact Hd]).
    clear Hs Hd. destruct Hs0 as [Hs Hd].
    wp_step. wp_step; [apply steady_record; [exact I | exact Hs]|]. wp_step.
    wp_forget (fun s' => Forall (entry_steady cap) (trace s') /\
                         running_tasks s' = in_flight cap i ++ [i])
      ltac:(split; [apply (steady_record cap (Appended i)); [exact I | exact Hs]
                   | simpl; rewrite Hd; reflexivity]).
    clear Hs Hd. destruct Hs0 as [Hs Hd].
    wp_step. wp_step. wp_step.
    assert (Hlen : length (running_tasks s2) = S (min i cap)).
    { rewrite Hd, length_app. unfold in_flight. rewrite length_seq. simpl. lia. }
    destruct (Z.leb_spec cw (Z.of_nat (length (running_tasks s2)))) as [Hfull|Hroom].
    + wp_step. wp_step; [apply steady_record; [exact I | exact Hs]|].
      wp_step; [apply steady_record; [exact I | exact Hs]|].
      assert (Hrest : rest0 = in_flight cap (S i)).
      { apply (in_flight_pop cap i f); [unfold cap; lia | congruence]. }
      wp_forget (fun s' => Forall (entry_steady cap) (trace s') /\
                           running_tasks s' = in_flight cap (S i))
        ltac:(split; [apply (steady_record cap (Popped f)); [exact I | exact Hs]
                     | exact Hrest]).
      clear Hs Hd Hlen. destruct Hs0 as [Hs Hd].
      wp_step. wp_step; [apply steady_record; [exact I | exact Hs]|]. wp_step.
      wp_forget (fun s' => Forall (entry_steady cap) (trace s') /\
                           running_tasks s' = in_flight cap (S i))
        ltac:(split; [apply steady_record; [exact I | exact Hs] | exact Hd]).
      clear Hs Hd. destruct Hs0 as [Hs Hd].
      wp_step; [apply steady_record; [exact I | exact Hs]|]. wp_step.
      apply IH; [apply (steady_record cap Counted); [exact I | exact Hs] | exact Hd].
    + wp_step. apply IH; [exact Hs|].
      rewrite Hd. apply in_flight_keep. unfold cap. lia.
Qed.

(** Wherever [run] stops, the deque held the last [max_workers - 2]
    submitted futures each time the stream was asked for an item. *)
Lemma run_steady fault clock self config :
  let cap := Z.to_nat (max_workers self - 2) in
  wp (run fault clock self config)
     (fun _ s => Forall (entry_steady cap) (trace s))
     (fun _ s => Forall (entry_steady cap) (trace s)) initial_state.
Proof.
  intros cap.
  replace cap with (Z.to_nat (max_workers self - 1 - 1)) by (unfold cap; f_equal; lia).
  clear cap. set (cap := Z.to_nat (max_workers self - 1 - 1)).
  set (ok := fun s : state => Forall (entry_steady cap) (trace s)).
  eapply wp_mono;
    [apply (run_invariant fault clock self config
              ok (fun s => ok s /\ running_tasks s = []) ok ok (fun _ => ok))
    | intros r s [Hs _]; exact Hs | auto]; unfold ok.
  - constructor.
  - intros; constructor.
  - intros; constructor.
  - intros ev s Hev Hs. apply steady_record; [destruct ev; try discriminate; exact I | exact Hs].
  - intros. apply steady_record; [exact I | assumption].
  - intros. apply steady_record; [exact I | assumption].
  - intros s Hs. split; [exact Hs | reflexivity].
  - intros ev s Hev [Hs Hd]. split; [|exact Hd].
    apply steady_record; [destruct ev; try discriminate; exact I | exact Hs].
  - intros l e s _ _ [Hs _]. apply steady_record; [exact I | assumption].
  - intros s [Hs Hd]. apply consume_steady; [exact Hs | exact Hd].
  - intros ev s Hev Hs. apply steady_record; [destruct ev; try discriminate; exact I | exact Hs].
  - intros. apply steady_record; [exact I | assumption].
  - auto.
  - intros e ev s Hev Hs. apply steady_record; [destruct ev; try discriminate; exact I | exact Hs].
  - intros. apply steady_record; [exact I | assumption].
  - intros s Hs. apply wp_drain.
    apply (drain_loop_stable fault (Forall (entry_steady cap))); [|exact Hs].
    intros tr en Hen Htr. apply Forall_app. split; [exact Htr|].
    constructor; [|constructor]. unfold entry_steady.
    destruct (what en); try discriminate; exact I.
  - intros ev s Hev Hs. apply steady_record; [destruct ev; try discriminate; exact I | exact Hs].
  - intros. apply steady_record; [exact I | assumption].
  - auto.
Qed.

(** X5: in every execution of [run], each time the stream is asked for item
    [i], and when it turns out to be exhausted, the deque holds exactly the
    last [min i (max_workers - 2)] futures that were submitted. *)
Theorem deque_holds_last_submitted fault clock self config :
  Forall (entry_steady (Z.to_nat (max_workers self - 2)))
         (trace (snd (run fault clock self config initial_state))).
Proof.
  apply (wp_snd (run fault clock self config)
           (fun s => Forall (entry_steady (Z.to_nat (max_workers self - 2))) (trace s))).
  apply run_steady.
Qed.

Lemma submissions_app tr en :
  submissions (tr ++ [en]) =
  submissions tr ++ match what en with
                    | SubmittedCompute _ item sleep => [(item, sleep)]
                    | _ => []
                    end.
Proof. unfold submissions. rewrite flat_map_app. simpl. rewrite app_nil_r. reflexivity. Qed.

Lemma taken_app tr en :
  taken (tr ++ [en]) =
  taken tr ++ match what en with Yielded _ item => [item] | _ => [] end.
Proof. unfold taken. rewrite flat_map_app. simpl. rewrite app_nil_r. reflexivity. Qed.

Lemma handed_over_app config items tr en :
  match what en with Yielded _ _ | SubmittedCompute _ _ _ => False | _ => True end ->
  handed_over config items tr -> handed_over config items (tr ++ [en]).
Proof.
  intros Hen (done & Hsub & Htaken & Hpre). exists done.
  rewrite submissions_app, taken_app.
  destruct (what en); try contradiction; rewrite !app_nil_r; auto.
Qed.

Lemma handed_clear_wrapped item : handed item (clear_wrapped item).
Proof. destruct item; simpl; auto. Qed.

Lemma consume_handed_over fault config cw rest : forall done i s,
  Forall2 (fun item given => handed item (fst given) /\ snd given = task_sleep config)
    done (submissions (trace s)) ->
  taken (trace s) = done ->
  wp (consume fault (task_sleep config) cw i rest)
     (fun _ s' => handed_over config (done ++ rest) (trace s'))
     (fun _ s' => handed_over config (done ++ rest) (trace s')) s.
Proof.
  set (R := fun (item : Item) (given : Item * float) =>
              handed item (fst given) /\ snd given = task_sleep config).
  induction rest as [|item rest IH]; intros done i s Hsub Htaken; simpl; wp_unfold.
  - assert (Hs : handed_over config (done ++ []) (trace s)).
    { exists done. rewrite app_nil_r, Htaken. auto. }
    wp_step; [apply handed_over_app; [exact I | exact Hs]|]. wp_step.
    apply handed_over_app; [exact I | exact Hs].
  - assert (Hs : handed_over config (done ++ item :: rest) (trace s)).
    { exists done. rewrite Htaken. repeat split; auto. apply prefix_app_r. reflexivity. }
    wp_step. wp_step; [apply handed_over_app; [exact I | exact Hs]|]. wp_step.
    assert (Hpre : (done ++ [item]) `prefix_of` (done ++ item :: rest)).
    { exists rest. rewrite <- app_assoc. reflexivity. }
    wp_forget (fun s' => Forall2 R done (submissions (trace s')) /\
                         taken (trace s') = done ++ [item])
      ltac:(simpl; rewrite submissions_app, taken_app, Htaken; simpl;
            rewrite app_nil_r; split; [exact Hsub | reflexivity]).
    clear Hs Hsub Htaken. destruct Hs0 as [Hsub Htaken].
    assert (Hs : handed_over config (done ++ item :: rest) (trace s0)).
    { exists done. rewrite Htaken. repeat split; eauto. }
    wp_step. wp_step; [apply handed_over_app; [exact I | exact Hs]|].
    wp_step. wp_step; [apply handed_over_app; [exact I | exact Hs]|]. wp_step.
    wp_forget (fun s' => Forall2 R (done ++ [item]) (submissions (trace s')) /\
                         taken (trace s') = done ++ [item])
      ltac:(simpl; rewrite submissions_app, taken_app, Htaken; simpl;
            rewrite app_nil_r; split; [|reflexivity];
            apply Forall2_app; [exact Hsub|];
            constructor; [|constructor];
            split; [apply handed_clear_wrapped | reflexivity]).
    clear Hs Hsub Htaken. destruct Hs0 as [Hsub Htaken].
    assert (Hkeep : forall ev s',
              match ev with Yielded _ _ | SubmittedCompute _ _ _ => False | _ => True end ->
              Forall2 R (done ++ [item]) (submissions (trace s')) /\
              taken (trace s') = done ++ [item] ->
              Forall2 R (done ++ [item])
                (submissions (trace s' ++ [mkEntry ev (running_tasks s') (completed_tasks s')])) /\
              taken (trace s' ++ [mkEntry ev (running_tasks s') (completed_tasks s')]) =
                done ++ [item]).
    { intros ev s' Hev [H1 H2]. rewrite submissions_app, taken_app, H2. simpl.
      destruct ev; try contradiction; rewrite !app_nil_r; auto. }
    assert (Hdone : forall s',
              Forall2 R (done ++ [item]) (submissions (trace s')) /\
              taken (trace s') = done ++ [item] ->
              handed_over config (done ++ item :: rest) (trace s')).
    { intros s' [H1 H2]. exists (done ++ [item]). rewrite H2. repeat split; auto. }
    assert (Hnext : forall s',
              Forall2 R (done ++ [item]) (submissions (trace s')) /\
              taken (trace s') = done ++ [item] ->
              wp (consume fault (task_sleep config) cw (S i) rest)
                 (fun _ s'' => handed_over config (done ++ item :: rest) (trace s''))
                 (fun _ s'' => handed_over config (done ++ item :: rest) (trace s'')) s').
    { intros s' [H1 H2]. replace (done ++ item :: rest) with ((done ++ [item]) ++ rest)
        by (rewrite <- app_assoc; reflexivity).
      apply IH; assumption. }
    pose proof (conj Hsub Htaken) as Hinv. clear Hsub Htaken.
    wp_step. wp_step; [apply handed_over_app; [exact I | apply Hdone, Hinv]|]. wp_step.
    wp_forget (fun s' => Forall2 R (done ++ [item]) (submissions (trace s')) /\
                         taken (trace s') = done ++ [item])
      ltac:(apply (Hkeep (Appended i)
                     (mkState (completed_tasks s1) (running_tasks s1 ++ [i]) (trace s1)));
            [exact I | exact Hinv]).
    clear Hinv. match goal with H : Forall2 _ _ _ /\ _ |- _ => rename H into Hinv end.
    wp_step. wp_step. wp_step.
    destruct (cw <=? _).
    + wp_step. wp_step; [apply handed_over_app; [exact I | apply Hdone, Hinv]|].
      wp_step; [apply handed_over_app; [exact I | apply Hdone, Hinv]|].
      wp_forget (fun s' => Forall2 R (done ++ [item]) (submissions (trace s')) /\
                           taken (trace s') = done ++ [item])
        ltac:(apply (Hkeep (Popped f)
                       (mkState (completed_tasks s2) rest0 (trace s2)));
              [exact I | exact Hinv]).
      clear Hinv. match goal with H : Forall2 _ _ _ /\ _ |- _ => rename H into Hinv end.
      wp_step. wp_step; [apply handed_over_app; [exact I | apply Hdone, Hinv]|]. wp_step.
      wp_forget (fun s' => Forall2 R (done ++ [item]) (submissions (trace s')) /\
                           taken (trace s') = done ++ [item])
        ltac:(apply (Hkeep (Awaited f) s3); [exact I | exact Hinv]).
      clear Hinv. match goal with H : Forall2 _ _ _ /\ _ |- _ => rename H into Hinv end.
      wp_step; [apply handed_over_app; [exact I | apply Hdone, Hinv]|]. wp_step.
      apply Hnext.
      apply (Hkeep Counted
               (mkState (completed_tasks s4 + 1) (running_tasks s4) (trace s4)));
        [exact I | exact Hinv].
    + wp_step. apply Hnext. exact Hinv.
Qed.

(** Wherever [run] stops, the compute tasks were given the items of the
    stream, in order. *)
Lemma run_handed_over fault clock self config :
  wp (run fault clock self config)
     (fun _ s => handed_over config (consumer self) (trace s))
     (fun _ s => handed_over config (consumer self) (trace s)) initial_state.
Proof.
  set (ok := fun s : state => handed_over config (consumer self) (trace s)).
  set (fresh := fun s : state => submissions (trace s) = [] /\ taken (trace s) = []).
  assert (Hfresh : forall ev s,
            match ev with Yielded _ _ | SubmittedCompute _ _ _ => False | _ => True end ->
            fresh s -> fresh (record ev s)).
  { intros ev s Hev [H1 H2]. unfold fresh. simpl.
    rewrite submissions_app, taken_app, H1, H2. simpl.
    destruct ev; try contradiction; split; reflexivity. }
  assert (Hok : forall ev s,
            match ev with Yielded _ _ | SubmittedCompute _ _ _ => False | _ => True end ->
            ok s -> ok (record ev s)).
  { intros ev s Hev Hs. apply handed_over_app; assumption. }
  assert (Hstart : forall s, fresh s -> ok s).
  { intros s [H1 H2]. exists []. rewrite H1, H2.
    split; [constructor|]. split; [left; reflexivity | apply prefix_nil]. }
  eapply wp_mono;
    [apply (run_invariant fault clock self config fresh fresh ok ok (fun _ => ok))
    | intros r s [Hs _]; exact Hs | auto].
  - split; reflexivity.
  - intros. apply Hstart. split; reflexivity.
  - intros. apply Hstart. split; reflexivity.
  - intros ev s Hev Hs. apply Hfresh; [destruct ev; try discriminate; exact I | exact Hs].
  - intros. apply Hfresh; [exact I | assumption].
  - intros. apply Hok; [exact I | auto].
  - intros s Hs. exact Hs.
  - intros ev s Hev Hs. apply Hfresh; [destruct ev; try discriminate; exact I | exact Hs].
  - intros. apply Hok; [exact I | auto].
  - intros s [H1 H2].
    apply (consume_handed_over fault config _ (consumer self) [] 0%nat);
      [rewrite H1; constructor | rewrite H2; reflexivity].
  - intros ev s Hev Hs. apply Hok; [destruct ev; try discriminate; exact I | exact Hs].
  - intros. apply Hok; [exact I | auto].
  - auto.
  - intros e ev s Hev Hs. apply Hok; [destruct ev; try discriminate; exact I | exact Hs].
  - intros. apply Hok; [exact I | auto].
  - intros s Hs. apply wp_drain.
    apply (drain_loop_stable fault (handed_over config (consumer self))); [|exact Hs].
    intros tr en Hen Htr. apply handed_over_app; [|exact Htr].
    destruct (what en); try discriminate; exact I.
  - intros ev s Hev Hs. apply Hok; [destruct ev; try discriminate; exact I | exact Hs].
  - intros. apply Hok; [exact I | auto].
  - auto.
Qed.

(** X6: in every execution of [run] the compute tasks are given the items
    of the stream in the order of the stream: the same bytes, or the same
    proxy with its cached target set to [None], and [config.task_sleep] as
    their sleep; every item taken from the stream went to a task, except
    possibly the last one taken. *)
Theorem tasks_get_stream_items_in_order fault clock self config :
  handed_over config (consumer self)
    (trace (snd (run fault clock self config initial_state))).
Proof.
  apply (wp_snd (run fault clock self config)
           (fun s => handed_over config (consumer self) (trace s))).
  apply run_handed_over.
Qed.

Ltac ledger_tac :=
  unfold ledger in *;
  rewrite ?awaited_record, ?submitted_record, ?yielded_record;
  unfold record in *; cbn [trace running_tasks completed_tasks] in *;
  rewrite ?length_app, ?app_nil_r; cbn [length] in *;
  repeat match goal with H : _ /\ _ |- _ => destruct H end;
  repeat split; try lia.

Lemma ledger_record y n i p u ev s :
  quiet ev = true -> ledger y n i p u s -> ledger y n i p u (record ev s).
Proof. intros Hev Hs. destruct ev; try discriminate; ledger_tac. Qed.

Lemma settled_record total ev s :
  quiet ev = true -> (forall l e, ev <> Raised l e) ->
  settled total s -> settled total (record ev s).
Proof.
  intros Hev Hnot (y & n & i & p & u & Hs & H1 & H2 & H3 & H4 & H5 & H6).
  exists y, n, i, p, u.
  split; [apply ledger_record; assumption|].
  repeat (split; [assumption|]).
  intros H. apply H6. rewrite raised_record in H.
  destruct ev; rewrite ?app_nil_r in H; try assumption.
  exfalso. eapply Hnot. reflexivity.
Qed.

Lemma settled_raise total y n i p u l e s :
  ledger y n i p u s ->
  (i <= n)%nat -> (n <= y)%nat -> (y <= total)%nat -> 0 <= u ->
  Z.of_nat y - Z.of_nat i + Z.of_nat p + u <= 1 ->
  settled total (record (Raised l e) s).
Proof.
  intros Hs H1 H2 H3 H4 H5. exists y, n, i, p, u.
  split; [apply ledger_record; [reflexivity | assumption]|].
  repeat (split; [assumption|]).
  intros H. rewrite raised_record in H. apply app_eq_nil in H as [_ H]. discriminate.
Qed.

Lemma settled_raised total l e s :
  settled total s -> settled total (record (Raised l e) s).
Proof.
  intros (y & n & i & p & u & Hs & H1 & H2 & H3 & H4 & H5 & _).
  eapply settled_raise; eassumption.
Qed.

Lemma consume_ledger fault sleep cw total items : forall i s,
  (i + length items = total)%nat ->
  ledger i i i 0 0 s -> raised (trace s) = [] ->
  wp (consume fault sleep cw i items)
     (fun _ s' => ledger total total total 0 0 s' /\ raised (trace s') = [])
     (fun _ => settled total) s.
Proof.
  induction items as [|item rest IH]; intros i s Hlen Hs Hr; simpl in *; wp_unfold.
  - wp_step; [eapply settled_raise; [eassumption | lia..]|]. wp_step.
    replace total with i by lia.
    split; [apply ledger_record; [reflexivity | exact Hs]|].
    rewrite raised_record, app_nil_r. exact Hr.
  - wp_step. wp_step; [eapply settled_raise; [eassumption | lia..]|]. wp_step.
    wp_forget (fun s => ledger (S i) i i 0 0 s /\ raised (trace s) = [])
      ltac:(split; [ledger_tac | rewrite raised_record, app_nil_r; exact Hr]).
    clear Hs Hr. destruct Hs0 as [Hs Hr].
    wp_step. wp_step; [eapply settled_raise; [eassumption | lia..]|].
    wp_step. wp_step; [eapply settled_raise; [eassumption | lia..]|]. wp_step.
    wp_forget (fun s => ledger (S i) (S i) i 0 0 s /\ raised (trace s) = [])
      ltac:(split; [ledger_tac | rewrite raised_record, app_nil_r; exact Hr]).
    clear Hs Hr. destruct Hs0 as [Hs Hr].
    wp_step. wp_step; [eapply settled_raise; [eassumption | lia..]|]. wp_step.
    wp_forget (fun s => ledger (S i) (S i) (S i) 0 0 s /\ raised (trace s) = [] /\
                        running_tasks s <> [])
      ltac:(split; [ledger_tac | split; [rewrite raised_record, app_nil_r; exact Hr |
              simpl; intros Hnil; apply app_eq_nil in Hnil as [_ Hnil]; discriminate]]).
    clear Hs Hr. destruct Hs0 as (Hs & Hr & Hne).
    wp_step. wp_step. wp_step.
    destruct (cw <=? _).
    + wp_step. wp_step; [eapply settled_raise; [eassumption | lia..]|].
      wp_step; [contradiction|].
      wp_forget (fun s => ledger (S i) (S i) (S i) 1 0 s /\ raised (trace s) = [])
        ltac:(unfold ledger in Hs;
              match goal with H : running_tasks _ = _ :: _ |- _ => rewrite H in Hs end;
              split; [ledger_tac | rewrite raised_record, app_nil_r; exact Hr]).
      clear Hs Hr. destruct Hs0 as [Hs Hr].
      wp_step. wp_step; [eapply settled_raise; [eassumption | lia..]|]. wp_step.
      wp_forget (fun s => ledger (S i) (S i) (S i) 0 1 s /\ raised (trace s) = [])
        ltac:(split; [ledger_tac | rewrite raised_record, app_nil_r; exact Hr]).
      clear Hs Hr. destruct Hs0 as [Hs Hr].
      wp_step; [eapply settled_raise; [eassumption | lia..]|]. wp_step.
      apply IH; [lia | ledger_tac | rewrite raised_record, app_nil_r; exact Hr].
    + wp_step. apply IH; [lia | assumption | assumption].
Qed.

Lemma drain_loop_ledger fault y n i p u fuel : forall j s,
  (length (running_tasks s) < fuel)%nat ->
  ledger y n i p u s ->
  wp (drain_loop fault fuel j)
     (fun _ s' => ledger y n i p u s' /\ running_tasks s' = [] /\
                  raised (trace s') = raised (trace s))
     (fun _ _ => True) s.
Proof.
  induction fuel as [|fuel IH]; intros j s Hfuel Hs; [lia|].
  simpl; wp_unfold. wp_step. wp_step.
  destruct (running_tasks s) as [|f0 rest0] eqn:Hd.
  - simpl. wp_step. auto.
  - replace (0 <? _) with true by (symmetry; apply Z.ltb_lt; simpl length; lia).
    wp_step. wp_step; [exact I|]. wp_step; [exact I|].
    wp_forget (fun s' => ledger y n i (S p) u s' /\ (length (running_tasks s') < fuel)%nat /\
                         raised (trace s') = raised (trace s))
      ltac:(unfold ledger in Hs; rewrite Hd in *;
            match goal with H : _ :: _ = _ :: _ |- _ => injection H as <- <- end;
            split; [ledger_tac | split; [simpl in *; lia | rewrite raised_record, app_nil_r; reflexivity]]).
    destruct Hs0 as (Hs1 & Hfuel1 & Hr1).
    wp_step. wp_step; [exact I|]. wp_step.
    wp_forget (fun s' => ledger y n i p (u + 1) s' /\ (length (running_tasks s') < fuel)%nat /\
                         raised (trace s') = raised (trace s))
      ltac:(split; [ledger_tac | split; [exact Hfuel1 | rewrite raised_record, app_nil_r; exact Hr1]]).
    destruct Hs0 as (Hs2 & Hfuel2 & Hr2).
    wp_step. wp_step; [exact I|]. wp_step.
    eapply wp_mono; [apply IH; [exact Hfuel2 | ledger_tac] | | auto].
    intros [] s' (Hs' & Hd' & Hr'). cbv beta. repeat split; try apply Hs'; [exact Hd'|].
    rewrite Hr', raised_record, app_nil_r. exact Hr2.
Qed.

Lemma settled_outer total ev s :
  outer ev = true -> settled total s -> settled total (record ev s).
Proof.
  intros Hev. apply settled_record; destruct ev; try discriminate; try reflexivity;
    intros l e; discriminate.
Qed.

(** When [run] returns, its ledger is settled and the deque is empty. *)
Lemma run_ledger fault clock self config :
  wp (run fault clock self config)
     (fun r s =>
        (settled (length (consumer self)) s /\ running_tasks s = []) /\
        exists stream_kind,
          kind (stream_config self) = Some stream_kind /\
          r = result_of clock self config stream_kind s)
     (fun _ _ => True) initial_state.
Proof.
  set (total := length (consumer self)).
  set (Pre := fun s : state =>
     awaited (trace s) = [] /\ submitted (trace s) = [] /\ yielded (trace s) = [] /\
     raised (trace s) = []).
  apply (run_exit fault clock self config
           Pre (fun s => ledger 0 0 0 0 0 s /\ raised (trace s) = [])
           (settled total) (fun s => settled total s /\ running_tasks s = [])
           (fun _ => settled total) (fun _ _ => True)); auto.
  - repeat split.
  - intros ev s Hev (Ha & Hn & Hy & Hr). unfold Pre.
    rewrite awaited_record, submitted_record, yielded_record, raised_record, Ha, Hn, Hy, Hr.
    destruct ev; try discriminate; repeat split.
  - intros kw s (Ha & Hn & Hy & Hr). unfold Pre.
    rewrite awaited_record, submitted_record, yielded_record, raised_record, Ha, Hn, Hy, Hr.
    repeat split.
  - intros s (Ha & Hn & Hy & Hr). split; [|exact Hr].
    unfold ledger. cbn [trace running_tasks completed_tasks]. rewrite Ha, Hn, Hy.
    repeat split.
  - intros ev s Hev [Hs Hr]. split.
    + apply ledger_record; [destruct ev; try discriminate; reflexivity | exact Hs].
    + rewrite raised_record, Hr. destruct ev; try discriminate; reflexivity.
  - intros s [Hs Hr].
    eapply wp_mono; [apply (consume_ledger fault _ _ total _ 0%nat); [reflexivity | exact Hs | exact Hr] | | auto].
    intros [] s' [Hs' Hr']. exists total, total, total, 0%nat, 0.
    split; [exact Hs'|]. repeat split; lia.
  - apply settled_outer.
  - intros s (y & n & i & p & u & Hs & Hb). apply wp_drain.
    eapply wp_mono; [apply (drain_loop_ledger fault y n i p u); [lia | exact Hs] | | auto].
    intros [] s' (Hs' & Hd & Hr). cbv beta. split; [|exact Hd].
    exists y, n, i, p, u. rewrite Hr. split; [exact Hs' | exact Hb].
  - intros ev s Hev [Hs Hd]. split; [apply settled_outer; assumption | exact Hd].
Qed.

(** X4: when [run] returns, it counted no more futures than it awaited,
    awaited no more than it submitted, submitted no more tasks than it took
    items from the stream, and took no more than the stream holds; the count
    is at most one short of the items taken, and equals the length of the
    stream when nothing was raised. *)
Theorem at_most_one_item_lost fault clock self config r s :
  run fault clock self config initial_state = (Returns r, s) ->
  let taken := Z.of_nat (length (yielded (trace s))) in
  res_completed_tasks r <= Z.of_nat (length (awaited (trace s))) /\
  (length (awaited (trace s)) <= length (submitted (trace s)))%nat /\
  (length (submitted (trace s)) <= length (yielded (trace s)))%nat /\
  (length (yielded (trace s)) <= length (consumer self))%nat /\
  taken <= res_completed_tasks r + 1 /\
  (raised (trace s) = [] ->
   res_completed_tasks r = Z.of_nat (length (consumer self))).
Proof.
  intros Hrun taken.
  destruct (wp_returns _ _ _ _ _ _ (run_ledger fault clock self config) Hrun)
    as ([(y & n & i & p & u & (Ha & Hn & Hy & Hc) & H1 & H2 & H3 & H4 & H5 & H6) Hd]
        & stream_kind & _ & ->).
  rewrite Hd in Ha. simpl in Ha. unfold taken. simpl res_completed_tasks.
  repeat split; try lia.
  intros Hr. destruct (H6 Hr) as (-> & -> & ->). lia.
Qed.

Lemma at_most_one_item_lost_witness :
  exists r s,
    run interrupting_world demo_clock demo_benchmark demo_config initial_state =
      (Returns r, s) /\
    res_completed_tasks r = 2 /\
    length (yielded (trace s)) = 3%nat /\
    Z.of_nat (length (yielded (trace s))) <= res_completed_tasks r + 1.
Proof.
  eexists _, _. split; [vm_compute; reflexivity|].
  split; [reflexivity|]. split; [reflexivity|].
  eapply (at_most_one_item_lost interrupting_world demo_clock demo_benchmark demo_config).
  vm_compute. reflexivity.
Defined.

Lemma outline_inner R K ev c d s :
  inner ev = true -> outline R K s ->
  outline R K (record ev (mkState c d (trace s))).
Proof.
  intros Hev [Hr Hk]. unfold outline.
  rewrite raised_record, skeleton_record. cbn [trace].
  destruct ev; try discriminate; simpl; rewrite !app_nil_r; auto.
Qed.

Lemma outline_note R K ev s :
  inner ev = true -> outline R K s -> outline R K (record ev s).
Proof.
  intros Hev [Hr Hk]. unfold outline.
  rewrite raised_record, skeleton_record.
  destruct ev; try discriminate; simpl; rewrite !app_nil_r; auto.
Qed.

Lemma outline_outer R K ev s :
  outer ev = true -> outline R K s -> outline R (K ++ [ev]) (record ev s).
Proof.
  intros Hev [Hr Hk]. unfold outline.
  rewrite raised_record, skeleton_record, Hev, Hr, Hk.
  destruct ev; try discriminate; simpl; rewrite !app_nil_r; auto.
Qed.

Lemma outline_generator R K kw s :
  outline R K s -> outline R K (record (SubmittedGenerator kw) s).
Proof.
  intros [Hr Hk]. unfold outline.
  rewrite raised_record, skeleton_record. simpl. rewrite !app_nil_r. auto.
Qed.

Lemma outline_locals R K c d s : outline R K s -> outline R K (mkState c d (trace s)).
Proof. intros Hs. exact Hs. Qed.

Lemma left_by_raise fault K i st e s :
  fault (InLoop i st) = Some e -> outline [] K s ->
  left_by fault K e (record (Raised (InLoop i st) e) s).
Proof. intros Hl [Hr Hk]. exists i, st, (trace s). auto. Qed.

Lemma left_by_outline fault K e s :
  left_by fault K e s ->
  exists i st, fault (InLoop i st) = Some e /\ outline [(InLoop i st, e)] K s.
Proof.
  intros (i & st & pre & Hl & Htr & Hr & Hk). exists i, st. split; [exact Hl|].
  unfold outline, raised, skeleton in *. rewrite Htr, !flat_map_app, Hr, Hk. simpl.
  rewrite app_nil_r. auto.
Qed.

Create HintDb outline.
#[local] Hint Resolve outline_inner outline_note outline_outer outline_generator
  outline_locals left_by_raise : outline.

Lemma consume_outline fault K sleep cw items : forall i s,
  outline [] K s ->
  wp (consume fault sleep cw i items) (fun _ => outline [] K) (left_by fault K) s.
Proof.
  induction items as [|item rest IH]; intros i s Hs; simpl; wp_unfold.
  - wp_step; [auto with outline|]. wp_step. auto with outline.
  - wp_step. wp_step; [auto with outline|]. wp_step.
    wp_forget (outline [] K) ltac:(auto with outline).
    wp_step. wp_step; [auto with outline|].
    wp_step. wp_step; [auto with outline|]. wp_step.
    wp_forget (outline [] K) ltac:(auto with outline).
    wp_step. wp_step; [auto with outline|]. wp_step.
    wp_forget (fun s => outline [] K s /\ running_tasks s <> [])
      ltac:(split; [auto with outline |
              simpl; intros Hnil; apply app_eq_nil in Hnil as [_ Hnil]; discriminate]).
    match goal with H : _ /\ _ |- _ => destruct H as [Hs' Hne] end.
    wp_step. wp_step. wp_step.
    destruct (cw <=? _).
    + wp_step. wp_step; [auto with outline|]. wp_step; [contradiction|].
      wp_forget (outline [] K) ltac:(auto with outline).
      wp_step. wp_step; [auto with outline|]. wp_step.
      wp_forget (outline [] K) ltac:(auto with outline).
      wp_step; [auto with outline|]. wp_step.
      apply IH. auto with outline.
    + wp_step. apply IH. assumption.
Qed.

Lemma drain_loop_outline fault R K fuel : forall j s,
  (length (running_tasks s) < fuel)%nat ->
  outline R K s ->
  wp (drain_loop fault fuel j)
     (fun _ s' => outline R K s' /\ running_tasks s' = [])
     (fun e _ => exists l, in_loop l = false /\ fault l = Some e) s.
Proof.
  induction fuel as [|fuel IH]; intros j s Hfuel Hs; [lia|].
  simpl; wp_unfold. wp_step. wp_step.
  destruct (running_tasks s) as [|f0 rest0] eqn:Hd.
  - simpl. wp_step. auto.
  - replace (0 <? _) with true by (symmetry; apply Z.ltb_lt; simpl length; lia).
    wp_step. wp_step; [eexists; split; [|eassumption]; reflexivity|].
    wp_step; [congruence|].
    wp_forget (fun s' => outline R K s' /\ (length (running_tasks s') < fuel)%nat)
      ltac:(split; [auto with outline | simpl in *; rewrite Hd in *; simpl in *;
                    match goal with H : _ :: _ = _ :: _ |- _ => injection H as _ <- end; lia]).
    match goal with H : _ /\ _ |- _ => destruct H as [Hs' Hfuel'] end.
    wp_step. wp_step; [eexists; split; [|eassumption]; reflexivity|]. wp_step.
    wp_forget (fun s' => outline R K s' /\ (length (running_tasks s') < fuel)%nat)
      ltac:(split; [auto with outline | exact Hfuel']).
    match goal with H : _ /\ _ |- _ => destruct H as [Hs'' Hfuel''] end.
    wp_step. wp_step; [eexists; split; [|eassumption]; reflexivity|]. wp_step.
    apply IH; [exact Hfuel'' | auto with outline].
Qed.

Lemma consume_stable fault (P : list entry -> Prop) :
  (forall tr en, loop_event (what en) = true -> P tr -> P (tr ++ [en])) ->
  forall sleep cw items i s,
    P (trace s) ->
    wp (consume fault sleep cw i items)
       (fun _ s' => P (trace s')) (fun _ s' => P (trace s')) s.
Proof.
  intros HP sleep cw.
  induction items as [|item rest IH]; intros i s Hs; simpl; wp_unfold.
  - wp_step; [apply HP; [reflexivity | exact Hs]|]. wp_step.
    apply HP; [reflexivity | exact Hs].
  - wp_step. wp_step; [apply HP; [reflexivity | exact Hs]|]. wp_step.
    wp_forget (fun s' => P (trace s')) ltac:(apply HP; [reflexivity | exact Hs]).
    wp_step. wp_step; [apply HP; [reflexivity | assumption]|].
    wp_step. wp_step; [apply HP; [reflexivity | assumption]|]. wp_step.
    wp_forget (fun s' => P (trace s')) ltac:(apply HP; [reflexivity | assumption]).
    wp_step. wp_step; [apply HP; [reflexivity | assumption]|]. wp_step.
    wp_forget (fun s' => P (trace s')) ltac:(apply HP; [reflexivity | assumption]).
    wp_step. wp_step. wp_step.
    destruct (cw <=? _).
    + wp_step. wp_step; [apply HP; [reflexivity | assumption]|].
      wp_step; [apply HP; [reflexivity | assumption]|].
      wp_forget (fun s' => P (trace s')) ltac:(apply HP; [reflexivity | assumption]).
      wp_step. wp_step; [apply HP; [reflexivity | assumption]|]. wp_step.
      wp_forget (fun s' => P (trace s')) ltac:(apply HP; [reflexivity | assumption]).
      wp_step; [apply HP; [reflexivity | assumption]|]. wp_step.
      apply IH. apply HP; [reflexivity | assumption].
    + wp_step. apply IH. assumption.
Qed.

Lemma started_app tr en :
  is_clock_read (what en) = false -> started tr -> started (tr ++ [en]).
Proof.
  intros Hen (e1 & e2 & t1 & work & -> & H1 & H2 & H3 & Hwork).
  exists e1, e2, t1, (work ++ [en]). repeat split; auto.
  apply Forall_app. split; [exact Hwork|]. constructor; [exact Hen | constructor].
Qed.

Lemma started_record ev s :
  is_clock_read ev = false -> started (trace s) -> started (trace (record ev s)).
Proof. intros Hev Hs. apply started_app; assumption. Qed.

Section Outline.

Variable fault : location -> option exn.
Variable clock : location -> float.
Variable self : Benchmark.
Variable config : RunConfig.

(** What [run] does after the [try] statement. *)
Let finish : M RunResult :=
  bind (generator_result fault AtGeneratorResult) (fun _ =>
  bind (drain fault) (fun _ =>
  bind (time_time fault clock AtEndTime) (fun end_ =>
  bind (assert_not_none (kind (stream_config self))) (fun stream_kind =>
  bind get_completed (fun completed =>
  ret (mkRunResult (executor_class (executor self))
         (connector_class (store self)) stream_kind
         (data_size_bytes config) (task_count config) (task_sleep config)
         (max_workers self) completed (clock AtStartTime) end_)))))).

(** An exception of the world outside the loop, or the missing stream kind. *)
Let late (e : exn) (s : state) : Prop :=
  (exists l, in_loop l = false /\ fault l = Some e) \/
  (kind (stream_config self) = None /\ e = AssertionError).

Lemma finish_outline R K s :
  outline R K s ->
  wp finish
     (fun _ s' => outline R (K ++ [AwaitedGenerator; TimeRead]) s' /\
                  running_tasks s' = [])
     late s.
Proof using Type.
  intros Hs. unfold finish, late. wp_unfold.
  wp_step. wp_step; [left; eexists; split; [|eassumption]; reflexivity|]. wp_step.
  wp_forget (outline R (K ++ [AwaitedGenerator])) ltac:(auto with outline).
  wp_step. apply wp_drain.
  eapply wp_mono; [apply drain_loop_outline; [lia | eassumption] | | intros; left; assumption].
  intros [] s2 [Hs2 Hd]. cbv beta.
  wp_step. wp_step; [left; eexists; split; [|eassumption]; reflexivity|]. wp_step.
  wp_forget (fun s' => outline R ((K ++ [AwaitedGenerator]) ++ [TimeRead]) s' /\
                       running_tasks s' = [])
    ltac:(split; [auto with outline | exact Hd]).
  wp_step. apply wp_assert_not_none.
  destruct (kind (stream_config self)) as [stream_kind|]; [|right; auto].
  wp_step. unfold get_completed, wp, ret.
  rewrite <- app_assoc in Hs1. exact Hs1.
Qed.

(** How [run] can return: without anything raised, or after one
    KeyboardInterrupt in the loop. *)
Lemma run_outline :
  wp (run fault clock self config)
     (fun _ s =>
        outline [] [StoreFuture; TimeRead; AwaitedGenerator; AwaitedGenerator; TimeRead] s \/
        exists i st,
          fault (InLoop i st) = Some KeyboardInterrupt /\
          outline [(InLoop i st, KeyboardInterrupt)]
            [StoreFuture; TimeRead; Warned; StopSet true;
             AwaitedGenerator; AwaitedGenerator; TimeRead] s)
     (fun _ _ => True) initial_state.
Proof using Type.
  assert (H0 : outline [] [] initial_state) by (split; reflexivity).
  unfold run.
  wp_step. apply wp_lift.
  destruct (truediv_float_int _ _) as [interval|e]; [|exact I].
  wp_step. apply wp_lift.
  destruct (pregenerate _ _ _ _) as [pregen|e]; [|exact I].
  wp_unfold.
  wp_step. wp_step; [exact I|]. wp_step.
  wp_forget (outline [] ([] ++ [StoreFuture])) ltac:(auto with outline).
  wp_step. wp_step; [exact I|]. wp_step.
  wp_forget (outline [] ([] ++ [StoreFuture])) ltac:(auto with outline).
  wp_step. apply wp_init_locals.
  wp_forget (outline [] ([] ++ [StoreFuture])) ltac:(auto with outline).
  wp_step. wp_step; [exact I|]. wp_step.
  wp_forget (outline [] (([] ++ [StoreFuture]) ++ [TimeRead])) ltac:(auto with outline).
  simpl app in *.
  change (wp (bind (try_except_finally
                      (consume fault (task_sleep config) (max_workers self - 1) 0 (consumer self))
                      (bind (logger_warning fault) (fun _ => set_result fault true))
                      (generator_result fault AtFinallyResult))
                   (fun _ => finish))
             (fun _ s =>
                outline [] [StoreFuture; TimeRead; AwaitedGenerator; AwaitedGenerator; TimeRead] s \/
                exists i st,
                  fault (InLoop i st) = Some KeyboardInterrupt /\
                  outline [(InLoop i st, KeyboardInterrupt)]
                    [StoreFuture; TimeRead; Warned; StopSet true;
                     AwaitedGenerator; AwaitedGenerator; TimeRead] s)
             (fun _ _ => True) s2).
  wp_step. apply wp_try.
  eapply wp_mono; [apply (consume_outline fault [StoreFuture; TimeRead]); assumption | |].
  - intros [] s3 Hs3. cbv beta. wp_unfold.
    wp_step; [exact I|]. wp_step.
    eapply wp_mono; [apply (finish_outline [] ([StoreFuture; TimeRead] ++ [AwaitedGenerator]));
                     auto with outline | | auto].
    intros r s4 [Hs4 _]. left. exact Hs4.
  - intros e s3 Hs3. cbv beta in Hs3.
    destruct e; try solve [eapply wp_mono; [apply wp_trivial | auto | auto]].
    apply left_by_outline in Hs3 as (i & st & Hl & Hs3).
    wp_unfold. wp_step. wp_step; [eapply wp_mono; [apply wp_trivial | auto | auto]|].
    wp_step.
    wp_forget (outline [(InLoop i st, KeyboardInterrupt)] ([StoreFuture; TimeRead] ++ [Warned]))
      ltac:(auto with outline).
    wp_step; [eapply wp_mono; [apply wp_trivial | auto | auto]|]. wp_step.
    wp_forget (outline [(InLoop i st, KeyboardInterrupt)]
                 (([StoreFuture; TimeRead] ++ [Warned]) ++ [StopSet true]))
      ltac:(auto with outline).
    wp_step; [exact I|]. wp_step.
    eapply wp_mono; [apply (finish_outline [(InLoop i st, KeyboardInterrupt)]
                       ((([StoreFuture; TimeRead] ++ [Warned]) ++ [StopSet true]) ++ [AwaitedGenerator]));
                     auto with outline | | auto].
    intros r s6 [Hs6 _]. right. exists i, st. split; [exact Hl | exact Hs6].
Qed.

Lemma finish_bracketed s :
  started (trace s) ->
  wp finish (fun _ s' => bracketed (trace s')) (fun _ _ => True) s.
Proof using Type.
  intros Hs. unfold finish. wp_unfold.
  wp_step. wp_step; [exact I|]. wp_step.
  wp_forget (fun s' => started (trace s')) ltac:(apply started_record; [reflexivity | exact Hs]).
  wp_step. apply wp_drain.
  eapply wp_mono;
    [apply (drain_loop_stable fault started); [|eassumption] | | auto].
  { intros tr en Hen. apply started_app. destruct (what en); try discriminate; reflexivity. }
  intros [] s2 Hs2. cbv beta.
  wp_step. wp_step; [exact I|]. wp_step.
  wp_forget (fun s' => bracketed (trace s'))
    ltac:(destruct Hs2 as (e1 & e2 & t1 & work & Htr & H1 & H2 & H3 & Hwork);
          simpl; rewrite Htr; eexists e1, e2, t1, work, _;
          repeat split; eauto).
  wp_step. apply wp_assert_not_none.
  destruct (kind (stream_config self)) as [stream_kind|]; [|exact I].
  wp_step. unfold get_completed, wp, ret. assumption.
Qed.

(** The two clock readings of a run that returns bracket all the work. *)
Lemma run_bracketed :
  wp (run fault clock self config)
     (fun _ s => bracketed (trace s)) (fun _ _ => True) initial_state.
Proof using Type.
  unfold run.
  wp_step. apply wp_lift.
  destruct (truediv_float_int _ _) as [interval|e]; [|exact I].
  wp_step. apply wp_lift.
  destruct (pregenerate _ _ _ _) as [pregen|e]; [|exact I].
  wp_unfold.
  wp_step. wp_step; [exact I|]. wp_step.
  wp_step. wp_step; [exact I|]. wp_step.
  wp_step. apply wp_init_locals.
  wp_step. wp_step; [exact I|]. wp_step.
  wp_forget (fun s' => started (trace s'))
    ltac:(simpl; eexists _, _, _, []; repeat split; eauto).
  match goal with
  | |- wp _ ?Q ?E ?s0 =>
      change (wp (bind (try_except_finally
                      (consume fault (task_sleep config) (max_workers self - 1) 0 (consumer self))
                      (bind (logger_warning fault) (fun _ => set_result fault true))
                      (generator_result fault AtFinallyResult))
                   (fun _ => finish)) Q E s0)
  end.
  wp_step. apply wp_try.
  eapply wp_mono; [apply (consume_stable fault started); [|eassumption] | |].
  - intros tr en Hen. apply started_app. destruct (what en); try discriminate; reflexivity.
  - intros [] s3 Hs3. cbv beta. wp_unfold.
    wp_step; [exact I|]. wp_step.
    apply finish_bracketed. apply started_record; [reflexivity | exact Hs3].
  - intros e s3 Hs3. cbv beta in Hs3.
    destruct e; try solve [eapply wp_mono; [apply wp_trivial | auto | auto]].
    wp_unfold. wp_step. wp_step; [eapply wp_mono; [apply wp_trivial | auto | auto]|].
    wp_step.
    wp_forget (fun s' => started (trace s')) ltac:(apply started_record; [reflexivity | exact Hs3]).
    wp_step; [eapply wp_mono; [apply wp_trivial | auto | auto]|]. wp_step.
    wp_forget (fun s' => started (trace s')) ltac:(apply started_record; [reflexivity | assumption]).
    wp_step; [exact I|]. wp_step.
    apply finish_bracketed. apply started_record; [reflexivity | assumption].
Qed.

Hypothesis quiet_outside : forall l, in_loop l = false -> fault l = None.
Hypothesis has_kind : kind (stream_config self) <> None.

(** With nothing failing outside the loop, [run] raises only what the
    arithmetic that opens it raises, or what a statement of the loop raised:
    the generator is then joined and nothing else is done. *)
Lemma run_failing :
  wp (run fault clock self config) (fun _ _ => True)
     (fun e s =>
        (trace s = [] /\ (e = ZeroDivisionError \/ e = OverflowError)) \/
        (e <> KeyboardInterrupt /\
         exists i st pre,
           fault (InLoop i st) = Some e /\
           trace s =
             pre ++ [mkEntry (Raised (InLoop i st) e) (running_tasks s) (completed_tasks s);
                     mkEntry AwaitedGenerator (running_tasks s) (completed_tasks s)] /\
           raised pre = [] /\ skeleton pre = [StoreFuture; TimeRead]))
     initial_state.
Proof using All.
  assert (H0 : outline [] [] initial_state) by (split; reflexivity).
  assert (Hlate : forall e s, late e s -> False).
  { intros e s [(l & Hl & He) | [Hk _]]; [|contradiction].
    rewrite quiet_outside in He by exact Hl. discriminate. }
  unfold run.
  wp_step. apply wp_lift.
  destruct (truediv_float_int _ _) as [interval|e] eqn:Hdiv.
  2:{ left. split; [reflexivity|]. eapply truediv_float_int_raises, Hdiv. }
  wp_step. apply wp_lift.
  destruct (pregenerate _ _ _ _) as [pregen|e] eqn:Hpre.
  2:{ left. split; [reflexivity|]. eapply pregenerate_raises, Hpre. }
  wp_unfold.
  wp_step. apply wp_stmt_quiet; [assumption|reflexivity|]. wp_step.
  wp_forget (outline [] ([] ++ [StoreFuture])) ltac:(auto with outline).
  wp_step. apply wp_stmt_quiet; [assumption|reflexivity|]. wp_step.
  wp_forget (outline [] ([] ++ [StoreFuture])) ltac:(auto with outline).
  wp_step. apply wp_init_locals.
  wp_forget (outline [] ([] ++ [StoreFuture])) ltac:(auto with outline).
  wp_step. apply wp_stmt_quiet; [assumption|reflexivity|]. wp_step.
  wp_forget (outline [] (([] ++ [StoreFuture]) ++ [TimeRead])) ltac:(auto with outline).
  simpl app in *.
  match goal with
  | |- wp _ ?Q ?E _ =>
      change (wp (bind (try_except_finally
                      (consume fault (task_sleep config) (max_workers self - 1) 0 (consumer self))
                      (bind (logger_warning fault) (fun _ => set_result fault true))
                      (generator_result fault AtFinallyResult))
                   (fun _ => finish)) Q E s2)
  end.
  wp_step. apply wp_try.
  eapply wp_mono; [apply (consume_outline fault [StoreFuture; TimeRead]); assumption | |].
  - intros [] s3 Hs3. cbv beta. wp_unfold.
    apply wp_stmt_quiet; [assumption|reflexivity|]. wp_step.
    eapply wp_mono; [apply (finish_outline [] ([StoreFuture; TimeRead] ++ [AwaitedGenerator]));
                     auto with outline | auto |].
    intros e s4 He. exfalso. eapply Hlate, He.
  - intros e s3 Hs3. cbv beta in Hs3.
    assert (Hother : e <> KeyboardInterrupt ->
              wp (generator_result fault AtFinallyResult)
                 (fun _ s4 =>
                    (trace s4 = [] /\ (e = ZeroDivisionError \/ e = OverflowError)) \/
                    (e <> KeyboardInterrupt /\
                     exists i st pre,
                       fault (InLoop i st) = Some e /\
                       trace s4 =
                         pre ++ [mkEntry (Raised (InLoop i st) e) (running_tasks s4) (completed_tasks s4);
                                 mkEntry AwaitedGenerator (running_tasks s4) (completed_tasks s4)] /\
                       raised pre = [] /\ skeleton pre = [StoreFuture; TimeRead]))
                 (fun e' s4 =>
                    (trace s4 = [] /\ (e' = ZeroDivisionError \/ e' = OverflowError)) \/
                    (e' <> KeyboardInterrupt /\
                     exists i st pre,
                       fault (InLoop i st) = Some e' /\
                       trace s4 =
                         pre ++ [mkEntry (Raised (InLoop i st) e') (running_tasks s4) (completed_tasks s4);
                                 mkEntry AwaitedGenerator (running_tasks s4) (completed_tasks s4)] /\
                       raised pre = [] /\ skeleton pre = [StoreFuture; TimeRead]))
                 s3).
    { intros Hne. destruct Hs3 as (i & st & pre & Hl & Htr & Hr & Hk).
      wp_unfold. apply wp_stmt_quiet; [assumption|reflexivity|]. wp_step.
      right. split; [exact Hne|]. exists i, st, pre.
      split; [exact Hl|]. split; [|auto].
      simpl. rewrite Htr, <- app_assoc. reflexivity. }
    destruct e; try (apply Hother; discriminate).
    apply left_by_outline in Hs3 as (i & st & Hl & Hs3).
    wp_unfold. wp_step. apply wp_stmt_quiet; [assumption|reflexivity|]. wp_step.
    wp_forget (outline [(InLoop i st, KeyboardInterrupt)] ([StoreFuture; TimeRead] ++ [Warned]))
      ltac:(auto with outline).
    apply wp_stmt_quiet; [assumption|reflexivity|]. wp_step.
    wp_forget (outline [(InLoop i st, KeyboardInterrupt)]
                 (([StoreFuture; TimeRead] ++ [Warned]) ++ [StopSet true]))
      ltac:(auto with outline).
    apply wp_stmt_quiet; [assumption|reflexivity|]. wp_step.
    eapply wp_mono; [apply (finish_outline [(InLoop i st, KeyboardInterrupt)]
                       ((([StoreFuture; TimeRead] ++ [Warned]) ++ [StopSet true]) ++ [AwaitedGenerator]));
                     auto with outline | auto |].
    intros e s6 He. exfalso. eapply Hlate, He.
Qed.

End Outline.

(** X3: [run] returns only if nothing at all was raised, or if the one
    thing raised was a KeyboardInterrupt at a statement of the loop. Outside
    the loop and the drain it then created the stop future, read the clock,
    joined the generator task twice and read the clock again, and after an
    interrupt it logged the warning and set the stop future to [True] before
    the first join. *)
Theorem only_loop_interrupt_is_swallowed fault clock self config r s :
  run fault clock self config initial_state = (Returns r, s) ->
  (raised (trace s) = [] /\
   skeleton (trace s) =
     [StoreFuture; TimeRead; AwaitedGenerator; AwaitedGenerator; TimeRead]) \/
  (exists i st,
     fault (InLoop i st) = Some KeyboardInterrupt /\
     raised (trace s) = [(InLoop i st, KeyboardInterrupt)] /\
     skeleton (trace s) =
       [StoreFuture; TimeRead; Warned; StopSet true;
        AwaitedGenerator; AwaitedGenerator; TimeRead]).
Proof.
  intros Hrun.
  destruct (wp_returns _ _ _ _ _ _ (run_outline fault clock self config) Hrun)
    as [H | (i & st & Hl & Hr & Hk)]; [left; exact H | right; eauto].
Qed.

Lemma only_loop_interrupt_is_swallowed_witness :
  exists r s,
    run interrupting_world demo_clock demo_benchmark demo_config initial_state =
      (Returns r, s) /\
    ((raised (trace s) = [] /\
      skeleton (trace s) =
        [StoreFuture; TimeRead; AwaitedGenerator; AwaitedGenerator; TimeRead]) \/
     (exists i st,
        interrupting_world (InLoop i st) = Some KeyboardInterrupt /\
        raised (trace s) = [(InLoop i st, KeyboardInterrupt)] /\
        skeleton (trace s) =
          [StoreFuture; TimeRead; Warned; StopSet true;
           AwaitedGenerator; AwaitedGenerator; TimeRead])).
Proof.
  eexists _, _. split; [vm_compute; reflexivity|].
  eapply (only_loop_interrupt_is_swallowed interrupting_world demo_clock
            demo_benchmark demo_config).
  vm_compute. reflexivity.
Defined.

(** X7: when nothing fails outside the loop and the stream configuration
    has a kind, [run] raises either before it did anything, on its opening
    arithmetic, or what a statement of the loop raised, which is then not a
    KeyboardInterrupt; in that case the generator task is joined and that is
    all: the stop future is not set and the futures left in the deque are not
    awaited. *)
Theorem task_failure_aborts_without_drain fault clock self config e s :
  (forall l, in_loop l = false -> fault l = None) ->
  kind (stream_config self) <> None ->
  run fault clock self config initial_state = (Raises e, s) ->
  (trace s = [] /\ (e = ZeroDivisionError \/ e = OverflowError)) \/
  (e <> KeyboardInterrupt /\
   exists i st pre,
     fault (InLoop i st) = Some e /\
     trace s =
       pre ++ [mkEntry (Raised (InLoop i st) e) (running_tasks s) (completed_tasks s);
               mkEntry AwaitedGenerator (running_tasks s) (completed_tasks s)] /\
     raised pre = [] /\ skeleton pre = [StoreFuture; TimeRead]).
Proof.
  intros Hquiet Hkind Hrun.
  exact (wp_raises _ _ _ _ _ _ (run_failing fault clock self config Hquiet Hkind) Hrun).
Qed.

Lemma task_failure_aborts_without_drain_witness :
  exists s,
    run failing_world demo_clock demo_benchmark demo_config initial_state =
      (Raises (RuntimeError "task failed"), s) /\
    running_tasks s = [2%nat] /\
    ((trace s = [] /\
      (RuntimeError "task failed" = ZeroDivisionError \/
       RuntimeError "task failed" = OverflowError)) \/
     (RuntimeError "task failed" <> KeyboardInterrupt /\
      exists i st pre,
        failing_world (InLoop i st) = Some (RuntimeError "task failed") /\
        trace s =
          pre ++ [mkEntry (Raised (InLoop i st) (RuntimeError "task failed"))
                    (running_tasks s) (completed_tasks s);
                  mkEntry AwaitedGenerator (running_tasks s) (completed_tasks s)] /\
        raised pre = [] /\ skeleton pre = [StoreFuture; TimeRead])).
Proof.
  eexists. split; [vm_compute; reflexivity|]. split; [reflexivity|].
  eapply (task_failure_aborts_without_drain failing_world demo_clock
            demo_benchmark demo_config).
  - intros l Hl. destruct l; try reflexivity. discriminate.
  - discriminate.
  - vm_compute. reflexivity.
Defined.

(** X19: in a run that returns, the clock is read exactly twice: right
    after the stop future was created and the generator task submitted, and
    at the very end. Every item taken, every task submitted and every future
    awaited lies between the two readings, and they are the start and end
    timestamps of the result. *)
Theorem clock_reads_bracket_the_work fault clock self config r s :
  run fault clock self config initial_state = (Returns r, s) ->
  bracketed (trace s) /\
  res_start_submit_tasks_timestamp r = clock AtStartTime /\
  res_end_tasks_done_timestamp r = clock AtEndTime.
Proof.
  intros Hrun. split.
  - exact (wp_returns _ _ _ _ _ _ (run_bracketed fault clock self config) Hrun).
  - destruct (wp_returns _ _ _ _ _ _ (run_result fault clock self config) Hrun)
      as (stream_kind & _ & ->).
    split; reflexivity.
Qed.

Lemma clock_reads_bracket_the_work_witness :
  exists r s,
    run quiet_world demo_clock demo_benchmark demo_config initial_state =
      (Returns r, s) /\
    bracketed (trace s) /\
    res_start_submit_tasks_timestamp r = 0%float /\
    res_end_tasks_done_timestamp r = 5%float.
Proof.
  eexists _, _. split; [vm_compute; reflexivity|].
  eapply (clock_reads_bracket_the_work quiet_world demo_clock demo_benchmark demo_config).
  vm_compute. reflexivity.
Defined.

Lemma outstanding_snoc tr en :
  outstanding (tr ++ [en]) =
  outstanding tr +
  match what en with
  | SubmittedCompute _ _ _ => 1
  | Awaited _ => -1
  | _ => 0
  end.
Proof.
  unfold outstanding, submitted, awaited. rewrite !flat_map_app, !length_app. simpl.
  destruct (what en); simpl; lia.
Qed.

Lemma capped_nil cw : 0 <= cw -> capped cw [].
Proof.
  intros Hcw pre post Heq. symmetry in Heq. apply app_eq_nil in Heq as [-> ->].
  split; [exact Hcw | discriminate].
Qed.

Lemma capped_now cw tr : capped cw tr -> outstanding tr <= cw.
Proof. intros H. apply (H tr []). rewrite app_nil_r. reflexivity. Qed.

Lemma capped_snoc cw tr en :
  capped cw tr ->
  (is_submission (what en) = true -> outstanding tr < cw) ->
  outstanding (tr ++ [en]) <= cw ->
  capped cw (tr ++ [en]).
Proof.
  intros Htr Hsub Hnew pre post Heq.
  induction post as [|en0 post0 _] using rev_ind.
  - rewrite app_nil_r in Heq. subst pre. split; [exact Hnew | discriminate].
  - rewrite app_assoc in Heq. apply app_inj_tail in Heq as [-> <-].
    destruct (Htr pre post0 eq_refl) as [Hle Hnext]. split; [exact Hle|].
    intros en' post' Hpost Hen'. destruct post0 as [|x post0].
    + simpl in Hpost. injection Hpost as <- <-. rewrite app_nil_r in Hsub. auto.
    + simpl in Hpost. injection Hpost as <- <-. eapply Hnext; [reflexivity | exact Hen'].
Qed.

Lemma capped_keep cw ev s :
  is_submission ev = false ->
  capped cw (trace s) -> capped cw (trace (record ev s)).
Proof.
  intros Hev Hs. simpl. apply capped_snoc; [exact Hs | simpl; congruence |].
  rewrite outstanding_snoc. simpl. pose proof (capped_now _ _ Hs).
  destruct ev; try discriminate; lia.
Qed.

Lemma outstanding_keep ev s :
  match ev with SubmittedCompute _ _ _ | Awaited _ => False | _ => True end ->
  outstanding (trace (record ev s)) = outstanding (trace s).
Proof.
  intros Hev. simpl. rewrite outstanding_snoc. simpl.
  destruct ev; try contradiction; lia.
Qed.

Lemma consume_capped fault sleep cw items : forall i s,
  capped cw (trace s) ->
  outstanding (trace s) = Z.of_nat (length (running_tasks s)) ->
  Z.of_nat (length (running_tasks s)) < cw ->
  wp (consume fault sleep cw i items)
     (fun _ s' => capped cw (trace s')) (fun _ s' => capped cw (trace s')) s.
Proof.
  induction items as [|item rest IH]; intros i s Hc Ho Hlt; simpl; wp_unfold.
  - wp_step; [apply capped_keep; [reflexivity | exact Hc]|]. wp_step.
    apply capped_keep; [reflexivity | exact Hc].
  - wp_step. wp_step; [apply capped_keep; [reflexivity | exact Hc]|]. wp_step.
    wp_forget (fun s' => capped cw (trace s') /\
                 outstanding (trace s') = Z.of_nat (length (running_tasks s')) /\
                 Z.of_nat (length (running_tasks s')) < cw)
      ltac:(split; [apply capped_keep; [reflexivity | exact Hc]|];
            split; [rewrite outstanding_keep by exact I; exact Ho | exact Hlt]).
    clear Hc Ho Hlt. destruct Hs as (Hc & Ho & Hlt).
    wp_step. wp_step; [apply capped_keep; [reflexivity | exact Hc]|].
    wp_step. wp_step; [apply capped_keep; [reflexivity | exact Hc]|]. wp_step.
    wp_forget (fun s' => capped cw (trace s') /\
                 outstanding (trace s') = Z.of_nat (length (running_tasks s')) + 1 /\
                 Z.of_nat (length (running_tasks s')) < cw)
      ltac:(split; [simpl; apply capped_snoc; [exact Hc | intros _; lia |];
                    rewrite outstanding_snoc; simpl; lia|];
            split; [simpl; rewrite outstanding_snoc; simpl; lia | exact Hlt]).
    clear Hc Ho Hlt. destruct Hs as (Hc & Ho & Hlt).
    wp_step. wp_step; [apply capped_keep; [reflexivity | exact Hc]|]. wp_step.
    wp_forget (fun s' => capped cw (trace s') /\
                 outstanding (trace s') = Z.of_nat (length (running_tasks s')) /\
                 Z.of_nat (length (running_tasks s')) <= cw /\
                 running_tasks s' <> [])
      ltac:(split; [apply (capped_keep cw (Appended i)
                             (mkState (completed_tasks s1) (running_tasks s1 ++ [i]) (trace s1)));
                    [reflexivity | exact Hc]|];
            split; [simpl; rewrite outstanding_snoc, length_app; simpl; lia|];
            split; [simpl; rewrite length_app; simpl; lia|];
            simpl; intros Hnil; apply app_eq_nil in Hnil as [_ Hnil]; discriminate).
    clear Hc Ho Hlt. destruct Hs as (Hc & Ho & Hle & Hne).
    wp_step. wp_step. wp_step.
    destruct (Z.leb_spec cw (Z.of_nat (length (running_tasks s2)))) as [Hfull|Hroom].
    + wp_step. wp_step; [apply capped_keep; [reflexivity | exact Hc]|].
      wp_step; [contradiction|].
      wp_forget (fun s' => capped cw (trace s') /\
                   outstanding (trace s') = Z.of_nat (length (running_tasks s')) + 1 /\
                   Z.of_nat (length (running_tasks s')) < cw)
        ltac:(match goal with H : running_tasks _ = _ :: _ |- _ => rewrite H in * end;
              split; [apply (capped_keep cw (Popped f)
                               (mkState (completed_tasks s2) rest0 (trace s2)));
                      [reflexivity | exact Hc]|];
              simpl in *; rewrite outstanding_snoc; simpl; lia).
      clear Hc Ho Hle Hne Hfull. destruct Hs as (Hc & Ho & Hlt).
      wp_step. wp_step; [apply capped_keep; [reflexivity | exact Hc]|]. wp_step.
      wp_forget (fun s' => capped cw (trace s') /\
                   outstanding (trace s') = Z.of_nat (length (running_tasks s')) /\
                   Z.of_nat (length (running_tasks s')) < cw)
        ltac:(split; [apply capped_keep; [reflexivity | exact Hc]|];
              simpl; rewrite outstanding_snoc; simpl; lia).
      clear Hc Ho Hlt. destruct Hs as (Hc & Ho & Hlt).
      wp_step; [apply capped_keep; [reflexivity | exact Hc]|]. wp_step.
      apply IH.
      * apply (capped_keep cw Counted
                 (mkState (completed_tasks s4 + 1) (running_tasks s4) (trace s4)));
          [reflexivity | exact Hc].
      * simpl. rewrite outstanding_snoc. simpl. lia.
      * exact Hlt.
    + wp_step. apply IH; assumption.
Qed.

(** With two workers or more, the futures in flight stay within the cap
    wherever [run] stops. *)
Lemma run_capped fault clock self config :
  2 <= max_workers self ->
  wp (run fault clock self config)
     (fun _ s => capped (max_workers self - 1) (trace s))
     (fun _ s => capped (max_workers self - 1) (trace s)) initial_state.
Proof.
  intros Hmw. set (cw := max_workers self - 1).
  set (ok := fun s : state => capped cw (trace s)).
  assert (Hkeep : forall ev s, is_submission ev = false -> ok s -> ok (record ev s)).
  { intros ev s Hev Hs. apply capped_keep; assumption. }
  eapply wp_mono;
    [apply (run_invariant fault clock self config
              (fun s => ok s /\ outstanding (trace s) = 0)
              (fun s => ok s /\
                        outstanding (trace s) = Z.of_nat (length (running_tasks s)) /\
                        Z.of_nat (length (running_tasks s)) < cw)
              ok ok (fun _ => ok))
    | intros r s [Hs _]; exact Hs | auto]; fold cw; unfold ok.
  - split; [apply capped_nil; unfold cw; lia | reflexivity].
  - intros. apply capped_nil. unfold cw. lia.
  - intros. apply capped_nil. unfold cw. lia.
  - intros ev s Hev [Hs Ho]. split.
    + apply Hkeep; [destruct ev; try discriminate; reflexivity | exact Hs].
    + rewrite outstanding_keep; [exact Ho | destruct ev; try discriminate; exact I].
  - intros interval pregen s _ _ [Hs Ho]. split.
    + apply Hkeep; [reflexivity | exact Hs].
    + rewrite outstanding_keep; [exact Ho | exact I].
  - intros l e s _ _ [Hs _]. apply Hkeep; [reflexivity | exact Hs].
  - intros s [Hs Ho]. split; [exact Hs|]. simpl. split; [exact Ho | unfold cw; lia].
  - intros ev s Hev (Hs & Ho & Hlt). split; [|split].
    + apply Hkeep; [destruct ev; try discriminate; reflexivity | exact Hs].
    + rewrite outstanding_keep; [exact Ho | destruct ev; try discriminate; exact I].
    + exact Hlt.
  - intros l e s _ _ (Hs & _). apply Hkeep; [reflexivity | exact Hs].
  - intros s (Hs & Ho & Hlt). apply consume_capped; assumption.
  - intros ev s Hev Hs. apply Hkeep; [destruct ev; try discriminate; reflexivity | exact Hs].
  - intros l e s _ _ Hs. apply Hkeep; [reflexivity | exact Hs].
  - auto.
  - intros e ev s Hev Hs. apply Hkeep; [destruct ev; try discriminate; reflexivity | exact Hs].
  - intros e0 l e s _ _ Hs. apply Hkeep; [reflexivity | exact Hs].
  - intros s Hs. apply wp_drain.
    apply (drain_loop_stable fault (capped cw)); [|exact Hs].
    intros tr en Hen Htr. apply capped_snoc; [exact Htr | |].
    + destruct (what en); discriminate.
    + rewrite outstanding_snoc. pose proof (capped_now _ _ Htr).
      destruct (what en); try discriminate; lia.
  - intros ev s Hev Hs. apply Hkeep; [destruct ev; try discriminate; reflexivity | exact Hs].
  - intros l e s _ _ Hs. apply Hkeep; [reflexivity | exact Hs].
  - auto.
Qed.

(** C1, as the code has it: on an executor with at least one worker, at no
    point of any execution of [run] does the deque hold more than
    [max_workers - 1] futures, nor are more than [max_workers - 1] futures in
    flight, submitted and not yet awaited; and both numbers are below
    [max_workers - 1] whenever a compute task is submitted next: once an
    append brings the deque to the cap, the oldest future is popped and
    awaited before the next submission. *)
Theorem in_flight_capped fault clock self config :
  1 <= max_workers self ->
  let tr := trace (snd (run fault clock self config initial_state)) in
  Forall (entry_within (max_workers self - 1)) tr /\
  capped (max_workers self - 1) tr.
Proof.
  intros Hmw tr. subst tr.
  destruct (Z.eq_dec (max_workers self) 1) as [H1|H1].
  - rewrite run_single_worker by exact H1. rewrite H1. simpl.
    split; [constructor | apply capped_nil; lia].
  - split.
    + apply (wp_snd (run fault clock self config) (within (max_workers self - 1))).
      apply run_within. lia.
    + apply (wp_snd (run fault clock self config)
               (fun s => capped (max_workers self - 1) (trace s))).
      apply run_capped. lia.
Qed.

Lemma in_flight_capped_witness :
  1 <= max_workers demo_benchmark /\
  Forall (entry_within (max_workers demo_benchmark - 1))
    (trace (snd (run quiet_world demo_clock demo_benchmark demo_config initial_state))) /\
  capped (max_workers demo_benchmark - 1)
    (trace (snd (run quiet_world demo_clock demo_benchmark demo_config initial_state))).
Proof.
  split; [simpl; lia|].
  apply (in_flight_capped quiet_world demo_clock demo_benchmark demo_config).
  simpl. lia.
Defined.

(** C1 as stated fails for an executor that reports no workers: each append
    then leaves one future in the deque, more than [max_workers - 1]. *)
Lemma deque_exceeds_cap_without_workers :
  Exists (fun en =>
            max_workers workerless_benchmark - 1 < Z.of_nat (length (deque_then en)))
    (trace (snd (run quiet_world demo_clock workerless_benchmark demo_config
                   initial_state))).
Proof.
  assert (Hex : Exists
            (fun en =>
               (max_workers workerless_benchmark - 1 <?
                Z.of_nat (length (deque_then en))) = true)
            (trace (snd (run quiet_world demo_clock workerless_benchmark demo_config
                           initial_state)))).
  { vm_compute. repeat first [apply Exists_cons_hd; reflexivity | apply Exists_cons_tl]. }
  eapply Exists_impl; [exact Hex|].
  intros en Hen. apply Z.ltb_lt in Hen. exact Hen.
Qed.

(** *** The spec's side of pre-generation, in IEEE 754 terms *)

Lemma float_of_int_python_float z :
  float_of_int z =
  if PrimFloat.is_infinity (python_float z) then Raises OverflowError
  else Returns (python_float z).
Proof. reflexivity. Qed.

Lemma pregenerate_spec size interval example_size example_time b :
  pregenerate size interval example_size example_time = Returns b <->
  generation_time_defined size example_size example_time /\
  b = SFltb (Prim2SF interval)
            (expected_generation_time size example_size example_time).
Proof.
  unfold pregenerate, truediv_int_float, float_div, gt,
    generation_time_defined, expected_generation_time, example_rate, fits_float.
  rewrite !float_of_int_python_float.
  change (S754_zero false) with (Prim2SF 0).
  rewrite <- !FloatAxioms.div_spec, <- !FloatAxioms.eqb_spec, <- FloatAxioms.ltb_spec.
  destruct (PrimFloat.is_infinity (python_float example_size)); simpl.
  { split; [discriminate | intros [(_ & H & _) _]; discriminate]. }
  destruct (PrimFloat.eqb example_time 0); simpl.
  { split; [discriminate | intros [(_ & _ & H & _) _]; discriminate]. }
  destruct (PrimFloat.is_infinity (python_float size)); simpl.
  { split; [discriminate | intros [(H & _) _]; discriminate]. }
  destruct (PrimFloat.eqb (python_float example_size / example_time) 0); simpl.
  { split; [discriminate | intros [(_ & _ & _ & H) _]; discriminate]. }
  split; [intros [= <-]; auto | intros [_ ->]; reflexivity].
Qed.

Lemma truediv_float_int_python_float a b :
  b <> 0 -> fits_float b ->
  truediv_float_int a b = Returns (PrimFloat.div a (python_float b)).
Proof.
  intros Hb Hfits. unfold truediv_float_int.
  destruct (Z.eqb_spec b 0) as [|_]; [contradiction|].
  rewrite float_of_int_python_float, Hfits. reflexivity.
Qed.

Lemma truediv_float_int_returns a b interval :
  truediv_float_int a b = Returns interval ->
  interval = PrimFloat.div a (python_float b).
Proof.
  unfold truediv_float_int. destruct (b =? 0); [discriminate|].
  rewrite float_of_int_python_float.
  destruct (PrimFloat.is_infinity (python_float b)); simpl; [discriminate|].
  intros [= <-]. reflexivity.
Qed.

Lemma pregenerate_default_returns size interval :
  fits_float size ->
  exists b,
    pregenerate size interval example_size_default example_time_default = Returns b.
Proof.
  intros Hfits. unfold pregenerate. rewrite default_example_rate. simpl.
  unfold truediv_int_float. rewrite float_of_int_python_float, Hfits. simpl.
  unfold float_div.
  replace (PrimFloat.eqb 400000000 0) with false by (vm_compute; reflexivity).
  eauto.
Qed.

Lemma generator_requests_snoc tr en :
  generator_requests (tr ++ [en]) =
  generator_requests tr ++
  match what en with SubmittedGenerator kw => [kw] | _ => [] end.
Proof.
  unfold generator_requests. rewrite flat_map_app. simpl. rewrite app_nil_r. reflexivity.
Qed.

(** Once the stop future is made and the generator task submitted, the
    request stays the only one, whatever happens next. *)
Lemma run_submits_generator fault clock self config interval pregen :
  truediv_float_int (task_sleep config) (max_workers self - 1) = Returns interval ->
  pregenerate (data_size_bytes config) interval
    example_size_default example_time_default = Returns pregen ->
  fault AtStoreFuture = None ->
  fault AtSubmitGenerator = None ->
  generator_requests (trace (snd (run fault clock self config initial_state))) =
  [generator_kwargs self config interval pregen].
Proof.
  intros Hdiv Hpre Hsf Hsg.
  set (P := fun tr : list entry =>
              generator_requests tr = [generator_kwargs self config interval pregen]).
  assert (HP : forall tr en,
            match what en with SubmittedGenerator _ => False | _ => True end ->
            P tr -> P (tr ++ [en])).
  { intros tr en Hen Htr. unfold P. rewrite generator_requests_snoc, Htr.
    destruct (what en); try contradiction; reflexivity. }
  assert (Hrec : forall ev s,
            match ev with SubmittedGenerator _ => False | _ => True end ->
            P (trace s) -> P (trace (record ev s))).
  { intros ev s Hev Hs. apply (HP (trace s)); assumption. }
  apply (wp_snd (run fault clock self config) (fun s => P (trace s))).
  unfold run.
  wp_step. apply wp_lift. rewrite Hdiv.
  wp_step. apply wp_lift. rewrite Hpre.
  wp_unfold.
  wp_step. wp_step; [congruence|]. wp_step.
  wp_step. wp_step; [congruence|]. wp_step.
  wp_forget (fun s => P (trace s)) ltac:(reflexivity).
  wp_step. apply wp_init_locals.
  wp_forget (fun s => P (trace s)) ltac:(assumption).
  wp_step. wp_step; [apply Hrec; [exact I | assumption]|]. wp_step.
  wp_forget (fun s => P (trace s)) ltac:(apply Hrec; [exact I | assumption]).
  wp_step. apply wp_try.
  eapply wp_mono; [apply (consume_stable fault P); [|eassumption] | |].
  { intros tr en Hen. apply HP. destruct (what en); try discriminate; exact I. }
  - intros [] s3 Hs3. cbv beta. wp_unfold.
    wp_step; [apply Hrec; [exact I | assumption]|]. wp_step.
    wp_forget (fun s => P (trace s)) ltac:(apply Hrec; [exact I | assumption]).
    wp_step. wp_step; [apply Hrec; [exact I | assumption]|]. wp_step.
    wp_forget (fun s => P (trace s)) ltac:(apply Hrec; [exact I | assumption]).
    wp_step. apply wp_drain.
    eapply wp_mono; [apply (drain_loop_stable fault P); [|eassumption] | | auto].
    { intros tr en Hen. apply HP. destruct (what en); try discriminate; exact I. }
    intros [] s6 Hs6. cbv beta.
    wp_step. wp_step; [apply Hrec; [exact I | assumption]|]. wp_step.
    wp_forget (fun s => P (trace s)) ltac:(apply Hrec; [exact I | assumption]).
    wp_step. apply wp_assert_not_none.
    destruct (kind (stream_config self)); [|assumption].
    wp_step. unfold get_completed, wp, ret. assumption.
  - intros e s3 Hs3. cbv beta in Hs3.
    assert (Hfin : forall st, P (trace st) ->
              wp (generator_result fault AtFinallyResult)
                 (fun _ s4 => P (trace s4)) (fun _ s4 => P (trace s4)) st).
    { intros st Hst. wp_unfold. wp_step; [apply Hrec; [exact I | assumption]|].
      wp_step. apply Hrec; [exact I | assumption]. }
    destruct e; try (apply Hfin; exact Hs3).
    wp_unfold. wp_step. wp_step; [apply Hfin, Hrec; [exact I | assumption]|].
    wp_step.
    wp_forget (fun s => P (trace s)) ltac:(apply Hrec; [exact I | assumption]).
    wp_step; [apply Hfin, Hrec; [exact I | assumption]|]. wp_step.
    wp_forget (fun s => P (trace s)) ltac:(apply Hrec; [exact I | assumption]).
    eapply wp_mono; [apply Hfin; assumption | | auto].
    intros [] s6 Hs6. cbv beta.
    wp_unfold.
    wp_step. wp_step; [apply Hrec; [exact I | assumption]|]. wp_step.
    wp_forget (fun s => P (trace s)) ltac:(apply Hrec; [exact I | assumption]).
    wp_step. apply wp_drain.
    eapply wp_mono; [apply (drain_loop_stable fault P); [|eassumption] | | auto].
    { intros tr en Hen. apply HP. destruct (what en); try discriminate; exact I. }
    intros [] s8 Hs8. cbv beta.
    wp_step. wp_step; [apply Hrec; [exact I | assumption]|]. wp_step.
    wp_forget (fun s => P (trace s)) ltac:(apply Hrec; [exact I | assumption]).
    wp_step. apply wp_assert_not_none.
    destruct (kind (stream_config self)); [|assumption].
    wp_step. unfold get_completed, wp, ret. assumption.
Qed.

(** C8: [pregenerate] returns [True] exactly when the expected generation
    time, the IEEE 754 quotient [size / (example_size / example_time)], is
    defined and strictly greater than the interval, and [False] exactly when
    it is defined and not greater. Every request [run] makes of the generator
    task carries the interval [task_sleep / (max_workers - 1)], the
    configured data size and, as its pre-generation flag, that answer for the
    two; and [run] makes exactly one such request when the interval
    arithmetic is defined and neither the stop future nor the submission
    fails. *)
Theorem pregenerate_iff_generation_outlasts_interval :
  (forall size interval example_size example_time,
     (pregenerate size interval example_size example_time = Returns true <->
      generation_outlasts_interval size interval example_size example_time) /\
     (pregenerate size interval example_size example_time = Returns false <->
      generation_time_defined size example_size example_time /\
      ~ generation_outlasts_interval size interval example_size example_time)) /\
  (forall fault clock self config,
     let requests :=
       generator_requests (trace (snd (run fault clock self config initial_state))) in
     (forall kw,
        In kw requests ->
        gen_interval kw = producer_interval self config /\
        gen_item_size_bytes kw = data_size_bytes config /\
        (gen_pregenerate kw = true <->
         generation_outlasts_interval (data_size_bytes config)
           (producer_interval self config)
           example_size_default example_time_default)) /\
     (max_workers self <> 1 ->
      fits_float (max_workers self - 1) ->
      fits_float (data_size_bytes config) ->
      fault AtStoreFuture = None ->
      fault AtSubmitGenerator = None ->
      exists kw, requests = [kw])).
Proof.
  split.
  - intros size interval example_size example_time.
    unfold generation_outlasts_interval. rewrite !pregenerate_spec. split.
    + split; [intros [Hd Hb]; auto | intros [Hd Hb]; auto].
    + split.
      * intros [Hd Hb]. split; [exact Hd|]. intros [_ Hlt]. congruence.
      * intros [Hd Hn]. split; [exact Hd|].
        destruct (SFltb _ _); [exfalso; apply Hn; auto | reflexivity].
  - intros fault clock self config requests. split.
    + intros kw Hin. unfold requests, generator_requests in Hin.
      apply in_flat_map in Hin as (en & Hen & Hkw).
      pose proof (wp_snd _ _ _ (run_generator_request fault clock self config)) as Hall.
      unfold all_events in Hall. rewrite Forall_forall in Hall.
      apply list_elem_of_In in Hen. specialize (Hall en Hen).
      destruct (what en); try contradiction.
      destruct Hkw as [<- | []].
      destruct Hall as (interval & pregen & Hdiv & Hpre & ->). simpl.
      apply truediv_float_int_returns in Hdiv. fold (producer_interval self config) in Hdiv.
      subst interval. split; [reflexivity|]. split; [reflexivity|].
      apply pregenerate_spec in Hpre as [Hd ->].
      unfold generation_outlasts_interval. split; [intros H; auto | intros [_ H]; exact H].
    + intros Hmw Hfw Hfs Hsf Hsg.
      assert (Hdiv := truediv_float_int_python_float (task_sleep config)
                        (max_workers self - 1) ltac:(lia) Hfw).
      destruct (pregenerate_default_returns (data_size_bytes config)
                  (PrimFloat.div (task_sleep config) (python_float (max_workers self - 1)))
                  Hfs) as [pregen Hpre].
      eexists. unfold requests.
      apply (run_submits_generator fault clock self config _ pregen Hdiv Hpre Hsf Hsg).
Qed.

Lemma pregenerate_iff_generation_outlasts_interval_witness :
  exists kw,
    generator_requests
      (trace (snd (run quiet_world demo_clock demo_benchmark bulky_config
                     initial_state))) = [kw] /\
    gen_pregenerate kw = true /\
    generation_outlasts_interval (data_size_bytes bulky_config)
      (producer_interval demo_benchmark bulky_config)
      example_size_default example_time_default.
Proof.
  destruct (proj2 pregenerate_iff_generation_outlasts_interval
              quiet_world demo_clock demo_benchmark bulky_config) as [Hall Hone].
  destruct Hone as [kw Hkw];
    [discriminate | vm_compute; reflexivity | vm_compute; reflexivity
    | reflexivity | reflexivity |].
  exists kw. split; [exact Hkw|].
  assert (Hout : generation_outlasts_interval (data_size_bytes bulky_config)
                   (producer_interval demo_benchmark bulky_config)
                   example_size_default example_time_default).
  { vm_compute. repeat split; reflexivity. }
  split; [|exact Hout].
  apply (Hall kw); [rewrite Hkw; left; reflexivity | exact Hout].
Defined.

Lemma truediv_float_int_zero a b :
  truediv_float_int a b = Raises ZeroDivisionError -> b = 0.
Proof.
  intros H. destruct (Z.eq_dec b 0) as [Hb|Hb]; [exact Hb|].
  exfalso. exact (truediv_float_int_nonzero a b Hb H).
Qed.

Lemma raised_by_world_raise fault l e s :
  fault l = Some e -> raised_by_world fault e (record (Raised l e) s).
Proof. intros Hl. exists l, (raised (trace s)). rewrite raised_record. auto. Qed.

Lemma raised_by_world_record fault e ev s :
  match ev with Raised _ _ => False | _ => True end ->
  raised_by_world fault e s -> raised_by_world fault e (record ev s).
Proof.
  intros Hev (l & R & Hr & Hl). exists l, R. rewrite raised_record, Hr.
  destruct ev; try contradiction; rewrite app_nil_r; auto.
Qed.

Lemma consume_caused fault sleep cw items : forall i s,
  wp (consume fault sleep cw i items) (fun _ _ => True) (raised_by_world fault) s.
Proof.
  induction items as [|item rest IH]; intros i s; simpl; wp_unfold.
  - wp_step; [apply raised_by_world_raise; assumption|]. wp_step. exact I.
  - wp_step. wp_step; [apply raised_by_world_raise; assumption|]. wp_step.
    wp_step. wp_step; [apply raised_by_world_raise; assumption|].
    wp_step. wp_step; [apply raised_by_world_raise; assumption|]. wp_step.
    wp_step. wp_step; [apply raised_by_world_raise; assumption|]. wp_step.
    wp_forget (fun s => running_tasks s <> [])
      ltac:(simpl; intros Hnil; apply app_eq_nil in Hnil as [_ Hnil]; discriminate).
    wp_step. wp_step. wp_step.
    destruct (cw <=? _).
    + wp_step. wp_step; [apply raised_by_world_raise; assumption|].
      wp_step; [contradiction|].
      wp_step. wp_step; [apply raised_by_world_raise; assumption|]. wp_step.
      wp_step; [apply raised_by_world_raise; assumption|]. wp_step.
      apply IH.
    + wp_step. apply IH.
Qed.

Lemma drain_loop_caused fault fuel : forall j s,
  (length (running_tasks s) < fuel)%nat ->
  wp (drain_loop fault fuel j) (fun _ s' => running_tasks s' = [])
     (raised_by_world fault) s.
Proof.
  induction fuel as [|fuel IH]; intros j s Hfuel; [lia|].
  simpl; wp_unfold. wp_step. wp_step.
  destruct (running_tasks s) as [|f0 rest0] eqn:Hd.
  - simpl. wp_step. exact Hd.
  - replace (0 <? _) with true by (symmetry; apply Z.ltb_lt; simpl length; lia).
    wp_step. wp_step; [apply raised_by_world_raise; assumption|].
    wp_step; [congruence|].
    wp_forget (fun s' => (length (running_tasks s') < fuel)%nat)
      ltac:(simpl in *; rewrite Hd in *; simpl in *;
            match goal with H : _ :: _ = _ :: _ |- _ => injection H as _ <- end; lia).
    wp_step. wp_step; [apply raised_by_world_raise; assumption|]. wp_step.
    wp_step. wp_step; [apply raised_by_world_raise; assumption|]. wp_step.
    apply IH. simpl. assumption.
Qed.

(** Once its opening arithmetic is done, [run] raises only what the world
    raised last, or the AssertionError of the missing stream kind. *)
Lemma run_caused fault clock self config interval pregen :
  truediv_float_int (task_sleep config) (max_workers self - 1) = Returns interval ->
  pregenerate (data_size_bytes config) interval
    example_size_default example_time_default = Returns pregen ->
  wp (run fault clock self config) (fun _ _ => True)
     (fun e s =>
        raised_by_world fault e s \/
        (e = AssertionError /\ kind (stream_config self) = None /\
         running_tasks s = []))
     initial_state.
Proof.
  intros Hdiv Hpre.
  eapply wp_mono;
    [apply (run_invariant fault clock self config
              (fun _ => True) (fun _ => True) (fun _ => True)
              (fun s => running_tasks s = []))
    | auto | intros e s H; exact H]; auto.
  - intros e H. congruence.
  - intros iv e H1 H2. congruence.
  - intros l e s _ Hl _. left. apply raised_by_world_raise, Hl.
  - intros l e s _ Hl _. left. apply raised_by_world_raise, Hl.
  - intros s _. eapply wp_mono; [apply consume_caused | auto | auto].
  - intros l e s _ Hl _. left. apply raised_by_world_raise, Hl.
  - intros e ev s Hev [H | (He & Hk & Hd)].
    + left. apply raised_by_world_record; [destruct ev; try discriminate; exact I | exact H].
    + right. auto.
  - intros e0 l e s _ Hl _. left. apply raised_by_world_raise, Hl.
  - intros s _. apply wp_drain.
    eapply wp_mono; [apply drain_loop_caused; lia | auto | auto].
  - intros l e s _ Hl _. left. apply raised_by_world_raise, Hl.
  - intros s Hk Hd. right. auto.
Qed.

Lemma pregenerate_default_overflow size interval e :
  pregenerate size interval example_size_default example_time_default = Raises e ->
  e = OverflowError /\ float_of_int size = Raises OverflowError.
Proof.
  intros H. pose proof (pregenerate_default_raises _ _ _ H) as ->.
  split; [reflexivity|].
  unfold pregenerate in H. rewrite default_example_rate in H. simpl in H.
  unfold truediv_int_float in H.
  destruct (float_of_int size) as [fs|e'] eqn:Hfs; simpl in H.
  - exfalso. unfold float_div in H.
    replace (PrimFloat.eqb 400000000 0) with false in H by (vm_compute; reflexivity).
    discriminate.
  - apply float_of_int_raises in Hfs as ->. reflexivity.
Qed.

Lemma truediv_float_int_overflow a b :
  truediv_float_int a b = Raises OverflowError ->
  float_of_int b = Raises OverflowError.
Proof.
  unfold truediv_float_int. destruct (b =? 0); [discriminate|].
  destruct (float_of_int b) as [fb|e]; simpl; [discriminate|].
  intros [= ->]. reflexivity.
Qed.

(** X1: whatever [run] raises is the last thing that one of its statements
    raised, at a statement that was reached: a call to the executor, the
    store, the stream, a future, the logger or the clock, or the assignment
    to [__wrapped__]. Otherwise it is, before anything was done, the
    ZeroDivisionError of a single worker or the OverflowError of converting
    [max_workers - 1] or the data size to a float, or, once the deque is
    drained, the AssertionError for a stream configuration without a
    kind. *)
Theorem run_failure_causes fault clock self config e s :
  run fault clock self config initial_state = (Raises e, s) ->
  (exists l R, raised (trace s) = R ++ [(l, e)] /\ fault l = Some e) \/
  (s = initial_state /\ e = ZeroDivisionError /\ max_workers self = 1) \/
  (s = initial_state /\ e = OverflowError /\
   (float_of_int (max_workers self - 1) = Raises OverflowError \/
    float_of_int (data_size_bytes config) = Raises OverflowError)) \/
  (e = AssertionError /\ kind (stream_config self) = None /\ running_tasks s = []).
Proof.
  intros Hrun.
  destruct (truediv_float_int (task_sleep config) (max_workers self - 1))
    as [interval|e0] eqn:Hdiv.
  - destruct (pregenerate (data_size_bytes config) interval
                example_size_default example_time_default) as [pregen|e0] eqn:Hpre.
    + destruct (wp_raises _ _ _ _ _ _
                  (run_caused fault clock self config interval pregen Hdiv Hpre) Hrun)
        as [H | H]; [left; exact H | right; right; right; exact H].
    + unfold run, bind, lift in Hrun. rewrite Hdiv, Hpre in Hrun.
      injection Hrun as <- <-.
      apply pregenerate_default_overflow in Hpre as [-> Hsize].
      right. right. left. auto.
  - unfold run, bind, lift in Hrun. rewrite Hdiv in Hrun.
    injection Hrun as <- <-.
    destruct (truediv_float_int_raises _ _ _ Hdiv) as [-> | ->].
    + right. left. repeat split. apply truediv_float_int_zero in Hdiv. lia.
    + right. right. left. apply truediv_float_int_overflow in Hdiv. auto.
Qed.

Lemma run_failure_causes_witness :
  exists s,
    run failing_world demo_clock demo_benchmark demo_config initial_state =
      (Raises (RuntimeError "task failed"), s) /\
    ((exists l R,
        raised (trace s) = R ++ [(l, RuntimeError "task failed")] /\
        failing_world l = Some (RuntimeError "task failed")) \/
     (s = initial_state /\ RuntimeError "task failed" = ZeroDivisionError /\
      max_workers demo_benchmark = 1) \/
     (s = initial_state /\ RuntimeError "task failed" = OverflowError /\
      (float_of_int (max_workers demo_benchmark - 1) = Raises OverflowError \/
       float_of_int (data_size_bytes demo_config) = Raises OverflowError)) \/
     (RuntimeError "task failed" = AssertionError /\
      kind (stream_config demo_benchmark) = None /\ running_tasks s = [])).
Proof.
  eexists. split; [vm_compute; reflexivity|].
  eapply (run_failure_causes failing_world demo_clock demo_benchmark demo_config).
  vm_compute. reflexivity.
Defined.

(** X2: [pregenerate] fails only with ZeroDivisionError or OverflowError;
    with the default example size and time it fails only with OverflowError
    and only for a size too large for a float; with an example time of zero
    it raises ZeroDivisionError for every example size that fits a float. *)
Theorem pregenerate_failure_modes size interval :
  (forall example_size example_time e,
     pregenerate size interval example_size example_time = Raises e ->
     e = ZeroDivisionError \/ e = OverflowError) /\
  (forall e,
     pregenerate size interval example_size_default example_time_default = Raises e ->
     e = OverflowError /\ float_of_int size = Raises OverflowError) /\
  (forall example_size,
     float_of_int example_size <> Raises OverflowError ->
     pregenerate size interval example_size 0 = Raises ZeroDivisionError).
Proof.
  split; [|split].
  - intros example_size example_time e. apply pregenerate_raises.
  - intros e. apply pregenerate_default_overflow.
  - intros example_size Hfits. unfold pregenerate, truediv_int_float.
    destruct (float_of_int example_size) as [fa|e'] eqn:Hfa; simpl.
    + unfold float_div.
      replace (PrimFloat.eqb 0 0) with true by (vm_compute; reflexivity).
      reflexivity.
    + exfalso. apply Hfits. apply float_of_int_raises in Hfa as ->. reflexivity.
Qed.

(** With a quiet world, [run] fails only on its opening arithmetic or, once
    every task is done, on the missing stream kind. *)
Lemma run_quiet fault clock self config :
  (forall l, fault l = None) ->
  let n := length (consumer self) in
  wp (run fault clock self config)
     (fun _ s => tally n n n [] 0 s /\ running_tasks s = [])
     (fun e s =>
        truediv_float_int (task_sleep config) (max_workers self - 1) = Raises e \/
        (exists interval,
           truediv_float_int (task_sleep config) (max_workers self - 1) = Returns interval /\
           pregenerate (data_size_bytes config) interval
             example_size_default example_time_default = Raises e) \/
        (kind (stream_config self) = None /\ e = AssertionError /\
         tally n n n [] 0 s /\ running_tasks s = []))
     initial_state.
Proof.
  intros Hquiet n.
  assert (Hnone : forall l e, fault l = Some e -> False).
  { intros l e H. rewrite Hquiet in H. discriminate. }
  assert (H0 : tally 0 0 0 [] 0 initial_state) by (repeat split).
  eapply wp_mono;
    [apply (run_invariant fault clock self config
              (tally 0 0 0 [] 0) (tally 0 0 0 [] 0) (tally n n n [] 0)
              (fun s => tally n n n [] 0 s /\ running_tasks s = []))
    | intros r s [Hs _]; exact Hs | intros e s H; exact H];
    auto with tally;
    try solve [intros; exfalso; eauto].
  - intros e H. left. exact H.
  - intros interval e H1 H2. right. left. eauto.
  - intros interval pregen s _ _ Hs. apply tally_record; [reflexivity | exact Hs].
  - intros s Hs. eapply wp_mono; [apply (consume_tally _ _ _ _ 0%nat), Hs | auto |].
    intros e s' [l Hl]. exfalso. eauto.
  - intros s [H | [(interval & _ & H) | (_ & H & _)]].
    + apply truediv_float_int_raises in H as [H|H]; discriminate.
    + apply pregenerate_raises in H as [H|H]; discriminate.
    + discriminate.
  - intros e ev s Hev [H | [H | (Hk & He & Hs & Hd)]]; auto.
    right. right. split; [exact Hk|]. split; [exact He|]. split; [auto with tally | exact Hd].
  - intros s Hs. apply wp_drain.
    eapply wp_mono; [apply drain_loop_tally; [lia | exact Hs] | auto |].
    intros e s' [l Hl]. exfalso. eauto.
  - intros ev s Hev [Hs Hd]. split; [auto with tally | exact Hd].
  - intros s Hkind Hs. right. right. tauto.
Qed.

(** X8: a stream configuration without a kind is found out last: when
    nothing else fails, [run] submits a task for every item, awaits every
    future and counts it, and then raises AssertionError instead of
    returning the result. *)
Theorem missing_stream_kind_found_last fault clock self config interval pregen :
  (forall l, fault l = None) ->
  truediv_float_int (task_sleep config) (max_workers self - 1) = Returns interval ->
  pregenerate (data_size_bytes config) interval
    example_size_default example_time_default = Returns pregen ->
  kind (stream_config self) = None ->
  exists s,
    run fault clock self config initial_state = (Raises AssertionError, s) /\
    submitted (trace s) = seq 0 (length (consumer self)) /\
    awaited (trace s) = seq 0 (length (consumer self)) /\
    completed_tasks s = Z.of_nat (length (consumer self)) /\
    running_tasks s = [].
Proof.
  intros Hquiet Hdiv Hpre Hkind.
  pose proof (run_quiet fault clock self config Hquiet) as Hwp. cbv zeta in Hwp.
  pose proof (run_result fault clock self config) as Hres.
  destruct (run fault clock self config initial_state) as [[r|e] s] eqn:Hrun.
  - apply (wp_returns _ _ _ _ _ _ Hres) in Hrun as (k & Hk & _). congruence.
  - apply (wp_raises _ _ _ _ _ _ Hwp) in Hrun
      as [H | [(iv & H1 & H2) | (_ & -> & (Ha & Hn & Hy & Hc) & Hd)]].
    + congruence.
    + congruence.
    + exists s. rewrite Hd in Ha. simpl in Ha. rewrite app_nil_r in Ha.
      repeat split; auto. rewrite Ha, length_seq in Hc. lia.
Qed.

Lemma missing_stream_kind_found_last_witness :
  exists s,
    run quiet_world demo_clock kindless_benchmark demo_config initial_state =
      (Raises AssertionError, s) /\
    submitted (trace s) = seq 0 4 /\
    awaited (trace s) = seq 0 4 /\
    completed_tasks s = 4 /\
    running_tasks s = [].
Proof.
  apply (missing_stream_kind_found_last quiet_world demo_clock kindless_benchmark
           demo_config 0.5%float false).
  - reflexivity.
  - vm_compute. reflexivity.
  - vm_compute. reflexivity.
  - reflexivity.
Defined.

(** X18: when nothing fails, the interval arithmetic succeeds and the
    stream configuration has a kind, [run] returns, and the result names the
    executor and connector classes and the stream kind, echoes the
    configuration and the worker count, counts every item of the stream, and
    carries the two clock readings. *)
Theorem quiet_run_returns fault clock self config interval pregen stream_kind :
  (forall l, fault l = None) ->
  truediv_float_int (task_sleep config) (max_workers self - 1) = Returns interval ->
  pregenerate (data_size_bytes config) interval
    example_size_default example_time_default = Returns pregen ->
  kind (stream_config self) = Some stream_kind ->
  exists s,
    run fault clock self config initial_state =
      (Returns
         (mkRunResult (executor_class (executor self)) (connector_class (store self))
            stream_kind (data_size_bytes config) (task_count config)
            (task_sleep config) (max_workers self)
            (Z.of_nat (length (consumer self)))
            (clock AtStartTime) (clock AtEndTime)), s) /\
    raised (trace s) = [].
Proof.
  intros Hquiet Hdiv Hpre Hkind.
  assert (Hcalm : forall l, fault l <> Some KeyboardInterrupt).
  { intros l. rewrite Hquiet. discriminate. }
  destruct (run_returns fault clock self config interval pregen stream_kind
              Hquiet Hdiv Hpre Hkind) as (s & Hrun).
  exists s.
  destruct (wp_returns _ _ _ _ _ _ (run_tally fault clock self config Hcalm) Hrun)
    as ([(Ha & Hn & Hy & Hc) Hd] & _).
  rewrite Hd in Ha. simpl in Ha. rewrite app_nil_r in Ha.
  rewrite Ha, length_seq in Hc.
  assert (Hr : raised (trace s) = []).
  { destruct (wp_returns _ _ _ _ _ _ (run_outline fault clock self config) Hrun)
      as [[Hr _] | (i & st & Hl & _)]; [exact Hr|].
    rewrite Hquiet in Hl. discriminate. }
  split; [|exact Hr].
  rewrite Hrun. unfold result_of.
  replace (completed_tasks s) with (Z.of_nat (length (consumer self))) by lia.
  reflexivity.
Qed.

Lemma quiet_run_returns_witness :
  exists s,
    run quiet_world demo_clock demo_benchmark demo_config initial_state =
      (Returns
         (mkRunResult "ThreadPoolExecutor" "FileConnector" "redis" 1000 4 1%float 3 4
            0%float 5%float), s) /\
    raised (trace s) = [].
Proof.
  apply (quiet_run_returns quiet_world demo_clock demo_benchmark demo_config
           0.5%float false "redis").
  - reflexivity.
  - vm_compute. reflexivity.
  - vm_compute. reflexivity.
  - reflexivity.
Defined.

Lemma unwind_exited exit_result callbacks : forall u suppressed tr,
  exited (snd (unwind exit_result callbacks u suppressed tr)) = exited tr ++ callbacks /\
  entered (snd (unwind exit_result callbacks u suppressed tr)) = entered tr /\
  (forall ev, In ev tr -> In ev (snd (unwind exit_result callbacks u suppressed tr))).
Proof.
  induction callbacks as [|cb below IH]; intros u suppressed tr; simpl.
  - rewrite app_nil_r. auto.
  - assert (Hx : exited (tr ++ [Exited cb (exc_details u)]) ++ below =
                 exited tr ++ cb :: below).
    { unfold exited. rewrite flat_map_app. simpl. rewrite <- app_assoc. reflexivity. }
    assert (He : entered (tr ++ [Exited cb (exc_details u)]) = entered tr).
    { unfold entered. rewrite flat_map_app. simpl. rewrite app_nil_r. reflexivity. }
    assert (Hin : forall ev, In ev tr -> In ev (tr ++ [Exited cb (exc_details u)])).
    { intros ev Hev. apply in_or_app. left. exact Hev. }
    destruct (exit_result cb (exc_details u)) as [[]|e];
      rewrite <- Hx, <- He;
      match goal with
      | |- context [unwind _ _ ?u' ?b ?t] => destruct (IH u' b t) as (IH1 & IH2 & IH3)
      end; auto.
Qed.

Lemma unwind_pending exit_result callbacks : forall u suppressed tr e,
  fst (fst (unwind exit_result callbacks u suppressed tr)) = Pending e ->
  u = Pending e \/ exists cb exc, In cb callbacks /\ exit_result cb exc = Raises e.
Proof.
  induction callbacks as [|cb below IH]; intros u suppressed tr e; simpl.
  - auto.
  - destruct (exit_result cb (exc_details u)) as [[]|e'] eqn:Hcb; intros H;
      apply IH in H as [H | (cb' & exc & Hin & H)]; eauto 6; try discriminate.
    injection H as ->. eauto 6.
Qed.

Lemma exit_stack_exit_exited exit_result callbacks exc tr :
  exited (snd (exit_stack_exit exit_result callbacks exc tr)) = exited tr ++ callbacks /\
  entered (snd (exit_stack_exit exit_result callbacks exc tr)) = entered tr /\
  (forall ev, In ev tr -> In ev (snd (exit_stack_exit exit_result callbacks exc tr))).
Proof.
  unfold exit_stack_exit.
  pose proof (unwind_exited exit_result callbacks
                (match exc with Some e => Received e | None => Clean end) false tr) as H.
  destruct (unwind _ _ _ _ _) as [[[] suppressed] tr']; exact H.
Qed.

(** X9: [__enter__] is all or nothing. Either the consumer, the executor
    and the store were entered, in this order, and [_stack] holds their exits;
    or entering one of them failed, [_stack] is not set, and the ones entered
    before it were exited again, last entered first. *)
Theorem enter_is_all_or_nothing enter_fault exit_result :
  let out := __enter__ enter_fault exit_result unentered in
  match _stack (snd out) with
  | Some stack =>
      fst out = Returns tt /\
      stack = [TheStore; TheExecutor; TheConsumer] /\
      events (snd out) = [Entered TheConsumer; Entered TheExecutor; Entered TheStore]
  | None =>
      exited (events (snd out)) = rev (entered (events (snd out))) /\
      exists r e,
        enter_fault r = Some e /\ In (EnterFailed r e) (events (snd out)) /\
        ~ In r (entered (events (snd out)))
  end.
Proof.
  unfold __enter__, with_exit_stack, lm_bind, enter_context, pop_all_into_stack, unentered.
  cbn [_stack events exit_callbacks].
  destruct (enter_fault TheConsumer) as [e1|] eqn:H1;
    [|destruct (enter_fault TheExecutor) as [e2|] eqn:H2;
      [|destruct (enter_fault TheStore) as [e3|] eqn:H3]];
    cbn [_stack events exit_callbacks app].
  4:{ cbn. auto. }
  all: match goal with
       | |- context [exit_stack_exit ?x ?cbs ?exc ?tr] =>
           pose proof (exit_stack_exit_exited x cbs exc tr) as (Hx & He & Hin);
           destruct (exit_stack_exit x cbs exc tr) as [[[]|e'] tr']
       end;
    cbn [fst snd _stack events] in *; rewrite Hx, He; (split; [reflexivity|]);
    eexists _, _; (split; [eassumption|]);
    (split; [apply Hin; simpl; tauto | simpl; intuition discriminate]).
Qed.

(** X10: [__exit__] calls the exit of every context manager on the stack,
    the last entered first, whatever the earlier exits did; it raises only
    what one of those exits raised, and returns nothing otherwise. *)
Theorem exit_releases_in_reverse exit_result stack exc tr :
  let out := __exit__ exit_result stack exc tr in
  exited (snd out) = exited tr ++ stack /\
  entered (snd out) = entered tr /\
  (forall e, fst out = Raises e ->
     exists cb exc', In cb stack /\ exit_result cb exc' = Raises e).
Proof.
  unfold __exit__.
  destruct (exit_stack_exit_exited exit_result stack exc tr) as (Hx & He & _).
  pose proof (unwind_pending exit_result stack
                (match exc with Some e => Received e | None => Clean end) false tr) as Hp.
  unfold exit_stack_exit in *.
  destruct (unwind _ _ _ _ _) as [[u suppressed] tr']. simpl in Hp.
  destruct u; simpl in *; repeat split; auto; try discriminate.
  intros e0 [= <-]. destruct (Hp e eq_refl) as [H|H]; [|exact H].
  destruct exc; discriminate.
Qed.

(** X11: after an [__enter__] that set [_stack], [__exit__] leaves nothing
    open: the consumer, the executor and the store were entered in this order
    and exited in the reverse order, each once, whatever exception the block
    ended with and whatever the exits do. *)
Theorem enter_then_exit_releases_everything enter_fault exit_result exc stack :
  _stack (snd (__enter__ enter_fault exit_result unentered)) = Some stack ->
  let entering := snd (__enter__ enter_fault exit_result unentered) in
  let leaving := snd (__exit__ exit_result stack exc (events entering)) in
  entered leaving = [TheConsumer; TheExecutor; TheStore] /\
  exited leaving = [TheStore; TheExecutor; TheConsumer].
Proof.
  intros Hstack entering leaving. subst leaving.
  assert (H : stack = [TheStore; TheExecutor; TheConsumer] /\
              events entering =
                [Entered TheConsumer; Entered TheExecutor; Entered TheStore]).
  { subst entering. revert Hstack.
    unfold __enter__, with_exit_stack, lm_bind, enter_context, pop_all_into_stack, unentered.
    cbn [_stack events exit_callbacks].
    destruct (enter_fault TheConsumer) as [e1|];
      [|destruct (enter_fault TheExecutor) as [e2|];
        [|destruct (enter_fault TheStore) as [e3|]]];
      cbn [_stack events exit_callbacks app].
    4:{ cbn. intros [= <-]. auto. }
    all: match goal with
         | |- context [exit_stack_exit ?x ?cbs ?exc ?tr] =>
             destruct (exit_stack_exit x cbs exc tr) as [[[]|e'] tr']
         end; cbn; discriminate. }
  destruct H as [-> ->].
  destruct (exit_stack_exit_exited exit_result [TheStore; TheExecutor; TheConsumer] exc
              [Entered TheConsumer; Entered TheExecutor; Entered TheStore]) as (Hx & He & _).
  unfold __exit__. destruct (exit_stack_exit _ _ _ _) as [[b|e] tr']; simpl in *; auto.
Qed.

Lemma enter_then_exit_releases_everything_witness :
  let entering := snd (__enter__ (fun _ => None) (fun _ _ => Returns false) unentered) in
  let leaving :=
    snd (__exit__ (fun _ _ => Returns false) [TheStore; TheExecutor; TheConsumer]
           (Some KeyboardInterrupt) (events entering)) in
  entered leaving = [TheConsumer; TheExecutor; TheStore] /\
  exited leaving = [TheStore; TheExecutor; TheConsumer].
Proof.
  apply (enter_then_exit_releases_everything (fun _ => None) (fun _ _ => Returns false)).
  reflexivity.
Defined.

End StreamScaling.

(** ** psbench/proxystore.py *)

Module ProxyStoreBackend.

Local Open Scope Z_scope.

(** The namespace the argument parser returns: every ProxyStore option is an
    attribute, [None] when the flag was not given. *)
Record Namespace : Type := mkNamespace {
  ps_backend : option string;
  ps_endpoints : option (list string);
  ps_file_dir : option string;
  ps_globus_config : option string;
  ps_host : option string;
  ps_port : option Z;
  ps_margo_protocol : option string;
  ps_address : option string;
  ps_interface : option string;
}.

(** [GlobusEndpoints.from_json(path)]. *)
Inductive GlobusEndpoints : Type :=
| from_json (config : option string).

(** A connector, as the constructor call that builds it. *)
Inductive Connector : Type :=
| EndpointConnector (endpoints : option (list string))
| FileConnector (store_dir : option string)
| GlobusConnector (endpoints : GlobusEndpoints)
| RedisConnector (hostname : option string) (port : option Z)
| MargoConnector (port : option Z) (protocol address interface : option string)
| UCXConnector (port : option Z) (interface address : option string)
| ZeroMQConnector (port : option Z) (interface address : option string).

Record Store (K : Type) : Type := mkStore {
  store_name : string;
  store_connector : Connector;
  store_kwargs : K;
}.
Arguments mkStore {K} _ _ _.
Arguments store_name {K} _.
Arguments store_connector {K} _.
Arguments store_kwargs {K} _.

(** Calls into the ProxyStore library. *)
Inductive call (K : Type) : Type :=
| LoadEndpoints (config : option string)
| NewConnector (c : Connector)
| NewStore (s : Store K)
| RegisterStore (s : Store K).
Arguments LoadEndpoints {K} _.
Arguments NewConnector {K} _.
Arguments NewStore {K} _.
Arguments RegisterStore {K} _.

(** [not args.ps_backend]: [None] and the empty string are falsy. *)
Definition falsy (v : option string) : bool :=
  match v with
  | None => true
  | Some s => String.eqb s ""
  end.

Section Library.

Variable K : Type.

(** The library: which call, if any, raises. *)
Variable library : call K -> option exn.

(** The calls made so far, oldest first. *)
Definition L (A : Type) : Type := list (call K) -> outcome A * list (call K).

Definition lret {A : Type} (a : A) : L A := fun calls => (Returns a, calls).

Definition lbind {A B : Type} (m : L A) (k : A -> L B) : L B :=
  fun calls =>
    match m calls with
    | (Returns a, calls') => k a calls'
    | (Raises e, calls') => (Raises e, calls')
    end.

Definition lraise {A : Type} (e : exn) : L A := fun calls => (Raises e, calls).

(** A library call that yields [a] unless the library raises. *)
Definition invoke {A : Type} (c : call K) (a : A) : L A :=
  fun calls =>
    match library c with
    | Some e => (Raises e, calls)
    | None => (Returns a, calls ++ [c])
    end.

Definition new_connector (c : Connector) : L Connector := invoke (NewConnector c) c.

(** [init_store_from_args(args, **kwargs)]. *)
Definition init_store_from_args (args : Namespace) (kwargs : K) : L (option (Store K)) :=
  if falsy (ps_backend args) then lret None
  else
    let backend := default "" (ps_backend args) in
    lbind
      (if String.eqb backend "ENDPOINT" then
         new_connector (EndpointConnector (ps_endpoints args))
       else if String.eqb backend "FILE" then
         new_connector (FileConnector (ps_file_dir args))
       else if String.eqb backend "GLOBUS" then
         lbind (invoke (LoadEndpoints (ps_globus_config args))
                       (from_json (ps_globus_config args)))
               (fun endpoints => new_connector (GlobusConnector endpoints))
       else if String.eqb backend "REDIS" then
         new_connector (RedisConnector (ps_host args) (ps_port args))
       else if String.eqb backend "MARGO" then
         new_connector
           (MargoConnector (ps_port args) (ps_margo_protocol args)
              (ps_address args) (ps_interface args))
       else if String.eqb backend "UCX" then
         new_connector
           (UCXConnector (ps_port args) (ps_interface args) (ps_address args))
       else if String.eqb backend "ZMQ" then
         new_connector
           (ZeroMQConnector (ps_port args) (ps_interface args) (ps_address args))
       else lraise (ValueError ("Invalid backend: " ++ backend)))
      (fun connector =>
         let store := mkStore (backend ++ "-STORE") connector kwargs in
         lbind (invoke (NewStore store) store) (fun store =>
         lbind (invoke (RegisterStore store) tt) (fun _ =>
         lret (Some store)))).

End Library.

(** The backends the claim names, and the connector each selects. *)
Definition recognized : list string :=
  ["ENDPOINT"; "FILE"; "GLOBUS"; "REDIS"; "MARGO"; "UCX"; "ZMQ"].

Definition selected_connector (backend : string) (args : Namespace) : option Connector :=
  if String.eqb backend "ENDPOINT" then Some (EndpointConnector (ps_endpoints args))
  else if String.eqb backend "FILE" then Some (FileConnector (ps_file_dir args))
  else if String.eqb backend "GLOBUS" then
    Some (GlobusConnector (from_json (ps_globus_config args)))
  else if String.eqb backend "REDIS" then Some (RedisConnector (ps_host args) (ps_port args))
  else if String.eqb backend "MARGO" then
    Some (MargoConnector (ps_port args) (ps_margo_protocol args)
            (ps_address args) (ps_interface args))
  else if String.eqb backend "UCX" then
    Some (UCXConnector (ps_port args) (ps_interface args) (ps_address args))
  else if String.eqb backend "ZMQ" then
    Some (ZeroMQConnector (ps_port args) (ps_interface args) (ps_address args))
  else None.

(** The library calls that build and register [store]. *)
Definition build_calls {K : Type} (args : Namespace) (store : Store K) : list (call K) :=
  match store_connector store with
  | GlobusConnector _ => [LoadEndpoints (ps_globus_config args)]
  | _ => []
  end ++ [NewConnector (store_connector store); NewStore store; RegisterStore store].

(** [register_store] was called. *)
Definition is_registration {K : Type} (c : call K) : bool :=
  match c with
  | RegisterStore _ => true
  | _ => false
  end.

Lemma selected_connector_recognized backend args :
  In backend recognized <-> exists c, selected_connector backend args = Some c.
Proof.
  unfold selected_connector, recognized. simpl.
  repeat match goal with
         | |- context [String.eqb backend ?x] =>
             destruct (String.eqb_spec backend x); [subst; split; eauto 10|]
         end.
  split; [|intros [c H]; discriminate].
  intros H. repeat (destruct H as [H|H]; [congruence|]). contradiction.
Qed.

(** C5: [init_store_from_args] returns [None] when [args.ps_backend] is
    falsy, and raises ValueError for any other backend that is not one of
    ENDPOINT, FILE, GLOBUS, REDIS, MARGO, UCX and ZMQ, in both cases without
    a call into the library. For a recognized backend it builds the connector
    that backend selects from the backend's own arguments, wraps it in a store
    named after the backend, registers the store and returns it; the only way
    out otherwise is an exception of one of those library calls. *)
Theorem init_store_dispatch (K : Type) (library : call K -> option exn)
    (args : Namespace) (kwargs : K) (calls : list (call K)) :
  (falsy (ps_backend args) = true ->
   init_store_from_args K library args kwargs calls = (Returns None, calls)) /\
  (forall backend,
     ps_backend args = Some backend -> backend <> "" ->
     ~ In backend recognized ->
     init_store_from_args K library args kwargs calls =
       (Raises (ValueError ("Invalid backend: " ++ backend)), calls)) /\
  (forall backend,
     ps_backend args = Some backend -> In backend recognized ->
     exists connector,
       selected_connector backend args = Some connector /\
       let store := mkStore (backend ++ "-STORE") connector kwargs in
       ((forall c, library c = None) ->
        init_store_from_args K library args kwargs calls =
          (Returns (Some store), calls ++ build_calls args store)) /\
       (forall result calls',
          init_store_from_args K library args kwargs calls = (result, calls') ->
          result = Returns (Some store) \/
          exists c e, In c (build_calls args store) /\ library c = Some e /\
                      result = Raises e)).
Proof.
  split; [|split].
  - intros Hfalsy. unfold init_store_from_args. rewrite Hfalsy. reflexivity.
  - intros backend Hb Hne Hnot. unfold init_store_from_args. rewrite Hb. simpl.
    destruct (String.eqb_spec backend "") as [|_]; [contradiction|].
    destruct (selected_connector backend args) as [c|] eqn:Hsel.
    { exfalso. apply Hnot. apply (selected_connector_recognized backend args). eauto. }
    unfold selected_connector in Hsel.
    repeat match type of Hsel with
           | context [String.eqb backend ?x] =>
               destruct (String.eqb backend x); [discriminate|]
           end.
    reflexivity.
  - intros backend Hb Hin.
    assert (Hne : String.eqb backend "" = false).
    { destruct (String.eqb_spec backend ""); [subst; simpl in Hin; intuition discriminate | reflexivity]. }
    unfold init_store_from_args, selected_connector, build_calls, new_connector,
      invoke, lbind, lret. rewrite Hb. simpl. rewrite Hne.
    unfold recognized in Hin. simpl in Hin.
    repeat destruct Hin as [Hin|Hin]; try contradiction; subst backend; simpl;
      (eexists; split; [reflexivity|]; split;
       [ intros Hq; rewrite ?Hq; simpl; rewrite <- ?app_assoc; reflexivity
       | intros result calls';
         repeat match goal with
                | |- context [library ?c] =>
                    let e := fresh "e" in
                    let H := fresh "H" in
                    destruct (library c) as [e|] eqn:H;
                      [intros [= <- <-]; right; exists c, e; simpl; tauto|]
                end;
         intros [= <- <-]; left; reflexivity ]).
Qed.

(** X12: [init_store_from_args] only ever adds calls to those made before,
    and [register_store] is its last act: when it returns a store, the last
    two calls made are the construction of that store and its registration,
    and no other registration was made; when it returns [None] or raises,
    nothing was registered. *)
Theorem store_registered_last (K : Type) (library : call K -> option exn)
    (args : Namespace) (kwargs : K) (calls : list (call K)) :
  let out := init_store_from_args K library args kwargs calls in
  exists added,
    snd out = calls ++ added /\
    match fst out with
    | Returns (Some store) =>
        exists front,
          added = front ++ [NewStore store; RegisterStore store] /\
          Forall (fun c => is_registration c = false) front
    | _ => Forall (fun c => is_registration c = false) added
    end.
Proof.
  unfold init_store_from_args, new_connector, invoke, lbind, lret, lraise.
  destruct (falsy (ps_backend args)).
  { exists []. simpl. rewrite app_nil_r. auto. }
  repeat match goal with
         | |- context [String.eqb ?a ?b] => destruct (String.eqb a b)
         end;
    repeat match goal with
           | |- context [library ?c] => destruct (library c)
           end;
    cbn [fst snd];
    eexists;
    (split; [first [rewrite <- ?app_assoc; reflexivity | symmetry; apply app_nil_r]|]);
    simpl;
    first [ solve [repeat constructor]
          | eexists [_]; split; [reflexivity | repeat constructor]
          | eexists [_; _]; split; [reflexivity | repeat constructor] ].
Qed.

Example init_store_redis :
  init_store_from_args unit (fun _ => None)
    (mkNamespace (Some "REDIS") None None None (Some "localhost") (Some 6379)
       (Some "tcp") None None) tt [] =
  (Returns (Some (mkStore "REDIS-STORE" (RedisConnector (Some "localhost") (Some 6379)) tt)),
   [NewConnector (RedisConnector (Some "localhost") (Some 6379));
    NewStore (mkStore "REDIS-STORE" (RedisConnector (Some "localhost") (Some 6379)) tt);
    RegisterStore (mkStore "REDIS-STORE" (RedisConnector (Some "localhost") (Some 6379)) tt)]).
Proof. reflexivity. Qed.

Example init_store_unknown_backend :
  init_store_from_args unit (fun _ => None)
    (mkNamespace (Some "S3") None None None None None (Some "tcp") None None) tt [] =
  (Raises (ValueError "Invalid backend: S3"), []).
Proof. reflexivity. Qed.

End ProxyStoreBackend.

(** ** psbench/argparse.py *)

Module Argparse.

Local Open Scope string_scope.

(** *** The regular expressions the module searches [sys.argv] with *)

Inductive regex : Type :=
| Lit (s : string)
| Alt (r1 r2 : regex)
| Cat (r1 r2 : regex)
| EndOfString
| Whitespace.

(** [\s] on a character below code point 256. *)
Definition is_space (c : ascii) : bool :=
  let n := nat_of_ascii c in
  ((9 <=? n) && (n <=? 13) || (28 <=? n) && (n <=? 32)
   || (n =? 133) || (n =? 160))%nat.

Fixpoint strip_prefix (p s : string) : option string :=
  match p with
  | EmptyString => Some s
  | String a p' =>
      match s with
      | EmptyString => None
      | String b s' => if Ascii.eqb a b then strip_prefix p' s' else None
      end
  end.

Definition newline : string := String (ascii_of_nat 10) EmptyString.

(** Every way [r] can match at the start of [s]: what is left of [s]. *)
Fixpoint match_here (r : regex) (s : string) : list string :=
  match r with
  | Lit l => match strip_prefix l s with Some rest => [rest] | None => [] end
  | Alt r1 r2 => match_here r1 s ++ match_here r2 s
  | Cat r1 r2 => flat_map (match_here r2) (match_here r1 s)
  | EndOfString =>
      if String.eqb s EmptyString || String.eqb s newline then [s] else []
  | Whitespace =>
      match s with
      | String c rest => if is_space c then [rest] else []
      | EmptyString => []
      end
  end%list.

(** [bool(re.search(r, s))]: [r] matches at some position of [s]. *)
Fixpoint search (r : regex) (s : string) : bool :=
  match match_here r s with
  | _ :: _ => true
  | [] =>
      match s with
      | String _ s' => search r s'
      | EmptyString => false
      end
  end.

(** ['--ps-backend( |=)(A|B|...)']. *)
Fixpoint alternatives (names : list string) : regex :=
  match names with
  | [] => Lit ""
  | [name] => Lit name
  | name :: rest => Alt (Lit name) (alternatives rest)
  end.

Definition backend_pattern (names : list string) : regex :=
  Cat (Lit "--ps-backend") (Cat (Alt (Lit " ") (Lit "=")) (alternatives names)).

(** [r'--ipfs($|\s)']. *)
Definition ipfs_pattern : regex :=
  Cat (Lit "--ipfs") (Alt EndOfString Whitespace).

(** *** Parsers *)

Record Argument : Type := mkArgument {
  arg_flag : string;
  arg_required : bool;
  arg_choices : list string;
  arg_default : option string;
}.

(** A parser, as the arguments added to it so far. *)
Definition ArgumentParser : Type := list Argument.

Definition add_argument (parser : ArgumentParser) (a : Argument) : ArgumentParser :=
  (parser ++ [a])%list.

(** [' '.join(sys.argv)]. *)
Definition args_str (argv : list string) : string := String.concat " " argv.

(** [add_ipfs_options(parser)], with [sys.argv] made explicit. *)
Definition add_ipfs_options (argv : list string) (parser : ArgumentParser) : ArgumentParser :=
  let args_str := args_str argv in
  let parser := add_argument parser (mkArgument "--ipfs" false [] (Some "False")) in
  let parser :=
    add_argument parser
      (mkArgument "--ipfs-local-dir" (search ipfs_pattern args_str) [] None) in
  add_argument parser
    (mkArgument "--ipfs-remote-dir" (search ipfs_pattern args_str) [] None).

(** [add_proxystore_options(parser, required)], with [sys.argv] made explicit. *)
Definition add_proxystore_options (argv : list string) (parser : ArgumentParser)
    (required : bool) : ArgumentParser :=
  let group := parser in
  let group :=
    add_argument group
      (mkArgument "--ps-backend" required
         ["FILE"; "GLOBUS"; "REDIS"; "ENDPOINT"; "MARGO"; "UCX"; "ZMQ"] None) in
  let args_str := args_str argv in
  let group :=
    add_argument group
      (mkArgument "--ps-endpoints"
         (search (backend_pattern ["ENDPOINT"]) args_str) [] None) in
  let group :=
    add_argument group
      (mkArgument "--ps-file-dir"
         (search (backend_pattern ["FILE"]) args_str) [] None) in
  let group :=
    add_argument group
      (mkArgument "--ps-globus-config"
         (search (backend_pattern ["GLOBUS"]) args_str) [] None) in
  let group :=
    add_argument group
      (mkArgument "--ps-host"
         (search (backend_pattern ["REDIS"]) args_str) [] None) in
  let group :=
    add_argument group
      (mkArgument "--ps-port"
         (search (backend_pattern ["REDIS"; "MARGO"; "UCX"; "ZMQ"]) args_str)
         [] None) in
  let group :=
    add_argument group (mkArgument "--ps-margo-protocol" false [] (Some "tcp")) in
  let group := add_argument group (mkArgument "--ps-address" false [] None) in
  add_argument group (mkArgument "--ps-interface" false [] None).

(** The parser marks [flag] required. *)
Definition marks_required (parser : ArgumentParser) (flag : string) : bool :=
  existsb (fun a => String.eqb (arg_flag a) flag && arg_required a) parser.

(** *** What the claim speaks of *)

(** [sub] occurs in [s]. *)
Definition contains (sub s : string) : Prop :=
  exists pre post, s = pre ++ sub ++ post.

(** One of the backends [names] is selected in the joined argument list:
    ["--ps-backend"], a space or an equals sign, and the backend's name. *)
Definition backend_selected (names : list string) (joined : string) : Prop :=
  exists sep name,
    (sep = " " \/ sep = "=") /\ In name names /\
    contains ("--ps-backend" ++ sep ++ name) joined.

(** ["--ipfs"] occurs in the joined argument list, followed by whitespace or
    by the end of the string. *)
Definition ipfs_delimited (joined : string) : Prop :=
  exists pre post,
    joined = pre ++ "--ipfs" ++ post /\
    (post = "" \/ exists c rest, post = String c rest /\ is_space c = true).


(** *** The other option groups *)

(** [add_globus_compute_options(parser, required)]. *)
Definition add_globus_compute_options (parser : ArgumentParser) (required : bool) :
    ArgumentParser :=
  let group := parser in
  add_argument group (mkArgument "--globus-compute-endpoint" required [] None).

(** [add_logging_options(parser)]. *)
Definition add_logging_options (parser : ArgumentParser) : ArgumentParser :=
  let group := parser in
  let group :=
    add_argument group
      (mkArgument "--log-level" false
         ["ERROR"; "WARNING"; "TESTING"; "INFO"; "DEBUG"] (Some "TESTING")) in
  let group := add_argument group (mkArgument "--log-file" false [] None) in
  add_argument group (mkArgument "--csv-file" false [] None).

(** A call of one of the four functions of the module. *)
Inductive option_group : Type :=
| GlobusComputeOptions (required : bool)
| IpfsOptions
| LoggingOptions
| ProxystoreOptions (required : bool).

Definition group_function (g : option_group) : string :=
  match g with
  | GlobusComputeOptions _ => "add_globus_compute_options"
  | IpfsOptions => "add_ipfs_options"
  | LoggingOptions => "add_logging_options"
  | ProxystoreOptions _ => "add_proxystore_options"
  end.

Definition add_group (argv : list string) (parser : ArgumentParser)
    (g : option_group) : ArgumentParser :=
  match g with
  | GlobusComputeOptions required => add_globus_compute_options parser required
  | IpfsOptions => add_ipfs_options argv parser
  | LoggingOptions => add_logging_options parser
  | ProxystoreOptions required => add_proxystore_options argv parser required
  end.

(** A fresh parser to which the groups [gs] are added in turn. *)
Definition add_groups (argv : list string) (gs : list option_group) : ArgumentParser :=
  fold_left (add_group argv) gs [].

(** The flags that are required on a condition, with the backends that
    bring the condition about. *)
Definition conditional_flags : list (string * list string) :=
  [("--ps-endpoints", ["ENDPOINT"]);
   ("--ps-file-dir", ["FILE"]);
   ("--ps-globus-config", ["GLOBUS"]);
   ("--ps-host", ["REDIS"]);
   ("--ps-port", ["REDIS"; "MARGO"; "UCX"; "ZMQ"])].

(** The backend [name] is given on the command line, as the argument after
    [--ps-backend] or joined to it by an equals sign. *)
Definition backend_given (name : string) (argv : list string) : Prop :=
  (exists before after, argv = (before ++ "--ps-backend" :: name :: after)%list) \/
  In ("--ps-backend=" ++ name) argv.

Fixpoint has_space (s : string) : bool :=
  match s with
  | EmptyString => false
  | String c s' => Ascii.eqb c " " || has_space s'
  end.

(** The values the parser accepts for [flag]. *)
Definition choices_of (parser : ArgumentParser) (flag : string) : list string :=
  flat_map (fun a => if String.eqb (arg_flag a) flag then arg_choices a else []) parser.

(** *** Strings *)

#[local] Arguments String.append !s1 s2 / : simpl nomatch.

Lemma append_cons (c : ascii) (s t : string) : String c s ++ t = String c (s ++ t).
Proof. reflexivity. Qed.

Lemma append_nil_r (s : string) : s ++ "" = s.
Proof.
  induction s as [|c s IH]; [reflexivity|]. rewrite append_cons, IH. reflexivity.
Qed.

Lemma append_assoc (a b c : string) : (a ++ b) ++ c = a ++ b ++ c.
Proof.
  induction a as [|x a IH]; [reflexivity|]. rewrite !append_cons, IH. reflexivity.
Qed.

Lemma strip_prefix_spec (p s rest : string) :
  strip_prefix p s = Some rest <-> s = p ++ rest.
Proof.
  revert s. induction p as [|a p IH]; intros s; simpl.
  - split; [intros [= ->] | intros ->]; reflexivity.
  - destruct s as [|b s]; [split; discriminate|].
    destruct (Ascii.eqb_spec a b) as [->|Hne].
    + rewrite IH. split; [intros ->; reflexivity | intros [= ->]; reflexivity].
    + split; [discriminate | intros [= -> _]; contradiction].
Qed.

(** *** What the patterns match *)

Lemma match_here_lit l s rest :
  In rest (match_here (Lit l) s) <-> s = l ++ rest.
Proof.
  simpl. rewrite <- strip_prefix_spec.
  destruct (strip_prefix l s) as [r|]; simpl.
  - split; [intros [->|[]]; reflexivity | intros [= ->]; auto].
  - split; [contradiction | discriminate].
Qed.

Lemma match_here_alt r1 r2 s rest :
  In rest (match_here (Alt r1 r2) s) <->
  In rest (match_here r1 s) \/ In rest (match_here r2 s).
Proof. simpl. apply in_app_iff. Qed.

Lemma match_here_cat r1 r2 s rest :
  In rest (match_here (Cat r1 r2) s) <->
  exists mid, In mid (match_here r1 s) /\ In rest (match_here r2 mid).
Proof. simpl. apply in_flat_map. Qed.

Lemma match_here_alternatives name names s rest :
  In rest (match_here (alternatives (name :: names)) s) <->
  exists n, In n (name :: names) /\ s = n ++ rest.
Proof.
  revert name. induction names as [|name' names IH]; intros name.
  - change (alternatives [name]) with (Lit name). rewrite match_here_lit.
    split; [intros ->; exists name; simpl; auto | intros (n & [<-|[]] & ->); reflexivity].
  - change (alternatives (name :: name' :: names))
      with (Alt (Lit name) (alternatives (name' :: names))).
    rewrite match_here_alt, match_here_lit, IH. split.
    + intros [-> | (n & Hn & ->)]; [exists name | exists n]; simpl in *; auto.
    + intros (n & [<- | Hn] & ->); [left; reflexivity | right; exists n; auto].
Qed.

Lemma match_here_backend name names s rest :
  In rest (match_here (backend_pattern (name :: names)) s) <->
  exists sep n,
    (sep = " " \/ sep = "=") /\ In n (name :: names) /\
    s = "--ps-backend" ++ sep ++ n ++ rest.
Proof.
  unfold backend_pattern. rewrite match_here_cat. split.
  - intros (mid & Hmid & Hrest).
    apply match_here_lit in Hmid as ->.
    apply match_here_cat in Hrest as (mid' & Hsep & Hname).
    apply match_here_alternatives in Hname as (n & Hn & ->).
    apply match_here_alt in Hsep as [Hsep|Hsep];
      apply match_here_lit in Hsep as ->; eauto 10.
  - intros (sep & n & Hsep & Hn & ->).
    exists (sep ++ n ++ rest). split; [apply match_here_lit; reflexivity|].
    apply match_here_cat. exists (n ++ rest). split.
    + apply match_here_alt.
      destruct Hsep as [->| ->]; [left | right]; apply match_here_lit; reflexivity.
    + apply match_here_alternatives. eauto.
Qed.

Lemma match_here_end s rest :
  In rest (match_here EndOfString s) <-> rest = s /\ (s = "" \/ s = newline).
Proof.
  simpl. destruct (String.eqb_spec s "") as [Hs|Hs]; simpl.
  - split; [intros [<-|[]]; auto | intros [-> _]; auto].
  - destruct (String.eqb_spec s newline) as [Hs'|Hs']; simpl.
    + split; [intros [<-|[]]; auto | intros [-> _]; auto].
    + split; [contradiction | intros [_ [H|H]]; contradiction].
Qed.

Lemma match_here_space s rest :
  In rest (match_here Whitespace s) <->
  exists c, is_space c = true /\ s = String c rest.
Proof.
  simpl. destruct s as [|c s].
  - split; [contradiction | intros (c & _ & H); discriminate].
  - destruct (is_space c) eqn:Hc; simpl.
    + split; [intros [<-|[]]; eauto | intros (c' & _ & [= <- <-]); auto].
    + split; [contradiction | intros (c' & Hc' & [= <- <-]); congruence].
Qed.

Lemma match_here_ipfs s rest :
  In rest (match_here ipfs_pattern s) <->
  (s = "--ipfs" ++ rest /\ (rest = "" \/ rest = newline)) \/
  exists c, is_space c = true /\ s = "--ipfs" ++ String c rest.
Proof.
  unfold ipfs_pattern. rewrite match_here_cat. split.
  - intros (mid & Hmid & Hrest). apply match_here_lit in Hmid. subst s.
    apply match_here_alt in Hrest as [Hend | Hspace].
    + apply match_here_end in Hend as [-> Hmid]. left. auto.
    + apply match_here_space in Hspace as (c & Hc & ->). right. eauto.
  - intros [[-> Hrest] | (c & Hc & ->)].
    + exists rest. split; [apply match_here_lit; reflexivity|].
      apply match_here_alt. left. apply match_here_end. auto.
    + exists (String c rest). split; [apply match_here_lit; reflexivity|].
      apply match_here_alt. right. apply match_here_space. eauto.
Qed.

Lemma search_spec r s :
  search r s = true <->
  exists pre suf rest, s = pre ++ suf /\ In rest (match_here r suf).
Proof.
  induction s as [|c s IH]; simpl.
  - destruct (match_here r "") as [|rest l] eqn:Hm.
    + split; [discriminate|]. intros (pre & suf & rest & Hs & Hin).
      destruct pre; [|discriminate]. simpl in Hs. subst suf.
      rewrite Hm in Hin. contradiction.
    + split; [|reflexivity]. intros _. exists "", "", rest. rewrite Hm. simpl. auto.
  - destruct (match_here r (String c s)) as [|rest l] eqn:Hm.
    + rewrite IH. split.
      * intros (pre & suf & rest & -> & Hin). exists (String c pre), suf, rest. auto.
      * intros (pre & suf & rest & Hs & Hin). destruct pre as [|c' pre].
        -- simpl in Hs. subst suf. rewrite Hm in Hin. contradiction.
        -- injection Hs as -> ->. eauto.
    + split; [|reflexivity]. intros _. exists "", (String c s), rest.
      rewrite Hm. simpl. auto.
Qed.

Lemma search_backend name names joined :
  search (backend_pattern (name :: names)) joined = true <->
  backend_selected (name :: names) joined.
Proof.
  rewrite search_spec. unfold backend_selected, contains. split.
  - intros (pre & suf & rest & -> & Hin).
    apply match_here_backend in Hin as (sep & n & Hsep & Hn & ->).
    exists sep, n. split; [exact Hsep|]. split; [exact Hn|].
    exists pre, rest. rewrite !append_assoc. reflexivity.
  - intros (sep & n & Hsep & Hn & pre & post & ->).
    exists pre, ("--ps-backend" ++ sep ++ n ++ post), post.
    split; [rewrite !append_assoc; reflexivity|].
    apply match_here_backend. eauto 10.
Qed.

Lemma search_ipfs joined :
  search ipfs_pattern joined = true <-> ipfs_delimited joined.
Proof.
  rewrite search_spec. unfold ipfs_delimited. split.
  - intros (pre & suf & rest & -> & Hin).
    apply match_here_ipfs in Hin as [[-> [-> | ->]] | (c & Hc & ->)].
    + exists pre, "". auto.
    + exists pre, newline. split; [reflexivity|]. right.
      eexists _, _. split; reflexivity.
    + exists pre, (String c rest). eauto 10.
  - intros (pre & post & -> & [-> | (c & rest & -> & Hc)]).
    + exists pre, "--ipfs", "". split; [reflexivity|].
      apply match_here_ipfs. left. auto.
    + exists pre, ("--ipfs" ++ String c rest), rest. split; [reflexivity|].
      apply match_here_ipfs. right. eauto.
Qed.

(** An argument of the list stands in the joined string between separators. *)
Lemma args_str_In x argv :
  In x argv ->
  exists pre post,
    args_str argv = pre ++ x ++ post /\
    (post = "" \/ exists rest, post = String " " rest).
Proof.
  unfold args_str. induction argv as [|y argv IH]; [contradiction|].
  intros [-> | Hin].
  - destruct argv as [|z argv].
    + exists "", "". simpl. rewrite append_nil_r. auto.
    + exists "", (" " ++ String.concat " " (z :: argv)).
      split; [reflexivity|]. right. eexists. reflexivity.
  - destruct argv as [|z argv]; [contradiction|].
    destruct (IH Hin) as (pre & post & Heq & Hpost).
    exists (y ++ " " ++ pre), post. split; [|exact Hpost].
    change (String.concat " " (y :: z :: argv))
      with (y ++ " " ++ String.concat " " (z :: argv)).
    rewrite Heq, !append_assoc. reflexivity.
Qed.

Lemma ipfs_flag_delimited argv :
  In "--ipfs" argv -> ipfs_delimited (args_str argv).
Proof.
  intros Hin. destruct (args_str_In _ _ Hin) as (pre & post & Heq & Hpost).
  exists pre, post. split; [exact Heq|].
  destruct Hpost as [-> | (rest & ->)]; [auto|].
  right. eexists _, _. split; reflexivity.
Qed.


(** *** The flags marked required *)

Lemma proxystore_required argv required :
  let group := add_proxystore_options argv [] required in
  let joined := args_str argv in
  marks_required group "--ps-endpoints" = search (backend_pattern ["ENDPOINT"]) joined /\
  marks_required group "--ps-file-dir" = search (backend_pattern ["FILE"]) joined /\
  marks_required group "--ps-globus-config" = search (backend_pattern ["GLOBUS"]) joined /\
  marks_required group "--ps-host" = search (backend_pattern ["REDIS"]) joined /\
  marks_required group "--ps-port" =
    search (backend_pattern ["REDIS"; "MARGO"; "UCX"; "ZMQ"]) joined.
Proof.
  unfold add_proxystore_options, add_argument, marks_required. cbn [app existsb arg_flag arg_required].
  repeat split;
    repeat match goal with
           | |- context [String.eqb ?a ?b] =>
               let v := eval vm_compute in (String.eqb a b) in
               change (String.eqb a b) with v
           end;
    cbn [andb orb]; rewrite ?andb_false_r, ?orb_false_r; reflexivity.
Qed.

Lemma ipfs_required argv :
  let parser := add_ipfs_options argv [] in
  marks_required parser "--ipfs-local-dir" = search ipfs_pattern (args_str argv) /\
  marks_required parser "--ipfs-remote-dir" = search ipfs_pattern (args_str argv).
Proof.
  unfold add_ipfs_options, add_argument, marks_required. cbn [app existsb arg_flag arg_required].
  repeat split;
    repeat match goal with
           | |- context [String.eqb ?a ?b] =>
               let v := eval vm_compute in (String.eqb a b) in
               change (String.eqb a b) with v
           end;
    cbn [andb orb]; rewrite ?andb_false_r, ?orb_false_r; reflexivity.
Qed.

(** C6, as the code has it: every conditional flag is required exactly when
    its pattern is found in the joined argument list; for the IPFS
    directories that is when ["--ipfs"] stands there before whitespace or the
    end, which giving the [--ipfs] flag brings about. *)
Theorem conditional_flags_follow_argv (argv : list string) (required : bool) :
  let group := add_proxystore_options argv [] required in
  let parser := add_ipfs_options argv [] in
  let joined := args_str argv in
  (marks_required group "--ps-endpoints" = true <->
   backend_selected ["ENDPOINT"] joined) /\
  (marks_required group "--ps-file-dir" = true <->
   backend_selected ["FILE"] joined) /\
  (marks_required group "--ps-globus-config" = true <->
   backend_selected ["GLOBUS"] joined) /\
  (marks_required group "--ps-host" = true <->
   backend_selected ["REDIS"] joined) /\
  (marks_required group "--ps-port" = true <->
   backend_selected ["REDIS"; "MARGO"; "UCX"; "ZMQ"] joined) /\
  (marks_required parser "--ipfs-local-dir" = true <-> ipfs_delimited joined) /\
  (marks_required parser "--ipfs-remote-dir" = true <-> ipfs_delimited joined) /\
  (In "--ipfs" argv ->
   marks_required parser "--ipfs-local-dir" = true /\
   marks_required parser "--ipfs-remote-dir" = true).
Proof.
  intros group parser joined.
  destruct (proxystore_required argv required) as (H1 & H2 & H3 & H4 & H5).
  destruct (ipfs_required argv) as (H6 & H7).
  fold group joined in H1, H2, H3, H4, H5. fold parser joined in H6, H7.
  rewrite H1, H2, H3, H4, H5, H6, H7, !search_backend, !search_ipfs.
  repeat split; auto; apply ipfs_flag_delimited; assumption.
Qed.

(** C6 as stated fails: a value that ends in ["--ipfs"] makes the IPFS
    directories required although the [--ipfs] flag is not given. *)
Lemma ipfs_required_without_flag :
  ~ (marks_required
       (add_ipfs_options ["psbench"; "--csv-file"; "runs/no--ipfs"] [])
       "--ipfs-local-dir" = true <->
     In "--ipfs" ["psbench"; "--csv-file"; "runs/no--ipfs"]).
Proof.
  intros [Hflag _].
  assert (Hin : In "--ipfs" ["psbench"; "--csv-file"; "runs/no--ipfs"]).
  { apply Hflag. vm_compute. reflexivity. }
  simpl in Hin. repeat destruct Hin as [Hin|Hin]; try discriminate. exact Hin.
Qed.

(** *** The groups together *)

Lemma add_group_app argv parser g :
  add_group argv parser g = (parser ++ add_group argv [] g)%list.
Proof.
  destruct g; unfold add_group, add_globus_compute_options, add_ipfs_options,
    add_logging_options, add_proxystore_options, add_argument;
    cbn [app]; rewrite <- ?app_assoc; reflexivity.
Qed.

Lemma add_groups_flat_map argv gs :
  add_groups argv gs = flat_map (add_group argv []) gs.
Proof.
  unfold add_groups.
  assert (H : forall acc,
            fold_left (add_group argv) gs acc =
            (acc ++ flat_map (add_group argv []) gs)%list).
  { induction gs as [|g gs IH]; intros acc; simpl.
    - rewrite app_nil_r. reflexivity.
    - rewrite IH, add_group_app, <- app_assoc. reflexivity. }
  apply (H []).
Qed.

Lemma group_flags_disjoint argv g1 g2 x :
  In x (map arg_flag (add_group argv [] g1)) ->
  In x (map arg_flag (add_group argv [] g2)) ->
  group_function g1 = group_function g2.
Proof.
  destruct g1, g2; try reflexivity; simpl; intros H1 H2; exfalso;
    repeat (destruct H1 as [H1|H1]; [subst x; intuition discriminate|]);
    exact H1.
Qed.

Lemma group_flags_NoDup argv g : NoDup (map arg_flag (add_group argv [] g)).
Proof.
  destruct g; simpl;
    repeat (constructor; [rewrite list_elem_of_In; simpl; intuition discriminate|]);
    constructor.
Qed.

(** X13: the option groups of the module do not collide: on a fresh parser
    to which each of the four functions is applied at most once, in any
    order, with any command line and any [required] arguments, no two
    arguments have the same option string. *)
Theorem option_groups_do_not_conflict (argv : list string) (gs : list option_group) :
  NoDup (map group_function gs) ->
  NoDup (map arg_flag (add_groups argv gs)).
Proof.
  rewrite add_groups_flat_map.
  induction gs as [|g gs IH]; simpl; intros Hnd; [apply NoDup_nil_2|].
  apply NoDup_cons in Hnd as [Hg Hgs].
  rewrite map_app. apply NoDup_app. split; [apply group_flags_NoDup|].
  split; [|apply IH, Hgs].
  intros x Hx Hx'. apply Hg.
  apply list_elem_of_In in Hx, Hx'.
  rewrite in_map_iff in Hx'. destruct Hx' as (a & <- & Ha).
  apply in_flat_map in Ha as (g' & Hg' & Ha).
  apply list_elem_of_In, in_map_iff. exists g'. split; [|exact Hg'].
  symmetry. eapply group_flags_disjoint; [exact Hx|].
  apply in_map_iff. eauto.
Qed.

Lemma option_groups_do_not_conflict_witness :
  NoDup (map arg_flag
           (add_groups ["psbench"; "--ps-backend"; "REDIS"]
              [LoggingOptions; ProxystoreOptions true; IpfsOptions;
               GlobusComputeOptions false])).
Proof.
  apply (option_groups_do_not_conflict ["psbench"; "--ps-backend"; "REDIS"]
           [LoggingOptions; ProxystoreOptions true; IpfsOptions;
            GlobusComputeOptions false]).
  simpl. repeat (constructor; [rewrite list_elem_of_In; simpl; intuition discriminate|]).
  constructor.
Defined.

Lemma marks_required_app p1 p2 flag :
  marks_required (p1 ++ p2)%list flag = marks_required p1 flag || marks_required p2 flag.
Proof. unfold marks_required. apply existsb_app. Qed.

(** X14: however a parser is built from the four functions and whatever
    the command line, the only flags that can be required are the Globus
    Compute endpoint, the two IPFS directories, [--ps-backend] and the five
    backend-specific ProxyStore flags; the logging options, [--ipfs],
    [--ps-margo-protocol], [--ps-address] and [--ps-interface] never are. *)
Theorem only_these_flags_are_ever_required (argv : list string)
    (gs : list option_group) (flag : string) :
  marks_required (add_groups argv gs) flag = true ->
  In flag ["--globus-compute-endpoint"; "--ipfs-local-dir"; "--ipfs-remote-dir";
           "--ps-backend"; "--ps-endpoints"; "--ps-file-dir"; "--ps-globus-config";
           "--ps-host"; "--ps-port"].
Proof.
  rewrite add_groups_flat_map. unfold marks_required.
  rewrite existsb_exists. intros (a & Ha & Hreq).
  apply in_flat_map in Ha as (g & _ & Ha).
  apply andb_prop in Hreq as [Hflag Hreq]. apply String.eqb_eq in Hflag. subst flag.
  destruct g; simpl in Ha;
    repeat (destruct Ha as [Ha|Ha];
            [subst a; simpl in *; first [discriminate | tauto]|]);
    contradiction.
Qed.

Lemma only_these_flags_are_ever_required_witness :
  In "--ps-host"
     ["--globus-compute-endpoint"; "--ipfs-local-dir"; "--ipfs-remote-dir";
      "--ps-backend"; "--ps-endpoints"; "--ps-file-dir"; "--ps-globus-config";
      "--ps-host"; "--ps-port"].
Proof.
  apply (only_these_flags_are_ever_required ["psbench"; "--ps-backend=REDIS"]
           [LoggingOptions; ProxystoreOptions false]).
  vm_compute. reflexivity.
Defined.

(** *** The command line, argument by argument *)

Lemma args_str_cons x y l :
  args_str (x :: y :: l) = x ++ " " ++ args_str (y :: l).
Proof. reflexivity. Qed.

Lemma args_str_adjacent before a b after :
  contains (a ++ " " ++ b) (args_str (before ++ a :: b :: after)).
Proof.
  induction before as [|x before IH].
  - simpl app. rewrite args_str_cons.
    destruct after as [|c after].
    + exists "", "". simpl. rewrite !append_nil_r. reflexivity.
    + rewrite args_str_cons. exists "", (" " ++ args_str (c :: after)).
      simpl. rewrite !append_assoc. reflexivity.
  - destruct IH as (pre & post & Heq).
    assert (Hcons : exists z l, (before ++ a :: b :: after)%list = z :: l).
    { destruct before; simpl; eauto. }
    destruct Hcons as (z & l & Hl). simpl app. rewrite Hl in *.
    rewrite args_str_cons, Heq.
    exists (x ++ " " ++ pre), post. rewrite !append_assoc. reflexivity.
Qed.

Lemma backend_given_selected name names argv :
  backend_given name argv -> In name names ->
  backend_selected names (args_str argv).
Proof.
  intros [(before & after & ->) | Hin] Hname.
  - exists " ", name. split; [auto|]. split; [exact Hname|].
    apply args_str_adjacent.
  - exists "=", name. split; [auto|]. split; [exact Hname|].
    destruct (args_str_In _ _ Hin) as (pre & post & Heq & _).
    exists pre, post. exact Heq.
Qed.

(** X15: a backend given on the command line, as the argument after
    [--ps-backend] or as [--ps-backend=NAME], anywhere and even if another
    [--ps-backend] follows, makes every flag required whose condition names
    that backend. *)
Theorem backend_flags_required (argv : list string) (required : bool)
    (name flag : string) (names : list string) :
  backend_given name argv ->
  In (flag, names) conditional_flags ->
  In name names ->
  marks_required (add_proxystore_options argv [] required) flag = true.
Proof.
  intros Hgiven Hflag Hname.
  pose proof (backend_given_selected name names argv Hgiven Hname) as Hsel.
  destruct (proxystore_required argv required) as (H1 & H2 & H3 & H4 & H5).
  simpl in Hflag.
  repeat (destruct Hflag as [Hflag|Hflag];
          [injection Hflag as <- <-;
           first [rewrite H1 | rewrite H2 | rewrite H3 | rewrite H4 | rewrite H5];
           apply search_backend; exact Hsel|]).
  contradiction.
Qed.

Lemma backend_flags_required_witness :
  marks_required
    (add_proxystore_options
       ["psbench"; "--ps-backend"; "FILE"; "--ps-backend"; "ZMQ"] [] false)
    "--ps-file-dir" = true.
Proof.
  apply (backend_flags_required
           ["psbench"; "--ps-backend"; "FILE"; "--ps-backend"; "ZMQ"] false
           "FILE" "--ps-file-dir" ["FILE"]).
  - left. exists ["psbench"], ["--ps-backend"; "ZMQ"]. reflexivity.
  - simpl. tauto.
  - simpl. tauto.
Defined.

Lemma prefix_space_free sub : forall x r post,
  has_space sub = false -> sub ++ post = x ++ " " ++ r -> exists m, x = sub ++ m.
Proof.
  induction sub as [|a sub IH]; intros x r post Hsp Heq.
  - exists x. reflexivity.
  - simpl in Hsp. apply orb_false_elim in Hsp as [Ha Hsp].
    destruct x as [|c x]; simpl in Heq.
    + injection Heq as -> _. discriminate.
    + injection Heq as -> Heq. destruct (IH _ _ _ Hsp Heq) as (m & ->).
      exists m. reflexivity.
Qed.

Lemma contains_split sub x r :
  has_space sub = false ->
  contains sub (x ++ " " ++ r) -> contains sub x \/ contains sub r.
Proof.
  intros Hsp (pre & post & Heq). revert pre Heq.
  induction x as [|c x IH]; intros pre Heq.
  - destruct pre as [|c' pre]; simpl in Heq.
    + destruct sub as [|a sub].
      * left. exists "", "". reflexivity.
      * simpl in Heq. injection Heq as <- _. discriminate.
    + injection Heq as _ ->. right. exists pre, post. reflexivity.
  - destruct pre as [|c' pre].
    + simpl in Heq. symmetry in Heq.
      destruct (prefix_space_free sub (String c x) r post Hsp Heq) as (m & ->).
      left. exists "", m. reflexivity.
    + simpl in Heq. injection Heq as <- Heq.
      destruct (IH pre Heq) as [(pre' & post' & ->) | Hr]; [|right; exact Hr].
      left. exists (String c pre'), post'. reflexivity.
Qed.

Lemma contains_args_str sub argv :
  has_space sub = false -> sub <> "" ->
  contains sub (args_str argv) -> exists x, In x argv /\ contains sub x.
Proof.
  intros Hsp Hne. induction argv as [|x argv IH]; intros Hc.
  - destruct Hc as (pre & post & Heq). exfalso. apply Hne.
    destruct pre; [|discriminate]. destruct sub; [reflexivity | discriminate].
  - destruct argv as [|y argv].
    + exists x. split; [left; reflexivity | exact Hc].
    + rewrite args_str_cons in Hc.
      apply contains_split in Hc as [Hx | Hrest]; [| |exact Hsp].
      * exists x. split; [left; reflexivity | exact Hx].
      * destruct (IH Hrest) as (z & Hz & Hcz). exists z. split; [right; exact Hz | exact Hcz].
Qed.

(** X16: a backend-specific flag is required only if some single argument
    of the command line contains the text [--ps-backend], and an IPFS
    directory only if some single argument contains the text [--ipfs]. *)
Theorem conditional_flags_need_their_text (argv : list string) (required : bool) :
  (forall flag names,
     In (flag, names) conditional_flags ->
     marks_required (add_proxystore_options argv [] required) flag = true ->
     exists x, In x argv /\ contains "--ps-backend" x) /\
  (forall flag,
     In flag ["--ipfs-local-dir"; "--ipfs-remote-dir"] ->
     marks_required (add_ipfs_options argv []) flag = true ->
     exists x, In x argv /\ contains "--ipfs" x).
Proof.
  split.
  - intros flag names Hflag Hreq.
    apply contains_args_str; [reflexivity | discriminate |].
    destruct (proxystore_required argv required) as (H1 & H2 & H3 & H4 & H5).
    assert (Hsel : exists name names', backend_selected (name :: names') (args_str argv)).
    { simpl in Hflag.
      repeat (destruct Hflag as [Hflag|Hflag];
              [injection Hflag as <- <-;
               first [rewrite H1 in Hreq | rewrite H2 in Hreq | rewrite H3 in Hreq
                     | rewrite H4 in Hreq | rewrite H5 in Hreq];
               apply search_backend in Hreq; eauto|]).
      contradiction. }
    destruct Hsel as (name & names' & sep & n & _ & _ & pre & post & Heq).
    exists pre, (sep ++ n ++ post). rewrite Heq, !append_assoc. reflexivity.
  - intros flag Hflag Hreq.
    apply contains_args_str; [reflexivity | discriminate |].
    destruct (ipfs_required argv) as (H6 & H7).
    assert (Hd : ipfs_delimited (args_str argv)).
    { simpl in Hflag. destruct Hflag as [<- | [<- | []]];
        [rewrite H6 in Hreq | rewrite H7 in Hreq]; apply search_ipfs, Hreq. }
    destruct Hd as (pre & post & Heq & _). exists pre, post. exact Heq.
Qed.

(** X17: the values the parser accepts for [--ps-backend] are exactly the
    backends [init_store_from_args] builds a store for when the library does
    not fail. *)
Theorem accepted_backends_are_buildable (argv : list string) (required : bool)
    (K : Type) (args : ProxyStoreBackend.Namespace) (kwargs : K)
    (calls : list (ProxyStoreBackend.call K)) (backend : string) :
  ProxyStoreBackend.ps_backend args = Some backend ->
  (In backend (choices_of (add_proxystore_options argv [] required) "--ps-backend") <->
   exists store calls',
     ProxyStoreBackend.init_store_from_args K (fun _ => None) args kwargs calls =
       (Returns (Some store), calls')).
Proof.
  intros Hb.
  assert (Hchoices :
            choices_of (add_proxystore_options argv [] required) "--ps-backend" =
            ["FILE"; "GLOBUS"; "REDIS"; "ENDPOINT"; "MARGO"; "UCX"; "ZMQ"]).
  { reflexivity. }
  rewrite Hchoices.
  unfold ProxyStoreBackend.init_store_from_args, ProxyStoreBackend.new_connector,
    ProxyStoreBackend.invoke, ProxyStoreBackend.lbind, ProxyStoreBackend.lret,
    ProxyStoreBackend.lraise, ProxyStoreBackend.falsy.
  rewrite Hb. cbn [default from_option id].
  split.
  - intros Hin. simpl in Hin.
    repeat (destruct Hin as [Hin|Hin]; [subst backend; cbn; eauto|]).
    contradiction.
  - intros (store & calls' & Hrun). revert Hrun.
    destruct (String.eqb_spec backend ""); [discriminate|].
    repeat match goal with
           | |- context [String.eqb backend ?x] =>
               destruct (String.eqb_spec backend x); [subst; simpl; tauto|]
           end.
    discriminate.
Qed.

Lemma accepted_backends_are_buildable_witness :
  In "REDIS" (choices_of (add_proxystore_options ["psbench"] [] true) "--ps-backend") <->
  exists store calls',
    ProxyStoreBackend.init_store_from_args unit (fun _ => None)
      (ProxyStoreBackend.mkNamespace (Some "REDIS") None None None
         (Some "localhost") (Some 6379%Z) (Some "tcp") None None) tt [] =
      (Returns (Some store), calls').
Proof.
  apply (accepted_backends_are_buildable ["psbench"] true unit
           (ProxyStoreBackend.mkNamespace (Some "REDIS") None None None
              (Some "localhost") (Some 6379%Z) (Some "tcp") None None) tt []).
  reflexivity.
Defined.

Example proxystore_redis_requires_host_and_port :
  let group := add_proxystore_options ["psbench"; "--ps-backend"; "REDIS"] [] true in
  map (fun a => (arg_flag a, arg_required a)) group =
  [("--ps-backend", true); ("--ps-endpoints", false); ("--ps-file-dir", false);
   ("--ps-globus-config", false); ("--ps-host", true); ("--ps-port", true);
   ("--ps-margo-protocol", false); ("--ps-address", false);
   ("--ps-interface", false)].
Proof. vm_compute. reflexivity. Qed.

Example ipfs_local_dir_does_not_require :
  marks_required
    (add_ipfs_options ["psbench"; "--ipfs-local-dir"; "/tmp/x"] [])
    "--ipfs-remote-dir" = false.
Proof. vm_compute. reflexivity. Qed.

End Argparse.

(** ** psbench/results.py, as the specification and its tests describe it *)

Module Results.

(** Modelled from the spec: the record types handed to the logger, which are
    missing from the sources; the three shapes are a named tuple, a dataclass
    and a validated model, each with its declared field names. *)
Inductive RecordType : Type :=
| NamedTupleType (fields : list string)
| DataclassType (fields : list string)
| ModelType (fields : list string).

(** Modelled from the spec: [field_names], missing from the sources, which
    reflects the field names by the strategy that fits the record's shape. *)
Definition field_names (data_type : RecordType) : list string :=
  match data_type with
  | NamedTupleType fields => fields
  | DataclassType fields => fields
  | ModelType fields => fields
  end.

(** A line of a CSV file; the constructor remembers whether the logger wrote
    it as a header or as a record, the file itself holds only the cells. *)
Inductive line : Type :=
| HeaderLine (names : list string)
| DataLine (values : list string).

Definition cells (l : line) : list string :=
  match l with
  | HeaderLine names => names
  | DataLine values => values
  end.

Definition is_header (l : line) : bool :=
  match l with HeaderLine _ => true | DataLine _ => false end.

Record CSVLogger : Type := mkCSVLogger {
  filepath : string;
  data_type : RecordType;
}.

(** Modelled from the spec: [CSVLogger(filepath, data_type)], missing from
    the sources. The file is opened for append or created; the header is
    written only to a file that is newly created; an existing file whose
    header disagrees with the record type's field names is refused with
    ValueError. *)
Definition open_logger (filepath : string) (data_type : RecordType)
    (fs : gmap string (list line)) : outcome CSVLogger * gmap string (list line) :=
  match fs !! filepath with
  | None =>
      (Returns (mkCSVLogger filepath data_type),
       <[filepath := [HeaderLine (field_names data_type)]]> fs)
  | Some [] => (Returns (mkCSVLogger filepath data_type), fs)
  | Some (header :: _) =>
      if bool_decide (cells header = field_names data_type) then
        (Returns (mkCSVLogger filepath data_type), fs)
      else
        (Raises (ValueError "CSV headers do not match the data type fields"), fs)
  end.

(** Modelled from the spec: [CSVLogger.log(record)], missing from the
    sources: one more row at the end of the file. *)
Definition log (logger : CSVLogger) (values : list string)
    (fs : gmap string (list line)) : gmap string (list line) :=
  match fs !! filepath logger with
  | Some lines => <[filepath logger := lines ++ [DataLine values]]> fs
  | None => <[filepath logger := [DataLine values]]> fs
  end.

(** [CSVLogger.close()] leaves the file as it is. *)
Definition close (logger : CSVLogger) (fs : gmap string (list line)) :
    gmap string (list line) := fs.

(** One use of the logger: open, log the records, close. *)
Definition session (filepath : string) (data_type : RecordType)
    (records : list (list string)) (fs : gmap string (list line)) :
    outcome unit * gmap string (list line) :=
  match open_logger filepath data_type fs with
  | (Returns logger, fs') =>
      (Returns tt, close logger (fold_left (fun fs r => log logger r fs) records fs'))
  | (Raises e, fs') => (Raises e, fs')
  end.

Fixpoint sessions (filepath : string)
    (uses : list (RecordType * list (list string)))
    (fs : gmap string (list line)) : outcome unit * gmap string (list line) :=
  match uses with
  | [] => (Returns tt, fs)
  | (data_type, records) :: rest =>
      match session filepath data_type records fs with
      | (Returns _, fs') => sessions filepath rest fs'
      | (Raises e, fs') => (Raises e, fs')
      end
  end.

Lemma fold_log logger records : forall fs lines,
  fs !! filepath logger = Some lines ->
  fold_left (fun fs r => log logger r fs) records fs =
  <[filepath logger := lines ++ map DataLine records]> fs.
Proof.
  induction records as [|r records IH]; intros fs lines Hfs; simpl.
  - rewrite app_nil_r. symmetry. apply insert_id. exact Hfs.
  - unfold log at 2. rewrite Hfs.
    rewrite (IH _ (lines ++ [DataLine r])) by apply lookup_insert_eq.
    rewrite insert_insert_eq, <- app_assoc. reflexivity.
Qed.

Lemma session_existing path data_type records fs header lines :
  fs !! path = Some (header :: lines) ->
  cells header = field_names data_type ->
  session path data_type records fs =
  (Returns tt, <[path := (header :: lines) ++ map DataLine records]> fs).
Proof.
  intros Hfs Hheader. unfold session, open_logger. rewrite Hfs.
  rewrite bool_decide_eq_true_2 by exact Hheader.
  unfold close. rewrite (fold_log _ _ _ (header :: lines)) by exact Hfs.
  reflexivity.
Qed.

Lemma session_new path data_type records fs :
  fs !! path = None ->
  session path data_type records fs =
  (Returns tt,
   <[path := HeaderLine (field_names data_type) :: map DataLine records]> fs).
Proof.
  intros Hfs. unfold session, open_logger. rewrite Hfs. unfold close.
  rewrite (fold_log _ _ _ [HeaderLine (field_names data_type)])
    by apply lookup_insert_eq.
  rewrite insert_insert_eq. reflexivity.
Qed.

Lemma sessions_existing path names uses : forall fs header lines,
  fs !! path = Some (header :: lines) ->
  cells header = names ->
  Forall (fun use => field_names (fst use) = names) uses ->
  sessions path uses fs =
  (Returns tt,
   <[path := (header :: lines) ++ map DataLine (concat (map snd uses))]> fs).
Proof.
  induction uses as [|[data_type records] uses IH]; intros fs header lines Hfs Hh Hall.
  - simpl. rewrite app_nil_r, insert_id by exact Hfs. reflexivity.
  - apply Forall_cons in Hall as [Hty Hall]. simpl in Hty.
    cbn [sessions]. rewrite (session_existing _ _ _ _ header lines) by congruence.
    change ((header :: lines) ++ map DataLine records)
      with (header :: (lines ++ map DataLine records)).
    rewrite (IH _ header (lines ++ map DataLine records))
      by (try apply lookup_insert_eq; assumption).
    rewrite insert_insert_eq. simpl. rewrite map_app, <- app_assoc. reflexivity.
Qed.

Lemma data_lines_hold_no_header (records : list (list string)) :
  filter (fun l => is_header l = true) (map DataLine records) = [].
Proof.
  induction records as [|r records IH]; [reflexivity|]. simpl.
  rewrite filter_cons_False by (simpl; discriminate). exact IH.
Qed.

(** C7: the logger writes the header only into a file it creates, and
    leaves an existing file as it is when it opens it; an existing file whose
    header differs from the record type's field names is refused with
    ValueError; and any number of uses over one file, with record types of
    any shape that share their field names, leave a file with exactly one
    header line, at the top, followed by all the records. *)
Theorem header_written_once_and_checked :
  (forall path data_type fs,
     fs !! path = None ->
     open_logger path data_type fs =
     (Returns (mkCSVLogger path data_type),
      <[path := [HeaderLine (field_names data_type)]]> fs)) /\
  (forall path data_type fs lines,
     fs !! path = Some lines ->
     snd (open_logger path data_type fs) = fs) /\
  (forall path data_type fs header lines,
     fs !! path = Some (header :: lines) ->
     cells header <> field_names data_type ->
     exists msg, fst (open_logger path data_type fs) = Raises (ValueError msg)) /\
  (forall path names first rest fs,
     fs !! path = None ->
     Forall (fun use => field_names (fst use) = names) (first :: rest) ->
     exists lines,
       sessions path (first :: rest) fs = (Returns tt, <[path := lines]> fs) /\
       lines = HeaderLine names :: map DataLine (concat (map snd (first :: rest))) /\
       length (filter (fun l => is_header l = true) lines) = 1%nat) /\
  (forall fields,
     field_names (NamedTupleType fields) = fields /\
     field_names (DataclassType fields) = fields /\
     field_names (ModelType fields) = fields).
Proof.
  split; [|split; [|split; [|split]]].
  - intros path data_type fs Hfs. unfold open_logger. rewrite Hfs. reflexivity.
  - intros path data_type fs lines Hfs. unfold open_logger. rewrite Hfs.
    destruct lines as [|header lines]; [reflexivity|].
    destruct (bool_decide _); reflexivity.
  - intros path data_type fs header lines Hfs Hne. unfold open_logger. rewrite Hfs.
    rewrite bool_decide_eq_false_2 by exact Hne. simpl. eauto.
  - intros path names [data_type records] rest fs Hfs Hall.
    apply Forall_cons in Hall as [Hty Hall]. simpl in Hty.
    eexists. split; [|split; [reflexivity|]].
    + cbn [sessions]. rewrite session_new by exact Hfs.
      rewrite (sessions_existing path names rest _
                 (HeaderLine (field_names data_type)) (map DataLine records))
        by (try apply lookup_insert_eq; assumption).
      rewrite insert_insert_eq, Hty. simpl. rewrite map_app. reflexivity.
    + rewrite filter_cons_True by reflexivity.
      rewrite data_lines_hold_no_header. reflexivity.
  - intros fields. repeat split.
Qed.

(** The scenarios of tests/results_test.py. *)

Definition data_fields : list string := ["time"; "value"; "result"].

Example test_csv_logger_append :
  let fs :=
    snd (sessions "log.csv"
           [(NamedTupleType data_fields, [["1.0"; "2"; "3"]]);
            (DataclassType data_fields, [["4.0"; "5"; "6"]; ["7.0"; "8"; "9"]]);
            (ModelType data_fields, [["4.0"; "5"; "6"]; ["7.0"; "8"; "9"]])]
           ∅) in
  length <$> fs !! "log.csv" = Some 6%nat.
Proof. vm_compute. reflexivity. Qed.

Example test_csv_logger_mismatch_headers :
  let fs :=
    snd (session "log.csv" (NamedTupleType data_fields) [["1.0"; "2"; "3"]] ∅) in
  fst (open_logger "log.csv" (NamedTupleType ["x"]) fs) =
  Raises (ValueError "CSV headers do not match the data type fields").
Proof. vm_compute. reflexivity. Qed.

End Results.
